(** * vscode-acp: the agent connection client and the diagnostic classifier

    A shallow embedding of
      - [src/utils/logger]      (the [Logger] class),
      - [src/acp/client]        (the [ACPClient] class),
      - [src/views/chat.ts]     ([ChatViewProvider.handleStderr]),
    followed by the properties of the specification that concern them. *)

From Stdlib Require Import List String Ascii ZArith NArith Arith Bool Lia.
From Stdlib Require Import DecimalString.
Import ListNotations.

Set Implicit Arguments.

(* ================================================================== *)
(** * JavaScript strings *)
(* ================================================================== *)

(** A JavaScript string is a sequence of UTF-16 code units; [length],
    [slice] and the regular expressions of the source all count and
    read code units. *)
Module Js.

Definition char := N.
Definition jsstring := list char.

(** A string literal of the source (code units below 256). *)
Definition lit (s : string) : jsstring :=
  map N_of_ascii (list_ascii_of_string s).

(** [s.length] *)
Definition length (s : jsstring) : Z := Z.of_nat (List.length s).

(** [s.slice(start)]: a negative [start] counts from the end, and
    both ends are clamped to the string. *)
Definition slice (s : jsstring) (start : Z) : jsstring :=
  let len := length s in
  let from := if (start <? 0)%Z then Z.max (len + start) 0
              else Z.min start len in
  skipn (Z.to_nat from) s.

(** The double quote, U+0022. *)
Definition dquote : char := 34%N.

End Js.

(* ================================================================== *)
(** * The regular expressions of [handleStderr] *)
(* ================================================================== *)

(** The fragment of ECMAScript regular expressions that the source
    uses: literals, character classes, concatenation, a greedy [?],
    greedy [*] and [+] over a character class, and capturing groups.
    Matching is by backtracking, in the priority order of the
    ECMAScript semantics. *)
Module Regex.
Import Js.

Inductive regex : Type :=
| Empty
| Char (c : char)
| Class (p : char -> bool)
| Seq (r1 r2 : regex)
| Optional (r : regex)
| Star (p : char -> bool)
| Group (i : nat) (r : regex).

Arguments Char c%_N.

(** [cls+] *)
Definition Plus (p : char -> bool) : regex := Seq (Class p) (Star p).

(** A run of literal characters. *)
Definition Lit (s : jsstring) : regex :=
  fold_right (fun c r => Seq (Char c) r) Empty s.

(** [r1 r2 ... rn] *)
Definition Cat (rs : list regex) : regex := fold_right Seq Empty rs.

Definition in_range (lo hi c : char) : bool :=
  ((lo <=? c) && (c <=? hi))%N.
Arguments in_range (lo hi c)%_N.

(** [\w]: [A-Za-z0-9_] *)
Definition word (c : char) : bool :=
  in_range 97 122 c || in_range 65 90 c || in_range 48 57 c || (c =? 95)%N.

(** [\s]: the ECMAScript WhiteSpace and LineTerminator code units. *)
Definition space (c : char) : bool :=
  in_range 9 13 c || (c =? 32)%N || (c =? 160)%N || (c =? 5760)%N
  || in_range 8192 8202 c || (c =? 8232)%N || (c =? 8233)%N
  || (c =? 8239)%N || (c =? 8287)%N || (c =? 12288)%N || (c =? 65279)%N.

(** [[^c]] *)
Definition other_than (c : char) (x : char) : bool := negb (x =? c)%N.
Arguments other_than (c x)%_N.

(** Captures, most recent first. *)
Definition captures := list (nat * jsstring).

Fixpoint capture (i : nat) (cs : captures) : option jsstring :=
  match cs with
  | [] => None
  | (j, v) :: rest => if Nat.eqb i j then Some v else capture i rest
  end.

Definition cont (R : Type) := jsstring -> captures -> option R.

(** The part of [s] that was consumed when [rest] is what remains. *)
Definition consumed (s rest : jsstring) : jsstring :=
  firstn (List.length s - List.length rest) s.

(** Greedy [cls*]: take the character when the class accepts it and
    the rest of the pattern then succeeds, otherwise stop here. *)
Fixpoint star (R : Type) (p : char -> bool) (s : jsstring) (cs : captures)
         (k : cont R) : option R :=
  match s with
  | c :: t =>
      if p c then
        match star p t cs k with
        | Some r => Some r
        | None => k s cs
        end
      else k s cs
  | [] => k [] cs
  end.

Fixpoint exec (R : Type) (r : regex) (s : jsstring) (cs : captures)
         (k : cont R) {struct r} : option R :=
  match r with
  | Empty => k s cs
  | Char c =>
      match s with
      | x :: t => if (x =? c)%N then k t cs else None
      | [] => None
      end
  | Class p =>
      match s with
      | x :: t => if p x then k t cs else None
      | [] => None
      end
  | Seq r1 r2 => exec r1 s cs (fun s' cs' => exec r2 s' cs' k)
  | Optional r1 =>
      match exec r1 s cs k with
      | Some x => Some x
      | None => k s cs
      end
  | Star p => star p s cs k
  | Group i r1 =>
      exec r1 s cs (fun s' cs' => k s' ((i, consumed s s') :: cs'))
  end.

(** The match object: where the match starts, the matched text
    (element 0 of the array) and the groups. *)
Record MatchResult : Type := mkMatch {
  index : nat;
  matched : jsstring;
  groups : captures
}.

(** Element [i] of the match array. *)
Definition group (m : MatchResult) (i : nat) : option jsstring :=
  match i with
  | O => Some (matched m)
  | _ => capture i (groups m)
  end.

(** A match anchored at the start of [s]. *)
Definition exec_here (r : regex) (s : jsstring) : option (jsstring * captures) :=
  exec r s [] (fun rest cs => Some (consumed s rest, cs)).

(** The search tries every start position from the left. *)
Fixpoint search (r : regex) (s : jsstring) (i : nat) : option MatchResult :=
  match exec_here r s with
  | Some (m, cs) => Some (mkMatch i m cs)
  | None =>
      match s with
      | [] => None
      | _ :: t => search r t (S i)
      end
  end.

(** [s.match(r)] for a regular expression without the [g] flag. *)
Definition match_ (s : jsstring) (r : regex) : option MatchResult :=
  search r s 0.

(** The language of a pattern, with the captures it sets:
    [derives r s cs cs'] when [r] matches exactly [s] and turns the
    captures [cs] into [cs']. *)
Inductive derives : regex -> jsstring -> captures -> captures -> Prop :=
| d_empty cs : derives Empty [] cs cs
| d_char c cs : derives (Char c) [c] cs cs
| d_class (p : char -> bool) c cs : p c = true -> derives (Class p) [c] cs cs
| d_seq r1 r2 s1 s2 cs cs1 cs2 :
    derives r1 s1 cs cs1 -> derives r2 s2 cs1 cs2 ->
    derives (Seq r1 r2) (s1 ++ s2) cs cs2
| d_skip r cs : derives (Optional r) [] cs cs
| d_take r s cs cs' : derives r s cs cs' -> derives (Optional r) s cs cs'
| d_star (p : char -> bool) s cs :
    Forall (fun c => p c = true) s -> derives (Star p) s cs cs
| d_group i r s cs cs' :
    derives r s cs cs' -> derives (Group i r) s cs ((i, s) :: cs').

(** [s] is in the language of [r]. *)
Definition matches (r : regex) (s : jsstring) : Prop :=
  exists cs', derives r s [] cs'.

(** Some substring of [s] is in the language of [r]. *)
Definition occurs (r : regex) (s : jsstring) : Prop :=
  exists pre mid post, s = pre ++ mid ++ post /\ matches r mid.

End Regex.

(* ================================================================== *)
(** * [src/views/chat.ts]: the diagnostic stream classifier *)
(* ================================================================== *)

Module Chat.
Import Js Regex.

(** [/(\w+Error):\s*(\w+)?\s*\n?\s*data:\s*\{([^}]+)\}/] *)
Definition errorPattern : regex :=
  Cat [ Group 1 (Seq (Plus word) (Lit (lit "Error")));
        Char 58;
        Star space;
        Optional (Group 2 (Plus word));
        Star space;
        Optional (Char 10);
        Star space;
        Lit (lit "data:");
        Star space;
        Char 123;
        Group 3 (Plus (other_than 125));
        Char 125 ].

(** [/<key>:\s*Q([^Q]+)Q/], where Q stands for the double quote. *)
Definition fieldPattern (key : string) : regex :=
  Cat [ Lit (lit key);
        Char 58;
        Star space;
        Char dquote;
        Group 1 (Plus (other_than dquote));
        Char dquote ].

(** The pattern of the [providerID] field. *)
Definition providerPattern : regex := fieldPattern "providerID".

(** The pattern of the [modelID] field. *)
Definition modelPattern : regex := fieldPattern "modelID".

(** An element of a match array inside a template literal; a group
    that did not take part prints as [undefined]. *)
Definition interpolate (v : option jsstring) : jsstring :=
  match v with
  | Some s => s
  | None => lit "undefined"
  end.

(** The messages handed to [this.postMessage]. *)
Inductive WebviewPost : Type :=
| agentError (text : jsstring).

(** The part of [ChatViewProvider] that [handleStderr] reads and
    writes. *)
Record ChatViewProvider : Type := mkChat {
  stderrBuffer : jsstring;
  streamingText : jsstring;
  hasSession : bool
}.

Definition initial : ChatViewProvider :=
  mkChat [] [] false.

Definition set_stderrBuffer (b : jsstring) (v : ChatViewProvider) :=
  mkChat b (streamingText v) (hasSession v).

(** The classification computed from a match of [errorPattern].
    Groups 1 and 3 take part in every match of that pattern, so the
    [undefined] of [interpolate] never shows for them. *)
Definition classify (errorMatch : MatchResult) : jsstring :=
  let errorType := group errorMatch 1 in
  let errorData := interpolate (group errorMatch 3) in
  let providerMatch := match_ errorData providerPattern in
  let modelMatch := match_ errorData modelPattern in
  match providerMatch, modelMatch with
  | Some pm, Some mm =>
      lit "Model not found: " ++ interpolate (group pm 1)
        ++ lit "/" ++ interpolate (group mm 1)
  | _, _ => lit "Agent error: " ++ interpolate errorType
  end.

(** [handleStderr(text)]: the new provider and the calls of
    [this.postMessage] it made, in order. *)
Definition handleStderr (text : jsstring) (v : ChatViewProvider)
  : ChatViewProvider * list WebviewPost :=
  let v1 := set_stderrBuffer (stderrBuffer v ++ text) v in
  let '(v2, posts) :=
    match match_ (stderrBuffer v1) errorPattern with
    | Some errorMatch =>
        (set_stderrBuffer [] v1, [agentError (classify errorMatch)])
    | None => (v1, [])
    end in
  let v3 :=
    if (length (stderrBuffer v2) >? 10000)%Z
    then set_stderrBuffer (slice (stderrBuffer v2) (-5000)) v2
    else v2 in
  (v3, posts).

(** The text of the specification's end-to-end example: FooError,
    then a data object with providerID acme and modelID x1. *)
Definition example_text : jsstring :=
  lit "FooError: data: {providerID: " ++ [dquote] ++ lit "acme" ++ [dquote]
    ++ lit ", modelID: " ++ [dquote] ++ lit "x1" ++ [dquote] ++ lit "}".

End Chat.

(* ================================================================== *)
(** * The shapes the classifier looks for *)
(* ================================================================== *)

(** What the patterns of [handleStderr] recognise, said without a
    matcher: how a text splits into the parts the groups capture. *)
Module Shapes.
Import Js Regex Chat.

Definition all (p : char -> bool) (s : jsstring) : Prop :=
  Forall (fun c => p c = true) s.

(** Between the colon after the error type and [data:]: white space,
    possibly one word, white space. *)
Definition gap (g : jsstring) : Prop :=
  exists ws1 w ws2,
    g = ws1 ++ w ++ ws2 /\ all space ws1 /\ all word w /\ all space ws2.

(** [s] shows an error of type [errorType] with the data
    [errorData]: a word that ends in [Error], a colon, the gap,
    [data:], white space, and the non-empty text between an opening
    brace and the first closing brace after it. *)
Definition error_shape (s errorType errorData : jsstring) : Prop :=
  exists pre name g ws post,
    s = pre ++ errorType ++ [58%N] ++ g ++ lit "data:" ++ ws ++ [123%N]
          ++ errorData ++ [125%N] ++ post
    /\ errorType = name ++ lit "Error"
    /\ name <> [] /\ all word name
    /\ gap g /\ all space ws
    /\ errorData <> [] /\ all (other_than 125) errorData.

(** [data] has the field [key] with the quoted, non-empty [value]. *)
Definition field_value (key : string) (data value : jsstring) : Prop :=
  exists pre ws post,
    data = pre ++ lit key ++ [58%N] ++ ws ++ [dquote] ++ value ++ [dquote] ++ post
    /\ all space ws
    /\ value <> [] /\ all (other_than dquote) value.

Definition has_field (key : string) (data : jsstring) : Prop :=
  exists value, field_value key data value.

Definition shows_error (s : jsstring) : Prop :=
  exists errorType errorData, error_shape s errorType errorData.

(** [error_shape], with the place at which the error type starts:
    the number of code units in front of it. *)
Definition error_at (n : nat) (s errorType errorData : jsstring) : Prop :=
  exists pre name g ws post,
    List.length pre = n
    /\ s = pre ++ errorType ++ [58%N] ++ g ++ lit "data:" ++ ws ++ [123%N]
            ++ errorData ++ [125%N] ++ post
    /\ errorType = name ++ lit "Error"
    /\ name <> [] /\ all word name
    /\ gap g /\ all space ws
    /\ errorData <> [] /\ all (other_than 125) errorData.

(** The first error that [s] shows: no error of [s] starts further
    to the left. *)
Definition first_error (s errorType errorData : jsstring) : Prop :=
  exists n,
    error_at n s errorType errorData
    /\ forall m t d, error_at m s t d -> (n <= m)%nat.

(** [field_value], with the place at which the key starts. *)
Definition field_at (n : nat) (key : string) (data value : jsstring) : Prop :=
  exists pre ws post,
    List.length pre = n
    /\ data = pre ++ lit key ++ [58%N] ++ ws ++ [dquote] ++ value ++ [dquote] ++ post
    /\ all space ws
    /\ value <> [] /\ all (other_than dquote) value.

(** The value of the first field [key] of [data]. *)
Definition first_field (key : string) (data value : jsstring) : Prop :=
  exists n,
    field_at n key data value
    /\ forall m v, field_at m key data v -> (n <= m)%nat.

(** An error without fields in its data. *)
Definition plain_error_text : jsstring := lit "FooError: data: {x}".

(** Two errors, after some other text: the first one counts. *)
Definition two_errors_text : jsstring :=
  lit "warn: retry BarError:data:{y} then " ++ plain_error_text.

(** The last [n] code units of [s]. *)
Definition trailing (n : Z) (s : jsstring) : jsstring :=
  skipn (Z.to_nat (length s - n)) s.

(** More than 10,000 code units without an error in them: blanks. *)
Definition long_blank_text : jsstring := repeat 32%N (N.to_nat 10001).

(** A chunk of more than 10,000 code units that starts with an error:
    FooError, a data object, and then 10,000 times the letter a. *)
Definition long_error_text : jsstring :=
  lit "FooError: data: {x}" ++ repeat 97%N (N.to_nat 10000).

End Shapes.

(* ================================================================== *)
(** * [src/utils/logger]: the logger *)
(* ================================================================== *)

Module Logger.
Local Open Scope string_scope.

(** An [Error] object, as far as the program reads it: its message
    and its stack.  The run time sets the stack when the object is
    made; [None] is an [undefined] stack. *)
Record JsError : Type := mkError { message : string; stack : option string }.

(** A value that is thrown, or with which a promise is rejected: an
    [Error] object, or something else.  Of something else the program
    reads whether it is truthy and what [JSON.stringify] makes of it:
    a text, indented for [JSON.stringify(value, null, 2)] and compact
    for [JSON.stringify(value)]; [undefined] (for a function or a
    symbol); or an exception of its own (for a cycle or a BigInt). *)
Inductive JsValue : Type :=
| an_Error (e : JsError)
| a_value (truthy : bool) (stringified : Stringified)
with Stringified : Type :=
| json (indented compact : string)
| json_undefined
| json_throws (v : JsValue).

(** How a call ends: it returns, or it throws. *)
Inductive Outcome (A : Type) : Type :=
| Returned (a : A)
| Thrown (e : JsValue).
Arguments Thrown {A} e.

(** [new Error(message)].  The stack that the run time gives the
    object starts with the name and the message of the error; the
    frames of the call, which follow and depend on the installation,
    are left out. *)
Definition newError (message : string) : JsError :=
  mkError message (Some ("Error: " ++ message)).

Inductive LogLevel : Type := Debug | Info | Warn | Error.

(** The numeric value of the enum member. *)
Definition value (l : LogLevel) : Z :=
  match l with
  | Debug => 0
  | Info => 1
  | Warn => 2
  | Error => 3
  end.

(** [LogLevel[level].toUpperCase()] *)
Definition levelName (l : LogLevel) : string :=
  match l with
  | Debug => "DEBUG"
  | Info => "INFO"
  | Warn => "WARN"
  | Error => "ERROR"
  end.

(** A line of the output channel: the level tag and the message that
    follows it.  The time stamp in front of them and the serialised
    extra arguments behind them are left out. *)
Record Line : Type := mkLine { tag : string; text : string }.

Record Logger : Type := mkLogger {
  level : LogLevel;
  outputChannel : list Line
}.

(** [new Logger()] *)
Definition create : Logger := mkLogger Info [].

Definition setLogLevel (l : LogLevel) (g : Logger) : Logger :=
  mkLogger l (outputChannel g).

Definition log (l : LogLevel) (msg : string) (g : Logger) : Logger :=
  if (value l <? value (level g))%Z then g
  else mkLogger (level g) (outputChannel g ++ [mkLine (levelName l) msg])%list.

Definition debug (msg : string) : Logger -> Logger := log Debug msg.
Definition info (msg : string) : Logger -> Logger := log Info msg.
Definition warn (msg : string) : Logger -> Logger := log Warn msg.

Definition newline : string := String (ascii_of_nat 10) EmptyString.

(** [if (error)] *)
Definition is_truthy (v : JsValue) : bool :=
  match v with
  | an_Error _ => true
  | a_value t _ => t
  end.

(** [error.stack || error.message] *)
Definition stackOrMessage (e : JsError) : string :=
  match stack e with
  | Some s => if String.eqb s "" then message e else s
  | None => message e
  end.

(** [`${JSON.stringify(error, null, 2)}`] *)
Definition stringify (s : Stringified) : Outcome string :=
  match s with
  | json indented _ => Returned indented
  | json_undefined => Returned "undefined"
  | json_throws v => Thrown v
  end.

(** [error(message, error?)]: what is known of a truthy error goes on
    a second line of the message: the stack of an [Error] object, or
    its message when it has no stack, and the JSON text of anything
    else.  When that text cannot be made the call throws, and nothing
    is written. *)
Definition error (msg : string) (err : option JsValue) (g : Logger)
  : Outcome Logger :=
  let fullMessage :=
    match err with
    | Some v =>
        if is_truthy v
        then
          match v with
          | an_Error e => Returned (msg ++ newline ++ stackOrMessage e)
          | a_value _ s =>
              match stringify s with
              | Returned t => Returned (msg ++ newline ++ t)
              | Thrown x => Thrown x
              end
          end
        else Returned msg
    | None => Returned msg
    end in
  match fullMessage with
  | Returned m => Returned (log Error m g)
  | Thrown x => Thrown x
  end.

End Logger.

(* ================================================================== *)
(** * [src/acp/client]: the connection client *)
(* ================================================================== *)

Module Client.
Import Logger.
Local Open Scope string_scope.

(** ** Data *)

Inductive ACPConnectionState : Type :=
| disconnected
| connecting
| connected
| error.

Definition state_eqb (a b : ACPConnectionState) : bool :=
  match a, b with
  | disconnected, disconnected => true
  | connecting, connecting => true
  | connected, connected => true
  | error, error => true
  | _, _ => false
  end.

(** A property that may be missing ([undefined]), [null] or set. *)
Inductive Nullish (A : Type) : Type :=
| undefined
| null
| defined (a : A).
Arguments undefined {A}.
Arguments null {A}.

(** [x ?? null] *)
Definition orNull (A : Type) (x : Nullish A) : option A :=
  match x with
  | defined a => Some a
  | _ => None
  end.

(** The protocol library's types, as far as the client reads them. *)
Record SessionModeState : Type := mkModes {
  currentModeId : string;
  availableModes : list string
}.

Record SessionModelState : Type := mkModels {
  currentModelId : string;
  availableModels : list string
}.

Record AvailableCommand : Type := mkCommand {
  commandName : string;
  commandDescription : string
}.

Record SessionMetadata : Type := mkMetadata {
  modes : option SessionModeState;
  models : option SessionModelState;
  commands : option (list AvailableCommand)
}.

Record InitializeResponse : Type := mkInitialize {
  protocolVersion : Z
}.

Record NewSessionResponse : Type := mkNewSession {
  sessionId : string;
  responseModes : Nullish SessionModeState;
  responseModels : Nullish SessionModelState
}.

Record PromptResponse : Type := mkPrompt {
  stopReason : string
}.

Inductive SessionUpdate : Type :=
| user_message_chunk (content : string)
| agent_message_chunk (content : string)
| agent_thought_chunk (content : string)
| tool_call (toolCallId title : string)
| tool_call_update (toolCallId status : string)
| plan
| available_commands_update (availableCommands : list AvailableCommand)
| current_mode_update (modeId : string).

(** The discriminator [update.sessionUpdate]. *)
Definition sessionUpdateKind (u : SessionUpdate) : string :=
  match u with
  | user_message_chunk _ => "user_message_chunk"
  | agent_message_chunk _ => "agent_message_chunk"
  | agent_thought_chunk _ => "agent_thought_chunk"
  | tool_call _ _ => "tool_call"
  | tool_call_update _ _ => "tool_call_update"
  | plan => "plan"
  | available_commands_update _ => "available_commands_update"
  | current_mode_update _ => "current_mode_update"
  end.

Record SessionNotification : Type := mkNotification {
  notificationSession : string;
  update : option SessionUpdate
}.

Record PermissionOption : Type := mkOption {
  optionId : string;
  optionName : string;
  kind : string
}.

Record RequestPermissionRequest : Type := mkPermissionRequest {
  requestSession : string;
  options : list PermissionOption
}.

Inductive RequestPermissionOutcome : Type :=
| selected (chosen : string)
| cancelled.

Record RequestPermissionResponse : Type := mkPermissionResponse {
  outcome : RequestPermissionOutcome
}.

(** [AgentConfig] of [./agents]. *)
Record AgentConfig : Type := mkAgent {
  id : string;
  name : string;
  command : string;
  args : list string
}.

(** Handles: a process is known by the order in which it was
    spawned, and a protocol connection by the process it talks to. *)
Definition ChildProcess := nat.
Definition ClientSideConnection := nat.

(** A registered callback: its identity (a [Set] holds a function at
    most once) and what a call of it does: return, or raise.
    Callbacks do not call back into the client. *)
Record Listener (A : Type) : Type := mkListener {
  lid : nat;
  react : A -> option JsValue
}.

Abbreviation StateChangeCallback := (Listener ACPConnectionState).
Abbreviation SessionUpdateCallback := (Listener SessionNotification).
Abbreviation StderrCallback := (Listener string).

(** The fields of [ACPClient]. [spawnFn] is the environment's. *)
Record ACPClient : Type := mkClient {
  process : option ChildProcess;
  connection : option ClientSideConnection;
  state : ACPConnectionState;
  currentSessionId : option string;
  sessionMetadata : option SessionMetadata;
  pendingCommands : option (list AvailableCommand);
  stateChangeListeners : list StateChangeCallback;
  sessionUpdateListeners : list SessionUpdateCallback;
  stderrListeners : list StderrCallback;
  agentConfig : AgentConfig;
  skipAvailabilityCheck : bool
}.

(** What the outside sees happen, in order: callbacks invoked with
    their argument, and processes killed. *)
Inductive Observation : Type :=
| heard_state (listener : nat) (s : ACPConnectionState)
| heard_update (listener : nat) (n : SessionNotification)
| heard_stderr (listener : nat) (text : string)
| killed (p : ChildProcess).

(** An [async] method that stopped at its [await]. *)
Inductive Suspended : Type :=
| awaiting_initialize (p : ChildProcess)
| awaiting_newSession
| awaiting_setSessionMode (modeId : string)
| awaiting_setSessionModel (modelId : string)
| awaiting_prompt
| awaiting_cancel.

(** The client together with the logger, the observations so far
    and the run time's book-keeping: the number of processes spawned
    (the next handle), the processes that have not exited, and the
    suspended calls. *)
Record World : Type := mkWorld {
  this : ACPClient;
  logger : Logger;
  trace : list Observation;
  spawned : nat;
  running : list ChildProcess;
  suspended : list Suspended
}.

(** ** Field updates *)

Definition set_process v (c : ACPClient) : ACPClient :=
  mkClient v (connection c) (state c) (currentSessionId c) (sessionMetadata c)
    (pendingCommands c) (stateChangeListeners c) (sessionUpdateListeners c)
    (stderrListeners c) (agentConfig c) (skipAvailabilityCheck c).

Definition set_connection v (c : ACPClient) : ACPClient :=
  mkClient (process c) v (state c) (currentSessionId c) (sessionMetadata c)
    (pendingCommands c) (stateChangeListeners c) (sessionUpdateListeners c)
    (stderrListeners c) (agentConfig c) (skipAvailabilityCheck c).

Definition set_state v (c : ACPClient) : ACPClient :=
  mkClient (process c) (connection c) v (currentSessionId c) (sessionMetadata c)
    (pendingCommands c) (stateChangeListeners c) (sessionUpdateListeners c)
    (stderrListeners c) (agentConfig c) (skipAvailabilityCheck c).

Definition set_currentSessionId v (c : ACPClient) : ACPClient :=
  mkClient (process c) (connection c) (state c) v (sessionMetadata c)
    (pendingCommands c) (stateChangeListeners c) (sessionUpdateListeners c)
    (stderrListeners c) (agentConfig c) (skipAvailabilityCheck c).

Definition set_sessionMetadata v (c : ACPClient) : ACPClient :=
  mkClient (process c) (connection c) (state c) (currentSessionId c) v
    (pendingCommands c) (stateChangeListeners c) (sessionUpdateListeners c)
    (stderrListeners c) (agentConfig c) (skipAvailabilityCheck c).

Definition set_pendingCommands v (c : ACPClient) : ACPClient :=
  mkClient (process c) (connection c) (state c) (currentSessionId c)
    (sessionMetadata c) v (stateChangeListeners c) (sessionUpdateListeners c)
    (stderrListeners c) (agentConfig c) (skipAvailabilityCheck c).

Definition set_stateChangeListeners v (c : ACPClient) : ACPClient :=
  mkClient (process c) (connection c) (state c) (currentSessionId c)
    (sessionMetadata c) (pendingCommands c) v (sessionUpdateListeners c)
    (stderrListeners c) (agentConfig c) (skipAvailabilityCheck c).

Definition set_sessionUpdateListeners v (c : ACPClient) : ACPClient :=
  mkClient (process c) (connection c) (state c) (currentSessionId c)
    (sessionMetadata c) (pendingCommands c) (stateChangeListeners c) v
    (stderrListeners c) (agentConfig c) (skipAvailabilityCheck c).

Definition set_stderrListeners v (c : ACPClient) : ACPClient :=
  mkClient (process c) (connection c) (state c) (currentSessionId c)
    (sessionMetadata c) (pendingCommands c) (stateChangeListeners c)
    (sessionUpdateListeners c) v (agentConfig c) (skipAvailabilityCheck c).

Definition set_agentConfig v (c : ACPClient) : ACPClient :=
  mkClient (process c) (connection c) (state c) (currentSessionId c)
    (sessionMetadata c) (pendingCommands c) (stateChangeListeners c)
    (sessionUpdateListeners c) (stderrListeners c) v (skipAvailabilityCheck c).

Definition on_this (f : ACPClient -> ACPClient) (w : World) : World :=
  mkWorld (f (this w)) (logger w) (trace w) (spawned w) (running w) (suspended w).

Definition on_logger (f : Logger -> Logger) (w : World) : World :=
  mkWorld (this w) (f (logger w)) (trace w) (spawned w) (running w) (suspended w).

Definition observe (o : Observation) (w : World) : World :=
  mkWorld (this w) (logger w) (trace w ++ [o])%list (spawned w) (running w)
    (suspended w).

Definition set_running (r : list ChildProcess) (w : World) : World :=
  mkWorld (this w) (logger w) (trace w) (spawned w) r (suspended w).

Definition set_suspended (q : list Suspended) (w : World) : World :=
  mkWorld (this w) (logger w) (trace w) (spawned w) (running w) q.

Definition spawn_one (w : World) : World :=
  mkWorld (this w) (logger w) (trace w) (S (spawned w))
    (running w ++ [spawned w])%list (suspended w).

(** ** Computations that read and write the world and may throw *)

Definition M (A : Type) : Type := World -> Outcome A * World.

Definition ret (A : Type) (a : A) : M A := fun w => (Returned a, w).

Definition bind (A B : Type) (m : M A) (f : A -> M B) : M B :=
  fun w =>
    match m w with
    | (Returned a, w') => f a w'
    | (Thrown e, w') => (Thrown e, w')
    end.

Definition throw (A : Type) (e : JsValue) : M A := fun w => (Thrown e, w).
Arguments throw {A} e.

(** [try { m } catch (e) { h e }] *)
Definition try_catch (A : Type) (m : M A) (h : JsValue -> M A) : M A :=
  fun w =>
    match m w with
    | (Returned a, w') => (Returned a, w')
    | (Thrown e, w') => h e w'
    end.

Definition gets (A : Type) (f : ACPClient -> A) : M A :=
  fun w => (Returned (f (this w)), w).

Definition assign (f : ACPClient -> ACPClient) : M unit :=
  fun w => (Returned tt, on_this f w).

Definition logging (f : Logger -> Logger) : M unit :=
  fun w => (Returned tt, on_logger f w).

(** [logger.error(msg, err)] *)
Definition logError (msg : string) (err : option JsValue) : M unit :=
  fun w =>
    match Logger.error msg err (logger w) with
    | Returned g => (Returned tt, on_logger (fun _ => g) w)
    | Thrown x => (Thrown x, w)
    end.

Definition observing (o : Observation) : M unit :=
  fun w => (Returned tt, observe o w).

Declare Scope js_scope.
Delimit Scope js_scope with js.
Notation "x <- m ;; f" := (bind m (fun x => f))
  (at level 61, m at next level, right associativity) : js_scope.
Notation "m ;; f" := (bind m (fun _ => f))
  (at level 61, right associativity) : js_scope.
Local Open Scope js_scope.

(** ** The callback sets *)

Definition has (A : Type) (i : nat) (ls : list (Listener A)) : bool :=
  existsb (fun l => Nat.eqb (lid l) i) ls.

(** [Set.prototype.add]: insertion order, no second copy. *)
Definition add (A : Type) (l : Listener A) (ls : list (Listener A)) :=
  if has (lid l) ls then ls else (ls ++ [l])%list.

(** [Set.prototype.delete] *)
Definition delete (A : Type) (i : nat) (ls : list (Listener A)) :=
  filter (fun l => negb (Nat.eqb (lid l) i)) ls.

(** [set.forEach((cb) => cb(a))]: the callbacks are called in
    insertion order; the first one that raises ends the loop. *)
Fixpoint forEach (A : Type) (ls : list (Listener A))
         (heard : nat -> A -> Observation) (a : A) : M unit :=
  match ls with
  | [] => ret tt
  | l :: rest =>
      observing (heard (lid l) a) ;;
      match react l a with
      | Some e => throw e
      | None => forEach rest heard a
      end
  end.

(** ** The methods of [ACPClient] *)

Definition create (config : AgentConfig) (skip : bool) : ACPClient :=
  mkClient None None disconnected None None None [] [] [] config skip.

Definition setState (s : ACPConnectionState) : M unit :=
  current <- gets state ;;
  if state_eqb current s then ret tt
  else
    assign (set_state s) ;;
    listeners <- gets stateChangeListeners ;;
    forEach listeners heard_state s.

Definition dispose : M unit :=
  p <- gets process ;;
  match p with
  | Some proc => observing (killed proc) ;; assign (set_process None)
  | None => ret tt
  end ;;
  assign (set_connection None) ;;
  assign (set_currentSessionId None) ;;
  assign (set_sessionMetadata None) ;;
  assign (set_pendingCommands None) ;;
  setState disconnected.

Definition setAgent (config : AgentConfig) : M unit :=
  current <- gets state ;;
  (if state_eqb current disconnected then ret tt else dispose) ;;
  assign (set_agentConfig config).

Definition getAgentId (c : ACPClient) : string := id (agentConfig c).

Definition setOnStateChange (callback : StateChangeCallback) : M unit :=
  assign (fun c => set_stateChangeListeners (add callback (stateChangeListeners c)) c).

Definition unsubscribeStateChange (i : nat) : M unit :=
  assign (fun c => set_stateChangeListeners (delete i (stateChangeListeners c)) c).

Definition setOnSessionUpdate (callback : SessionUpdateCallback) : M unit :=
  assign (fun c => set_sessionUpdateListeners (add callback (sessionUpdateListeners c)) c).

Definition unsubscribeSessionUpdate (i : nat) : M unit :=
  assign (fun c => set_sessionUpdateListeners (delete i (sessionUpdateListeners c)) c).

Definition setOnStderr (callback : StderrCallback) : M unit :=
  assign (fun c => set_stderrListeners (add callback (stderrListeners c)) c).

Definition unsubscribeStderr (i : nat) : M unit :=
  assign (fun c => set_stderrListeners (delete i (stderrListeners c)) c).

Definition isConnected (c : ACPClient) : bool := state_eqb (state c) connected.

Definition getState (c : ACPClient) : ACPConnectionState := state c.

Definition getSessionMetadata (c : ACPClient) : option SessionMetadata :=
  sessionMetadata c.

(** *** [connect] *)

Definition quote : string := String (ascii_of_nat 34) EmptyString.

Definition AlreadyActive : JsValue :=
  an_Error (newError "Already connected or connecting").

Definition AgentUnavailable (config : AgentConfig) : JsValue :=
  an_Error
    (newError ("Agent " ++ quote ++ name config ++ quote ++ " is not installed. "
               ++ "Please install " ++ quote ++ command config ++ quote
               ++ " and try again.")).

(** What [this.spawnFn(...)] does: raise, or hand back a process. *)
Inductive SpawnResult : Type :=
| spawn_throws (e : JsValue)
| spawn_returns.

(** A new process: its handle, with the three handlers of [connect]
    attached to it from now on. *)
Definition spawnFn : M ChildProcess :=
  fun w => (Returned (spawned w), spawn_one w).

Definition suspend (s : Suspended) : M unit :=
  fun w => (Returned tt, set_suspended (suspended w ++ [s])%list w).

(** [connect], up to its [await]. [available] is what
    [isAgentAvailable(this.agentConfig.id)] answers. *)
Definition connect_call (available : bool) (sp : SpawnResult) : M unit :=
  current <- gets state ;;
  if state_eqb current connected || state_eqb current connecting
  then throw AlreadyActive
  else
    skip <- gets skipAvailabilityCheck ;;
    config <- gets agentConfig ;;
    if negb skip && negb available
    then throw (AgentUnavailable config)
    else
      setState connecting ;;
      try_catch
        (match sp with
         | spawn_throws e => throw e
         | spawn_returns =>
             p <- spawnFn ;;
             assign (set_process (Some p)) ;;
             assign (set_connection (Some p)) ;;
             suspend (awaiting_initialize p)
         end)
        (fun e => setState error ;; throw e).

(** [connect], from its [await] on: the race was won by the
    handshake's answer, or lost to a rejection. *)
Definition connect_resume (r : JsValue + InitializeResponse)
  : M InitializeResponse :=
  try_catch
    (match r with
     | inr initResponse => setState connected ;; ret initResponse
     | inl e => throw e
     end)
    (fun e => setState error ;; throw e).

(** *** The handlers attached to the process *)

Definition on_stderr_data (text : string) : M unit :=
  logError ("[Agent stderr] " ++ text) None ;;
  listeners <- gets stderrListeners ;;
  forEach listeners heard_stderr text.

(** The [error] event of a process hands its listeners an [Error]
    object. *)
Definition on_process_error (err : JsError) : M unit :=
  logError "Process error" (Some (an_Error err)) ;;
  setState error.

(** The rejection of [spawnErrorPromise]. *)
Definition spawnError (err : JsError) : JsValue :=
  an_Error (newError ("Failed to start agent process: " ++ message err)).

Definition show_code (code : option Z) : string :=
  match code with
  | Some z => NilZero.string_of_int (Z.to_int z)
  | None => "null"
  end.

Definition on_process_exit (code : option Z) : M unit :=
  logging (info ("Process exited with code: " ++ show_code code)) ;;
  setState disconnected ;;
  assign (set_connection None) ;;
  assign (set_process None).

(** *** The callbacks handed to the protocol connection *)

Definition is_allow (opt : PermissionOption) : bool :=
  String.eqb (kind opt) "allow_once" || String.eqb (kind opt) "allow_always".

Definition requestPermission (params : RequestPermissionRequest)
  : M RequestPermissionResponse :=
  logging (info "Permission request") ;;
  match find is_allow (options params) with
  | Some allowOption =>
      logging (info ("Auto-approving with option: " ++ optionId allowOption)) ;;
      ret (mkPermissionResponse (selected (optionId allowOption)))
  | None =>
      logging (warn "No allow option found, cancelling") ;;
      ret (mkPermissionResponse cancelled)
  end.

Definition show_nat (n : nat) : string := NilZero.string_of_uint (Nat.to_uint n).

Definition set_commands (cmds : list AvailableCommand) (m : SessionMetadata) :=
  mkMetadata (modes m) (models m) (Some cmds).

Definition sessionUpdate (params : SessionNotification) : M unit :=
  let updateType :=
    match update params with
    | Some u => sessionUpdateKind u
    | None => "unknown"
    end in
  logging (debug ("Session update: " ++ updateType)) ;;
  (if String.eqb updateType "agent_message_chunk"
   then logging (debug "Chunk received") else ret tt) ;;
  match update params with
  | Some (available_commands_update availableCommands) =>
      metadata <- gets sessionMetadata ;;
      match metadata with
      | Some m => assign (set_sessionMetadata (Some (set_commands availableCommands m)))
      | None => assign (set_pendingCommands (Some availableCommands))
      end ;;
      logging (info ("Commands updated: "
                     ++ show_nat (List.length availableCommands)))
  | _ => ret tt
  end ;;
  try_catch
    (listeners <- gets sessionUpdateListeners ;;
     forEach listeners heard_update params)
    (fun e => logError "Error in session update listener" (Some e)).

(** *** The session methods *)

Definition NotConnected : JsValue := an_Error (newError "Not connected").
Definition NoActiveSession : JsValue := an_Error (newError "No active session").

Definition newSession_call (workingDirectory : string) : M unit :=
  conn <- gets connection ;;
  match conn with
  | None => throw NotConnected
  | Some _ => suspend awaiting_newSession
  end.

Definition newSession_resume (r : JsValue + NewSessionResponse)
  : M NewSessionResponse :=
  match r with
  | inl e => throw e
  | inr response =>
      assign (set_currentSessionId (Some (sessionId response))) ;;
      pending <- gets pendingCommands ;;
      assign (set_sessionMetadata
                (Some (mkMetadata (orNull (responseModes response))
                                  (orNull (responseModels response))
                                  pending))) ;;
      assign (set_pendingCommands None) ;;
      ret response
  end.

(** [!this.connection || !this.currentSessionId]: the empty string
    is as good as no identifier. *)
Definition no_active_session (c : ACPClient) : bool :=
  match connection c, currentSessionId c with
  | Some _, Some sid => String.eqb sid EmptyString
  | _, _ => true
  end.

Definition setMode_call (modeId : string) : M unit :=
  c <- gets (fun c => c) ;;
  if no_active_session c then throw NoActiveSession
  else suspend (awaiting_setSessionMode modeId).

Definition set_currentModeId (modeId : string) (m : SessionMetadata) :=
  match modes m with
  | Some ms =>
      mkMetadata (Some (mkModes modeId (availableModes ms))) (models m) (commands m)
  | None => m
  end.

Definition setMode_resume (modeId : string) (r : JsValue + unit) : M unit :=
  match r with
  | inl e => throw e
  | inr _ =>
      metadata <- gets sessionMetadata ;;
      match metadata with
      | Some m => assign (set_sessionMetadata (Some (set_currentModeId modeId m)))
      | None => ret tt
      end
  end.

Definition setModel_call (modelId : string) : M unit :=
  c <- gets (fun c => c) ;;
  if no_active_session c then throw NoActiveSession
  else suspend (awaiting_setSessionModel modelId).

Definition set_currentModelId (modelId : string) (m : SessionMetadata) :=
  match models m with
  | Some ms =>
      mkMetadata (modes m) (Some (mkModels modelId (availableModels ms))) (commands m)
  | None => m
  end.

Definition setModel_resume (modelId : string) (r : JsValue + unit) : M unit :=
  match r with
  | inl e => throw e
  | inr _ =>
      metadata <- gets sessionMetadata ;;
      match metadata with
      | Some m => assign (set_sessionMetadata (Some (set_currentModelId modelId m)))
      | None => ret tt
      end
  end.

Definition sendMessage_call (message : string) : M unit :=
  c <- gets (fun c => c) ;;
  if no_active_session c then throw NoActiveSession
  else suspend awaiting_prompt.

Definition sendMessage_resume (r : JsValue + PromptResponse) : M PromptResponse :=
  match r with
  | inr response => logging (debug "Prompt completed") ;; ret response
  | inl e => logError "Prompt error" (Some e) ;; throw e
  end.

Definition cancel_call : M unit :=
  c <- gets (fun c => c) ;;
  if no_active_session c then ret tt
  else suspend awaiting_cancel.

Definition cancel_resume (r : JsValue + unit) : M unit :=
  match r with
  | inl e => throw e
  | inr _ => ret tt
  end.

(** ** The client in its environment *)

(** How an awaited request ends. *)
Inductive Reply : Type :=
| rejected (e : JsValue)
| initialized (r : InitializeResponse)
| session_created (r : NewSessionResponse)
| acknowledged
| prompt_answered (r : PromptResponse).

(** What can happen to a client: a caller invokes a method, an
    awaited request is answered, the process emits an event, or the
    agent calls back through the protocol connection. *)
Inductive Event : Type :=
| ev_setAgent (config : AgentConfig)
| ev_setOnStateChange (callback : StateChangeCallback)
| ev_unsubscribeStateChange (i : nat)
| ev_setOnSessionUpdate (callback : SessionUpdateCallback)
| ev_unsubscribeSessionUpdate (i : nat)
| ev_setOnStderr (callback : StderrCallback)
| ev_unsubscribeStderr (i : nat)
| ev_connect (available : bool) (sp : SpawnResult)
| ev_newSession (workingDirectory : string)
| ev_setMode (modeId : string)
| ev_setModel (modelId : string)
| ev_sendMessage (message : string)
| ev_cancel
| ev_dispose
| ev_settle (i : nat) (r : Reply)
| ev_stderr (p : ChildProcess) (text : string)
| ev_process_error (p : ChildProcess) (err : JsError)
| ev_exit (p : ChildProcess) (code : option Z)
| ev_requestPermission (params : RequestPermissionRequest)
| ev_sessionUpdate (params : SessionNotification).

(** The world a computation leaves behind, whether it returned or
    threw. *)
Definition after (A : Type) (m : M A) (w : World) : World := snd (m w).

Definition remove_nth (A : Type) (i : nat) (l : list A) : list A :=
  (firstn i l ++ skipn (S i) l)%list.

Definition suspended_eqb (a b : Suspended) : bool :=
  match a, b with
  | awaiting_initialize p, awaiting_initialize q => Nat.eqb p q
  | awaiting_newSession, awaiting_newSession => true
  | awaiting_setSessionMode m, awaiting_setSessionMode n => String.eqb m n
  | awaiting_setSessionModel m, awaiting_setSessionModel n => String.eqb m n
  | awaiting_prompt, awaiting_prompt => true
  | awaiting_cancel, awaiting_cancel => true
  | _, _ => false
  end.

Fixpoint position (s : Suspended) (l : list Suspended) : option nat :=
  match l with
  | [] => None
  | x :: rest =>
      if suspended_eqb x s then Some 0
      else option_map S (position s rest)
  end.

(** The rest of a suspended call, given the answer it waited for. *)
Definition resume (s : Suspended) (r : Reply) : option (World -> World) :=
  match s, r with
  | awaiting_initialize _, rejected e => Some (after (connect_resume (inl e)))
  | awaiting_initialize _, initialized resp =>
      Some (after (connect_resume (inr resp)))
  | awaiting_newSession, rejected e => Some (after (newSession_resume (inl e)))
  | awaiting_newSession, session_created resp =>
      Some (after (newSession_resume (inr resp)))
  | awaiting_setSessionMode m, rejected e => Some (after (setMode_resume m (inl e)))
  | awaiting_setSessionMode m, acknowledged =>
      Some (after (setMode_resume m (inr tt)))
  | awaiting_setSessionModel m, rejected e =>
      Some (after (setModel_resume m (inl e)))
  | awaiting_setSessionModel m, acknowledged =>
      Some (after (setModel_resume m (inr tt)))
  | awaiting_prompt, rejected e => Some (after (sendMessage_resume (inl e)))
  | awaiting_prompt, prompt_answered resp =>
      Some (after (sendMessage_resume (inr resp)))
  | awaiting_cancel, rejected e => Some (after (cancel_resume (inl e)))
  | awaiting_cancel, acknowledged => Some (after (cancel_resume (inr tt)))
  | _, _ => None
  end.

Definition is_running (p : ChildProcess) (w : World) : bool :=
  existsb (Nat.eqb p) (running w).

(** The [error] event of process [p]: the handler of [connect] runs,
    and then the one-time listener rejects [spawnErrorPromise], which
    ends the [connect] that still waits on this process. A handler
    that throws keeps the later listener from running. *)
Definition process_error (p : ChildProcess) (err : JsError) (w : World) : World :=
  match on_process_error err w with
  | (Returned _, w1) =>
      match position (awaiting_initialize p) (suspended w1) with
      | Some i =>
          after (connect_resume (inl (spawnError err)))
                (set_suspended (remove_nth i (suspended w1)) w1)
      | None => w1
      end
  | (Thrown _, w1) => w1
  end.

(** One event; [None] when the event cannot happen in this world. *)
Definition step (e : Event) (w : World) : option World :=
  match e with
  | ev_setAgent config => Some (after (setAgent config) w)
  | ev_setOnStateChange cb => Some (after (setOnStateChange cb) w)
  | ev_unsubscribeStateChange i => Some (after (unsubscribeStateChange i) w)
  | ev_setOnSessionUpdate cb => Some (after (setOnSessionUpdate cb) w)
  | ev_unsubscribeSessionUpdate i => Some (after (unsubscribeSessionUpdate i) w)
  | ev_setOnStderr cb => Some (after (setOnStderr cb) w)
  | ev_unsubscribeStderr i => Some (after (unsubscribeStderr i) w)
  | ev_connect available sp => Some (after (connect_call available sp) w)
  | ev_newSession cwd => Some (after (newSession_call cwd) w)
  | ev_setMode m => Some (after (setMode_call m) w)
  | ev_setModel m => Some (after (setModel_call m) w)
  | ev_sendMessage text => Some (after (sendMessage_call text) w)
  | ev_cancel => Some (after cancel_call w)
  | ev_dispose => Some (after dispose w)
  | ev_settle i r =>
      match nth_error (suspended w) i with
      | Some s =>
          match resume s r with
          | Some rest => Some (rest (set_suspended (remove_nth i (suspended w)) w))
          | None => None
          end
      | None => None
      end
  | ev_stderr p text =>
      if is_running p w then Some (after (on_stderr_data text) w) else None
  | ev_process_error p err =>
      if is_running p w then Some (process_error p err w) else None
  | ev_exit p code =>
      if is_running p w
      then
        let w1 := after (on_process_exit code) w in
        Some (set_running (filter (fun q => negb (Nat.eqb q p)) (running w1)) w1)
      else None
  | ev_requestPermission params =>
      if Nat.eqb (spawned w) 0 then None
      else Some (after (requestPermission params) w)
  | ev_sessionUpdate params =>
      if Nat.eqb (spawned w) 0 then None
      else Some (after (sessionUpdate params) w)
  end.

Fixpoint run (events : list Event) (w : World) : option World :=
  match events with
  | [] => Some w
  | e :: rest =>
      match step e w with
      | Some w' => run rest w'
      | None => None
      end
  end.

(** [new ACPClient({agentConfig, skipAvailabilityCheck})] and a new
    logger. *)
Definition initial (config : AgentConfig) (skip : bool) : World :=
  mkWorld (create config skip) Logger.create [] 0 [] [].

Definition reachable (w : World) : Prop :=
  exists config skip events, run events (initial config skip) = Some w.

(** What listener [i] was told about the state, in order. *)
Fixpoint states_heard (i : nat) (t : list Observation) : list ACPConnectionState :=
  match t with
  | [] => []
  | heard_state j s :: rest =>
      if Nat.eqb i j then s :: states_heard i rest else states_heard i rest
  | _ :: rest => states_heard i rest
  end.

(** The notifications listener [i] was handed, in order. *)
Fixpoint updates_heard (i : nat) (t : list Observation) : list SessionNotification :=
  match t with
  | [] => []
  | heard_update j n :: rest =>
      if Nat.eqb i j then n :: updates_heard i rest else updates_heard i rest
  | _ :: rest => updates_heard i rest
  end.

(** A callback that never raises. *)
Definition quiet (A : Type) (l : Listener A) : Prop :=
  forall a, react l a = None.

End Client.

(* ================================================================== *)
(** * Vocabulary of the properties *)
(* ================================================================== *)

Module Spec.
Import Logger Client.
Local Open Scope string_scope.

(** The callbacks of [ls] that a [forEach] over [ls] reaches: all of
    them up to and including the first that raises on [a]. *)
Fixpoint reached (A : Type) (ls : list (Listener A)) (a : A) : list nat :=
  match ls with
  | [] => []
  | l :: rest =>
      lid l :: match react l a with
               | Some _ => []
               | None => reached rest a
               end
  end.

(** The error that ends a [forEach] over [ls], if any. *)
Fixpoint raised (A : Type) (ls : list (Listener A)) (a : A) : option JsValue :=
  match ls with
  | [] => None
  | l :: rest =>
      match react l a with
      | Some e => Some e
      | None => raised rest a
      end
  end.

(** The lines of the log that are tagged as errors. *)
Definition errors (g : Logger) : list Line :=
  filter (fun l => String.eqb (tag l) "ERROR") (outputChannel g).

(** The text of the line that [logger.error] writes for the message
    [msg] and a thrown value: behind the message, a line break and the
    stack of an [Error] object, or its message when the stack is
    missing or empty; a line break and the JSON text of a truthy value
    that is no [Error] object; nothing for a falsy value. *)
Inductive printed (msg : string) : JsValue -> string -> Prop :=
| printed_stack e s :
    stack e = Some s -> s <> "" ->
    printed msg (an_Error e) (msg ++ newline ++ s)
| printed_message e :
    stack e = None \/ stack e = Some "" ->
    printed msg (an_Error e) (msg ++ newline ++ message e)
| printed_json t c :
    printed msg (a_value true (json t c)) (msg ++ newline ++ t)
| printed_undefined :
    printed msg (a_value true json_undefined) (msg ++ newline ++ "undefined")
| printed_nothing s : printed msg (a_value false s) msg.

(** A truthy value that is no [Error] object and of which
    [JSON.stringify] throws [x]. *)
Definition unprintable (v : JsValue) (x : JsValue) : Prop :=
  v = a_value true (json_throws x).

Definition add_trace (t : list Observation) (w : World) : World :=
  mkWorld (this w) (logger w) (trace w ++ t)%list (spawned w) (running w)
    (suspended w).

(** The kind of a permission option is a one-time or a standing
    allow. *)
Definition allow_kind (o : PermissionOption) : Prop :=
  kind o = "allow_once" \/ kind o = "allow_always".


(** Every registered session-update subscriber has been handed [n]
    between the worlds [w] and [w']. *)
Definition delivered_to_all (n : SessionNotification) (w w' : World) : Prop :=
  forall l, In l (sessionUpdateListeners (this w)) ->
    exists before later,
      trace w' = (trace w ++ before ++ heard_update (lid l) n :: later)%list.

(** No two neighbours of the list are equal. *)
Fixpoint no_repeat (l : list ACPConnectionState) : Prop :=
  match l with
  | a :: (b :: _) as rest => a <> b /\ no_repeat rest
  | _ => True
  end.

(** From [w] to [w'] nothing of the state machine moved: the state,
    the two handles and the state-change subscribers are the same,
    and no subscriber was told a state. *)
Definition same_machine (w w' : World) : Prop :=
  state (this w') = state (this w)
  /\ process (this w') = process (this w)
  /\ connection (this w') = connection (this w)
  /\ stateChangeListeners (this w') = stateChangeListeners (this w)
  /\ forall i, states_heard i (trace w') = states_heard i (trace w).

(** What [dispose] clears. *)
Definition cleared (c : ACPClient) : ACPClient :=
  set_pendingCommands None
    (set_sessionMetadata None
       (set_currentSessionId None
          (set_connection None (set_process None c)))).

(** A session handle comes with a process handle. *)
Definition connection_has_process (c : ACPClient) : Prop :=
  connection c <> None -> process c <> None.

(** A disconnected client holds no handle. *)
Definition disconnected_is_bare (c : ACPClient) : Prop :=
  state c = disconnected -> process c = None /\ connection c = None.

(** What the state-change subscriber [i] has been told so far. *)
Definition told (i : nat) (w : World) : list ACPConnectionState :=
  states_heard i (trace w).

(** Between [w] and [w'] every state-change subscriber of [w] was told
    exactly the states [ss], in this order. *)
Definition announces (w w' : World) (ss : list ACPConnectionState) : Prop :=
  forall l, In l (stateChangeListeners (this w)) ->
    told (lid l) w' = (told (lid l) w ++ ss)%list.

(** The list is empty or ends with [s]. *)
Definition ends_with (l : list ACPConnectionState) (s : ACPConnectionState) : Prop :=
  l = [] \/ exists l', l = (l' ++ [s])%list.

(** The state-change subscribers are [ls]; nobody was told the same
    state twice in a row, and what a subscriber was told last is the
    current state. *)
Definition in_step (ls : list StateChangeCallback) (w : World) : Prop :=
  stateChangeListeners (this w) = ls
  /\ forall i, no_repeat (told i w)
               /\ (has i ls = true -> ends_with (told i w) (state (this w))).

(** The invariant the specification states for the connection. *)
Definition handles_follow_state (c : ACPClient) : Prop :=
  (connection c <> None -> state c = connected)
  /\ (process c = None <-> state c = disconnected).

(** The calls that register the state-change subscribers [ls]. *)
Definition subscribe (ls : list StateChangeCallback) : list Event :=
  map ev_setOnStateChange ls.

(** Events that leave the set of state-change subscribers alone. *)
Definition keeps_subscribers (e : Event) : bool :=
  match e with
  | ev_setOnStateChange _ | ev_unsubscribeStateChange _ => false
  | _ => true
  end.

(** Events that move neither the state machine nor the identity of
    the session: calls that only suspend, answers to them other than
    the handshake's and a created session, diagnostic text, and the
    agent's callbacks. *)
Definition plain (e : Event) (w : World) : bool :=
  match e with
  | ev_newSession _ | ev_setMode _ | ev_setModel _ | ev_sendMessage _
  | ev_cancel | ev_stderr _ _ | ev_requestPermission _ | ev_sessionUpdate _
  | ev_setOnSessionUpdate _ | ev_unsubscribeSessionUpdate _
  | ev_setOnStderr _ | ev_unsubscribeStderr _ => true
  | ev_settle i r =>
      match nth_error (suspended w) i, r with
      | Some (awaiting_initialize _), _ => false
      | Some awaiting_newSession, session_created _ => false
      | _, _ => true
      end
  | _ => false
  end.

(** Events that move the state machine and leave the session alone:
    [connect], the end of the handshake, and what the process emits. *)
Definition machine (e : Event) (w : World) : bool :=
  match e with
  | ev_connect _ _ | ev_process_error _ _ | ev_exit _ _ => true
  | ev_settle i r =>
      match nth_error (suspended w) i with
      | Some (awaiting_initialize _) => true
      | _ => false
      end
  | _ => false
  end.

(** From [w] to [w'] the session has not been reset: the identifier
    is the same, and neither the metadata nor the pending commands
    went back to [null]. *)
Definition session_kept (w w' : World) : Prop :=
  currentSessionId (this w') = currentSessionId (this w)
  /\ (sessionMetadata (this w) <> None -> sessionMetadata (this w') <> None)
  /\ (pendingCommands (this w) <> None -> pendingCommands (this w') <> None).

(** The step is one in which [dispose] runs or a [newSession]
    completes. *)
Definition resets_session (e : Event) (w : World) : Prop :=
  e = ev_dispose
  \/ (exists config, e = ev_setAgent config /\ state (this w) <> disconnected)
  \/ (exists i resp, e = ev_settle i (session_created resp)
                     /\ nth_error (suspended w) i = Some awaiting_newSession).

(** The computation [m] keeps the property [I] of the world, whether
    it returns or throws. *)
Definition preserves (I : World -> Prop) (A : Type) (m : M A) : Prop :=
  forall w, I w -> I (snd (m w)).
Arguments preserves I A m : clear implicits.

(** What [sessionUpdate] does to the client. *)
Definition reconcile (n : SessionNotification) (c : ACPClient) : ACPClient :=
  match update n with
  | Some (available_commands_update cmds) =>
      match sessionMetadata c with
      | Some m => set_sessionMetadata (Some (set_commands cmds m)) c
      | None => set_pendingCommands (Some cmds) c
      end
  | _ => c
  end.

(** Events that do not move the connection state and leave the set
    of state-change subscribers alone: all but [dispose], [setAgent],
    the exit and the error of a process, the answer to a handshake,
    a [connect] that passes its first guard, and the calls that change
    the set of state-change subscribers. *)
Definition leaves_state (e : Event) (w : World) : bool :=
  match e with
  | ev_setAgent _ | ev_dispose | ev_process_error _ _ | ev_exit _ _
  | ev_setOnStateChange _ | ev_unsubscribeStateChange _ => false
  | ev_connect _ _ =>
      state_eqb (state (this w)) connected || state_eqb (state (this w)) connecting
  | ev_settle i _ =>
      match nth_error (suspended w) i with
      | Some (awaiting_initialize _) => false
      | _ => true
      end
  | _ => true
  end.

(** Every event of the run leaves the state, in the world in which
    it happens. *)
Fixpoint calm (events : list Event) (w : World) : bool :=
  match events with
  | [] => true
  | e :: rest =>
      leaves_state e w
      && match step e w with
         | Some w' => calm rest w'
         | None => false
         end
  end.

(** Events that do not write the pending commands: all but
    [dispose], [setAgent], a further notification of the available
    commands, and the answer that creates a session. *)
Definition keeps_pending_commands (e : Event) : bool :=
  match e with
  | ev_dispose | ev_setAgent _ => false
  | ev_sessionUpdate n =>
      match update n with
      | Some (available_commands_update _) => false
      | _ => true
      end
  | ev_settle _ (session_created _) => false
  | _ => true
  end.

(** There is no session, and [cmds] wait in the pending slot. *)
Definition holds_pending (cmds : list AvailableCommand) (w : World) : Prop :=
  sessionMetadata (this w) = None /\ pendingCommands (this w) = Some cmds.

(** The callbacks registered by [e], if it registers one, never
    raise. *)
Definition registers_quiet (e : Event) : Prop :=
  forall cb, e = ev_setOnStateChange cb -> quiet cb.

Definition bare_and_quiet (w : World) : Prop :=
  disconnected_is_bare (this w)
  /\ Forall (@quiet _) (stateChangeListeners (this w)).

End Spec.

(* ================================================================== *)
(** * Concrete clients *)
(* ================================================================== *)

Module Examples.
Import Logger Client.
Local Open Scope string_scope.

Definition agent : AgentConfig := mkAgent "opencode" "OpenCode" "opencode" ["acp"].

(** A new client that skips the availability check. *)
Definition fresh : World := initial agent true.

(** A new client that checks the availability of its agent. *)
Definition checking : World := initial agent false.

(** An [Error] object as a callback throws it, with the stack that
    the run time gave it. *)
Definition boom_error : JsError :=
  mkError "boom" (Some ("Error: boom" ++ newline ++ "    at callback (observer.js:3:9)")).

Definition boom : JsValue := an_Error boom_error.

Definition broken : SessionUpdateCallback := mkListener 1 (fun _ => Some boom).
Definition sound : SessionUpdateCallback := mkListener 2 (fun _ => None).
Definition early : SessionUpdateCallback := mkListener 3 (fun _ => None).

(** A thrown object that holds itself: [JSON.stringify] throws a
    [TypeError] on it. *)
Definition circular : JsValue :=
  a_value true
    (json_throws
       (an_Error (mkError "Converting circular structure to JSON"
                          (Some "TypeError: Converting circular structure to JSON")))).

Definition careless : SessionUpdateCallback := mkListener 4 (fun _ => Some circular).

Definition chunk : SessionNotification :=
  mkNotification "s1" (Some (agent_message_chunk "Hel")).

(** The world in which a run from [start] ends. *)
Definition reach (start : World) (events : list Event) : World :=
  match run events start with
  | Some w => w
  | None => start
  end.

Definition handshake : InitializeResponse := mkInitialize 1.

(** [connect()], up to its [await]. *)
Definition connecting_run : list Event := [ev_connect true spawn_returns].

(** [connect()] and the answer to the handshake. *)
Definition connected_run : list Event :=
  connecting_run ++ [ev_settle 0 (initialized handshake)].

(** Three session-update subscribers, the second of which raises, on
    a connected client. *)
Definition three_subscribers : World :=
  reach fresh ([ev_setOnSessionUpdate early; ev_setOnSessionUpdate broken;
                ev_setOnSessionUpdate sound] ++ connected_run).

(** A subscriber that throws what cannot be logged, after one that
    returns. *)
Definition careless_subscriber : World :=
  reach fresh ([ev_setOnSessionUpdate early; ev_setOnSessionUpdate careless]
                 ++ connected_run).

(** Two session-update subscribers, the first of which raises, on a
    connected client. *)
Definition two_subscribers : World :=
  reach fresh ([ev_setOnSessionUpdate broken; ev_setOnSessionUpdate sound]
                 ++ connected_run).

Definition watcher : StateChangeCallback := mkListener 7 (fun _ => None).

(** A client with one state-change subscriber. *)
Definition watched : World := reach checking [ev_setOnStateChange watcher].

(** A state-change subscriber that raises whatever it is told. *)
Definition grumpy : StateChangeCallback := mkListener 8 (fun _ => Some boom).

(** A client with a subscriber that raises and, after it, one that
    does not. *)
Definition ill_watched : World :=
  reach checking [ev_setOnStateChange grumpy; ev_setOnStateChange watcher].

(** [connect], a [dispose] while it waits, and the answer to the
    handshake. *)
Definition disposed_meanwhile : list Event :=
  [ev_connect true spawn_returns; ev_dispose;
   ev_settle 0 (initialized handshake)].

(** What happens to the client while [connect] waits and the state
    stays: a call that is refused, diagnostic text, a notification. *)
Definition meanwhile : list Event :=
  [ev_newSession "/work"; ev_connect true spawn_returns;
   ev_stderr 0 "starting"; ev_sessionUpdate chunk].

(** A client whose [connect] waits for the handshake. *)
Definition handshaking : World := reach fresh connecting_run.

(** A connected client. *)
Definition online : World := reach fresh connected_run.




Definition plan_and_build : SessionModeState := mkModes "build" ["build"; "plan"].

Definition session_run : list Event :=
  connected_run
    ++ [ev_newSession "/work";
        ev_settle 0 (session_created
                       (mkNewSession "s2" (defined plan_and_build) null))].

(** A connected client with a session that has modes. *)
Definition in_session : World := reach fresh session_run.

Definition help : AvailableCommand := mkCommand "help" "Show help".

Definition commands_update : SessionNotification :=
  mkNotification "s1" (Some (available_commands_update [help])).

(** A connection that was made and whose process then exited. *)
Definition connect_then_exit : list Event :=
  connected_run ++ [ev_exit 0 (Some 0%Z)].

(** [connect()] with a spawn that throws. *)
Definition failed_spawn_run : list Event := [ev_connect true (spawn_throws boom)].

Definition allow : PermissionOption := mkOption "opt-allow" "Allow" "allow_once".
Definition reject : PermissionOption := mkOption "opt-reject" "Reject" "reject_once".

End Examples.

(* ================================================================== *)
(** * Properties of the client *)
(* ================================================================== *)

Unset Implicit Arguments.

Module ClientFacts.
Import Logger Client Spec.
Local Open Scope string_scope.
Local Open Scope js_scope.

#[local] Arguments Logger.error : simpl never.
#[local] Arguments Logger.log : simpl never.
#[local] Arguments String.append : simpl never.

#[local] Arguments logError : simpl never.

Ltac js := unfold bind, gets, assign, logging, observing, ret, throw,
             try_catch, suspend, after in *; simpl in *.

(** The level of an error line is never below the logger's level:
    errors always reach the output channel, and the other lines are
    no error lines. *)
Lemma errors_log l m g :
  errors (log l m g)
  = (errors g ++ match l with Error => [mkLine "ERROR" m] | _ => [] end)%list.
Proof.
  unfold errors, log.
  destruct l, (level g); simpl; rewrite ?app_nil_r; try reflexivity;
    rewrite filter_app; simpl; rewrite ?app_nil_r; reflexivity.
Qed.

Lemma error_printed msg v line g :
  printed msg v line ->
  Logger.error msg (Some v) g = Returned (log Error line g).
Proof.
  intros H. unfold Logger.error. destruct H as [e s E N|e E|t c| |s]; simpl.
  - unfold stackOrMessage. rewrite E. apply String.eqb_neq in N. rewrite N.
    reflexivity.
  - unfold stackOrMessage. destruct E as [-> | ->]; reflexivity.
  - reflexivity.
  - reflexivity.
  - reflexivity.
Qed.

Lemma error_unprintable msg v x g :
  unprintable v x -> Logger.error msg (Some v) g = Thrown x.
Proof. intros ->. reflexivity. Qed.

(** A thrown value is printable or not. *)
Lemma printed_or_unprintable msg v :
  (exists line, printed msg v line) \/ (exists x, unprintable v x).
Proof.
  destruct v as [e|[] [t c| |x]].
  - left. destruct (stack e) as [s|] eqn:E.
    + destruct (String.eqb s "") eqn:N.
      * apply String.eqb_eq in N. subst s. eexists.
        apply printed_message. right. exact E.
      * apply String.eqb_neq in N. eexists.
        apply (@printed_stack msg e s E N).
    + eexists. apply printed_message. left. exact E.
  - left. eexists. constructor.
  - left. eexists. constructor.
  - right. exists x. reflexivity.
  - left. eexists. constructor.
  - left. eexists. constructor.
  - left. eexists. constructor.
Qed.

Lemma logError_printed msg v line w :
  printed msg v line ->
  logError msg (Some v) w = (Returned tt, on_logger (log Error line) w).
Proof.
  intros H. unfold logError. rewrite (error_printed msg v line (logger w) H).
  reflexivity.
Qed.

Lemma logError_unprintable msg v x w :
  unprintable v x -> logError msg (Some v) w = (Thrown x, w).
Proof. intros ->. reflexivity. Qed.

Lemma logError_of_Error msg e w :
  logError msg (Some (an_Error e)) w
  = (Returned tt, on_logger (log Error (msg ++ newline ++ stackOrMessage e)) w).
Proof. reflexivity. Qed.

Lemma logError_alone msg w :
  logError msg None w = (Returned tt, on_logger (log Error msg) w).
Proof. reflexivity. Qed.

Lemma state_eqb_eq a b : state_eqb a b = true <-> a = b.
Proof. destruct a, b; simpl; split; intros H; congruence. Qed.

Lemma state_eqb_refl a : state_eqb a a = true.
Proof. destruct a; reflexivity. Qed.

Lemma state_eqb_neq a b : state_eqb a b = false <-> a <> b.
Proof. destruct a, b; simpl; split; intros H; congruence. Qed.

(** The end of a run of a new client is a reachable world. *)
Lemma reach_reachable config skip events :
  run events (initial config skip) <> None ->
  reachable (Examples.reach (initial config skip) events).
Proof.
  intros H. exists config, skip, events. unfold Examples.reach.
  destruct (run events (initial config skip)); [reflexivity | contradiction].
Qed.

(** A run that can happen ends in the world that [reach] gives. *)
Lemma reach_run events w :
  match run events w with Some _ => true | None => false end = true ->
  run events w = Some (Examples.reach w events).
Proof.
  intros H. unfold Examples.reach.
  destruct (run events w); [reflexivity | discriminate H].
Qed.

(** A [forEach] calls the callbacks it reaches, in order, changes
    nothing else, and ends with the first error raised. *)
Lemma forEach_spec (A : Type) (ls : list (Listener A)) heard (a : A) w :
  forEach ls heard a w =
    (match raised ls a with Some e => Thrown e | None => Returned tt end,
     add_trace (map (fun i => heard i a) (reached ls a)) w).
Proof.
  revert w. induction ls as [|l rest IH]; intros w; simpl.
  - unfold ret, add_trace. rewrite app_nil_r. destruct w; reflexivity.
  - js. destruct (react l a) as [e|].
    + unfold add_trace, observe. reflexivity.
    + rewrite IH. unfold add_trace, observe. simpl.
      rewrite <- app_assoc. reflexivity.
Qed.

Lemma raised_quiet (A : Type) (ls : list (Listener A)) (a : A) :
  Forall (fun l => react l a = None) ls -> raised ls a = None.
Proof.
  induction 1 as [|l rest Hl _ IH]; simpl; [reflexivity|].
  rewrite Hl. exact IH.
Qed.

Lemma reached_quiet (A : Type) (ls : list (Listener A)) (a : A) :
  Forall (fun l => react l a = None) ls -> reached ls a = map (@lid A) ls.
Proof.
  induction 1 as [|l rest Hl _ IH]; simpl; [reflexivity|].
  rewrite Hl, IH. reflexivity.
Qed.

Lemma reached_until (A : Type) (before later : list (Listener A)) bad (a : A) e :
  Forall (fun l => react l a = None) before -> react bad a = Some e ->
  reached (before ++ bad :: later) a = (map (@lid A) before ++ [lid bad])%list
  /\ raised (before ++ bad :: later) a = Some e.
Proof.
  intros Hq Hbad. induction Hq as [|l rest Hl _ IH]; simpl.
  - rewrite Hbad. split; reflexivity.
  - rewrite Hl. destruct IH as [-> ->]. split; reflexivity.
Qed.

(** [setState]: nothing happens when the value is the current one;
    otherwise the field is written and the callbacks are called. *)
Lemma setState_spec s w :
  setState s w =
    if state_eqb (state (this w)) s then (Returned tt, w)
    else
      (match raised (stateChangeListeners (this w)) s with
       | Some e => Thrown e
       | None => Returned tt
       end,
       add_trace (map (fun i => heard_state i s)
                      (reached (stateChangeListeners (this w)) s))
                 (on_this (set_state s) w)).
Proof.
  unfold setState. js. destruct (state_eqb (state (this w)) s); [reflexivity|].
  rewrite forEach_spec. reflexivity.
Qed.

(** ** [connect] while the client is already active *)

Lemma connect_call_active w available sp :
  state (this w) = connecting \/ state (this w) = connected ->
  connect_call available sp w = (Thrown AlreadyActive, w).
Proof.
  intros H. unfold connect_call. js.
  destruct H as [-> | ->]; reflexivity.
Qed.

(** C6. A [connect()] invoked while the state is [connecting] or
    [connected] fails with the AlreadyActive error and leaves the
    whole world as it was: no state transition, no callback invoked;
    and so does every sequence of such calls. *)
Theorem connect_while_active_is_rejected w available sp :
  state (this w) = connecting \/ state (this w) = connected ->
  connect_call available sp w = (Thrown AlreadyActive, w)
  /\ state (this (after (connect_call available sp) w)) = state (this w)
  /\ trace (after (connect_call available sp) w) = trace w
  /\ forall calls : list (bool * SpawnResult),
       run (map (fun c => ev_connect (fst c) (snd c)) calls) w = Some w.
Proof.
  intros H. pose proof (connect_call_active w available sp H) as E.
  unfold after. rewrite E. simpl. repeat split.
  induction calls as [|[a s] rest IH]; simpl; [reflexivity|].
  unfold after. rewrite (connect_call_active w a s H). simpl. exact IH.
Qed.

(** ** The permission auto-resolver *)

Lemma is_allow_iff o : is_allow o = true <-> allow_kind o.
Proof.
  unfold is_allow, allow_kind. rewrite orb_true_iff, !String.eqb_eq. tauto.
Qed.

Lemma find_first_allow pre o post :
  Forall (fun x => ~ allow_kind x) pre -> allow_kind o ->
  find is_allow (pre ++ o :: post) = Some o.
Proof.
  intros Hpre Ho. induction Hpre as [|x rest Hx _ IH]; simpl.
  - apply is_allow_iff in Ho. rewrite Ho. reflexivity.
  - destruct (is_allow x) eqn:E; [|exact IH].
    apply is_allow_iff in E. contradiction.
Qed.

Lemma find_no_allow l :
  (forall o, In o l -> ~ allow_kind o) -> find is_allow l = None.
Proof.
  intros H. destruct (find is_allow l) as [o|] eqn:E; [|reflexivity].
  apply find_some in E. destruct E as [Hin Ha].
  apply is_allow_iff in Ha. exfalso. exact (H o Hin Ha).
Qed.

Lemma requestPermission_result params w :
  fst (requestPermission params w) =
    Returned (mkPermissionResponse
                match find is_allow (options params) with
                | Some o => selected (optionId o)
                | None => cancelled
                end)
  /\ this (after (requestPermission params) w) = this w
  /\ trace (after (requestPermission params) w) = trace w.
Proof.
  unfold requestPermission. js.
  destruct (find is_allow (options params)); simpl; repeat split.
Qed.

(** C9. The auto-resolver answers a permission request with the
    first option of the list whose kind is [allow_once] or
    [allow_always], selected; with a cancelled outcome when the list
    has no such option; and with nothing else.  It always returns,
    and touches neither the client nor its subscribers. *)
Theorem permission_auto_resolver params w :
  (forall pre o post,
      options params = (pre ++ o :: post)%list ->
      Forall (fun x => ~ allow_kind x) pre -> allow_kind o ->
      fst (requestPermission params w)
      = Returned (mkPermissionResponse (selected (optionId o))))
  /\ ((forall o, In o (options params) -> ~ allow_kind o) ->
      fst (requestPermission params w)
      = Returned (mkPermissionResponse cancelled))
  /\ (exists out,
         fst (requestPermission params w) = Returned (mkPermissionResponse out)
         /\ (out = cancelled
             \/ exists o, In o (options params) /\ allow_kind o
                          /\ out = selected (optionId o)))
  /\ this (after (requestPermission params) w) = this w
  /\ trace (after (requestPermission params) w) = trace w.
Proof.
  destruct (requestPermission_result params w) as (R & Hthis & Htrace).
  split; [|split; [|split; [|split; assumption]]].
  - intros pre o post E Hpre Ho. rewrite R, E.
    rewrite (find_first_allow pre o post Hpre Ho). reflexivity.
  - intros H. rewrite R, (find_no_allow _ H). reflexivity.
  - rewrite R. destruct (find is_allow (options params)) as [o|] eqn:E.
    + exists (selected (optionId o)). split; [reflexivity|]. right.
      apply find_some in E. destruct E as [Hin Ha].
      exists o. repeat split; [assumption | now apply is_allow_iff].
    + exists cancelled. split; [reflexivity | now left].
Qed.

(** ** Session updates *)

Lemma reconcile_listeners n c :
  sessionUpdateListeners (reconcile n c) = sessionUpdateListeners c.
Proof.
  unfold reconcile. destruct (update n) as [[]|]; try reflexivity.
  destruct (sessionMetadata c); reflexivity.
Qed.

(** [sessionUpdate] reconciles the metadata and calls the
    subscribers that a [forEach] reaches.  When none of them raised it
    returns and writes no error line; when one raised a value that can
    be printed it writes one error line and returns; when one raised a
    value that cannot be printed, it writes no error line and throws
    what [JSON.stringify] threw. *)
Lemma sessionUpdate_spec n w :
  this (after (sessionUpdate n) w) = reconcile n (this w)
  /\ trace (after (sessionUpdate n) w)
     = (trace w ++ map (fun i => heard_update i n)
                       (reached (sessionUpdateListeners (this w)) n))%list
  /\ (raised (sessionUpdateListeners (this w)) n = None ->
      fst (sessionUpdate n w) = Returned tt
      /\ errors (logger (after (sessionUpdate n) w)) = errors (logger w))
  /\ (forall e line,
      raised (sessionUpdateListeners (this w)) n = Some e ->
      printed "Error in session update listener" e line ->
      fst (sessionUpdate n w) = Returned tt
      /\ errors (logger (after (sessionUpdate n) w))
         = (errors (logger w) ++ [mkLine "ERROR" line])%list)
  /\ (forall e x,
      raised (sessionUpdateListeners (this w)) n = Some e ->
      unprintable e x ->
      fst (sessionUpdate n w) = Thrown x
      /\ errors (logger (after (sessionUpdate n) w)) = errors (logger w)).
Proof.
  unfold sessionUpdate, reconcile, debug, info. js.
  destruct (update n) as [u|]; [destruct u|]; simpl;
    try destruct (sessionMetadata (this w)); simpl;
    rewrite forEach_spec; simpl;
    match goal with
    | |- context [raised ?ls n] => destruct (raised ls n) as [e0|] eqn:R
    end; simpl;
    (split;
     [first
        [ reflexivity
        | destruct (printed_or_unprintable "Error in session update listener" e0)
            as [[line0 Ha]|[x0 Hx]];
          [rewrite (logError_printed _ _ _ _ Ha)
          |rewrite (logError_unprintable _ _ _ _ Hx)]; reflexivity ]|]);
    (split;
     [first
        [ reflexivity
        | destruct (printed_or_unprintable "Error in session update listener" e0)
            as [[line0 Ha]|[x0 Hx]];
          [rewrite (logError_printed _ _ _ _ Ha)
          |rewrite (logError_unprintable _ _ _ _ Hx)]; reflexivity ]|]);
    (split; [|split]);
    try (intros H; discriminate H);
    try (intros e line H; discriminate H);
    try (intros _; simpl; rewrite ?errors_log, ?app_nil_r; split; reflexivity);
    try (intros e line H Hp; injection H as <-;
         rewrite (logError_printed _ _ _ _ Hp); simpl;
         rewrite !errors_log, ?app_nil_r; split; reflexivity);
    try (intros e x H Hu; injection H as <-;
         rewrite (logError_unprintable _ _ _ _ Hu); simpl;
         rewrite ?errors_log, ?app_nil_r; split; reflexivity).
Qed.

Lemma states_not_updates (ls : list nat) (n : SessionNotification) i :
  ~ In i ls -> updates_heard i (map (fun j => heard_update j n) ls) = [].
Proof.
  induction ls as [|j ls IH]; simpl; intros H; [reflexivity|].
  destruct (Nat.eqb i j) eqn:E.
  - apply Nat.eqb_eq in E. exfalso. apply H. left. symmetry. exact E.
  - apply IH. intros G. apply H. right. exact G.
Qed.

Lemma updates_heard_app i t1 t2 :
  updates_heard i (t1 ++ t2) = (updates_heard i t1 ++ updates_heard i t2)%list.
Proof.
  induction t1 as [|o t1 IH]; simpl; [reflexivity|].
  destruct o; simpl; try exact IH.
  destruct (Nat.eqb i listener); simpl; rewrite IH; reflexivity.
Qed.

(** A [forEach] over distinct callbacks hands each one it reaches the
    notification once. *)
Lemma updates_heard_once (ls : list nat) (n : SessionNotification) i :
  NoDup ls -> In i ls ->
  updates_heard i (map (fun j => heard_update j n) ls) = [n].
Proof.
  induction ls as [|j ls IH]; simpl; intros Hnd Hin; [contradiction|].
  inversion Hnd as [|? ? Hnotin Hrest]; subst.
  destruct (Nat.eqb i j) eqn:E.
  - apply Nat.eqb_eq in E. subst j.
    rewrite (states_not_updates ls n i Hnotin). reflexivity.
  - destruct Hin as [->|Hin]; [rewrite Nat.eqb_refl in E; discriminate E|].
    apply IH; assumption.
Qed.

Lemma NoDup_app_apart (A : Type) (l1 l2 : list A) x :
  NoDup (l1 ++ l2) -> In x l1 -> In x l2 -> False.
Proof.
  induction l1 as [|a l1 IH]; simpl; intros H H1 H2; [contradiction|].
  inversion H as [|? ? Hnotin Hrest]; subst. destruct H1 as [->|H1].
  - apply Hnotin. apply in_or_app. right. exact H2.
  - apply IH; assumption.
Qed.

(** When a subscriber raises, the subscribers registered before it
    and the raising one have been called, in this order, and no
    other. *)
Lemma sessionUpdate_blocked w n before bad later e :
  sessionUpdateListeners (this w) = (before ++ bad :: later)%list ->
  Forall (fun l => react l n = None) before ->
  react bad n = Some e ->
  trace (after (sessionUpdate n) w)
  = (trace w ++ map (fun l => heard_update (lid l) n) (before ++ [bad]))%list
  /\ raised (sessionUpdateListeners (this w)) n = Some e.
Proof.
  intros E Hq Hbad.
  destruct (sessionUpdate_spec n w) as (_ & Ht & _).
  destruct (reached_until _ before later bad n e Hq Hbad) as [Hr Hraised].
  rewrite E in Ht. rewrite Hr in Ht. split.
  - rewrite Ht. f_equal. rewrite !map_app, map_map. reflexivity.
  - rewrite E. exact Hraised.
Qed.

(** C1, as the code has it. When a session-update subscriber raises
    on a notification, the subscribers registered before it and the
    raising one have been called with that notification, in the order
    of their registration, and nobody else: each of them was handed
    the notification once, and the subscribers registered after the
    raising one were not handed it.  The error is caught.  When it can
    be printed (an [Error] object, a falsy value, or a value that
    [JSON.stringify] turns into a text), one error line is written for
    the delivery, with the message Error in session update listener
    and, behind it, the stack of the error, its message when it has no
    stack, or the JSON text of the value; the handler then returns, so
    that nothing reaches the agent.  When it cannot be printed, the
    logger throws inside the [catch] block: no error line is written
    and the handler throws what [JSON.stringify] threw.  The
    subscribers stay registered. *)
Theorem raising_subscriber_is_contained w n before bad later e :
  sessionUpdateListeners (this w) = (before ++ bad :: later)%list ->
  Forall (fun l => react l n = None) before ->
  react bad n = Some e ->
  let w' := after (sessionUpdate n) w in
  trace w'
  = (trace w ++ map (fun l => heard_update (lid l) n) (before ++ [bad]))%list
  /\ (NoDup (map (@lid _) (before ++ bad :: later)) ->
      (forall l, In l (before ++ [bad])%list ->
         updates_heard (lid l) (trace w')
         = (updates_heard (lid l) (trace w) ++ [n])%list)
      /\ (forall l, In l later ->
           updates_heard (lid l) (trace w') = updates_heard (lid l) (trace w)))
  /\ ((exists line, printed "Error in session update listener" e line)
      \/ (exists x, unprintable e x))
  /\ (forall line,
      printed "Error in session update listener" e line ->
      fst (sessionUpdate n w) = Returned tt
      /\ errors (logger w') = (errors (logger w) ++ [mkLine "ERROR" line])%list)
  /\ (forall x,
      unprintable e x ->
      fst (sessionUpdate n w) = Thrown x
      /\ errors (logger w') = errors (logger w))
  /\ sessionUpdateListeners (this w') = sessionUpdateListeners (this w).
Proof.
  intros E Hq Hbad w'.
  destruct (sessionUpdate_blocked w n before bad later e E Hq Hbad) as [Ht Hr].
  destruct (sessionUpdate_spec n w) as (Hthis & _ & _ & Hl & Hx).
  fold w' in Ht, Hthis, Hl, Hx.
  split; [exact Ht|]. split; [|split; [apply printed_or_unprintable|]].
  - intros Hnd. rewrite map_app in Hnd. simpl in Hnd.
    assert (Hcalled : NoDup (map (@lid _) (before ++ [bad]))).
    { rewrite map_app. simpl.
      replace (map (@lid _) before ++ lid bad :: map (@lid _) later)%list
        with ((map (@lid _) before ++ [lid bad]) ++ map (@lid _) later)%list in Hnd
        by (rewrite <- app_assoc; reflexivity).
      apply NoDup_app_remove_r in Hnd. exact Hnd. }
    split.
    + intros l Hin. rewrite Ht, updates_heard_app. f_equal.
      rewrite <- (map_map (@lid _) (fun i => heard_update i n)).
      apply updates_heard_once; [exact Hcalled | apply in_map; exact Hin].
    + intros l Hin. rewrite Ht, updates_heard_app.
      rewrite <- (map_map (@lid _) (fun i => heard_update i n)).
      rewrite states_not_updates; [apply app_nil_r|].
      intros Hc.
      replace (map (@lid _) before ++ lid bad :: map (@lid _) later)%list
        with ((map (@lid _) before ++ [lid bad]) ++ map (@lid _) later)%list in Hnd
        by (rewrite <- app_assoc; reflexivity).
      apply (NoDup_app_apart _ _ _ (lid l) Hnd);
        [rewrite map_app in Hc; exact Hc | apply in_map; exact Hin].
  - split; [|split].
    + intros text Ha. apply (Hl e text Hr Ha).
    + intros x Hu. apply (Hx e x Hr Hu).
    + rewrite Hthis. apply reconcile_listeners.
Qed.

(** C1 fails as stated: with two subscribers of which the first
    raises, the second is registered and is never handed the
    notification. *)
Lemma later_subscriber_misses_update :
  reachable Examples.two_subscribers
  /\ sessionUpdateListeners (this Examples.two_subscribers)
     = [Examples.broken; Examples.sound]
  /\ react Examples.broken Examples.chunk = Some Examples.boom
  /\ updates_heard (lid Examples.sound)
       (trace (after (sessionUpdate Examples.chunk) Examples.two_subscribers)) = []
  /\ ~ delivered_to_all Examples.chunk Examples.two_subscribers
         (after (sessionUpdate Examples.chunk) Examples.two_subscribers).
Proof.
  split; [|repeat split].
  - apply reach_reachable. discriminate.
  - intros H. destruct (H Examples.sound) as (before & later & E).
    + simpl. right. left. reflexivity.
    + vm_compute in E. destruct before as [|x before]; simpl in E.
      * discriminate E.
      * injection E as _ E. destruct before; discriminate E.
Qed.

(** ** [setMode] *)





(** ** Properties kept by the methods *)

(** A property of the world that the elementary writes keep is kept
    by every method built from them; which writes are assumed to
    keep it is what distinguishes the uses below. *)
#[local] Arguments setState : simpl never.
#[local] Arguments dispose : simpl never.
#[local] Arguments setAgent : simpl never.
#[local] Arguments connect_call : simpl never.
#[local] Arguments connect_resume : simpl never.
#[local] Arguments on_stderr_data : simpl never.
#[local] Arguments on_process_error : simpl never.
#[local] Arguments on_process_exit : simpl never.
#[local] Arguments process_error : simpl never.
#[local] Arguments requestPermission : simpl never.
#[local] Arguments sessionUpdate : simpl never.
#[local] Arguments newSession_call : simpl never.
#[local] Arguments newSession_resume : simpl never.
#[local] Arguments setMode_call : simpl never.
#[local] Arguments setMode_resume : simpl never.
#[local] Arguments setModel_call : simpl never.
#[local] Arguments setModel_resume : simpl never.
#[local] Arguments sendMessage_call : simpl never.
#[local] Arguments sendMessage_resume : simpl never.
#[local] Arguments cancel_call : simpl never.
#[local] Arguments cancel_resume : simpl never.
#[local] Arguments setOnStateChange : simpl never.
#[local] Arguments unsubscribeStateChange : simpl never.
#[local] Arguments setOnSessionUpdate : simpl never.
#[local] Arguments unsubscribeSessionUpdate : simpl never.
#[local] Arguments setOnStderr : simpl never.
#[local] Arguments unsubscribeStderr : simpl never.
#[local] Arguments after : simpl never.

Section Preservation.

Variable I : World -> Prop.

Lemma preserves_ret (A : Type) (a : A) : preserves I A (ret a).
Proof. intros w H. exact H. Qed.

Lemma preserves_throw (A : Type) e : preserves I A (throw e).
Proof. intros w H. exact H. Qed.

Lemma preserves_gets (A : Type) (f : ACPClient -> A) : preserves I A (gets f).
Proof. intros w H. exact H. Qed.

Lemma preserves_bind (A B : Type) (m : M A) (f : A -> M B) :
  preserves I A m -> (forall a, preserves I B (f a)) -> preserves I B (bind m f).
Proof.
  intros Hm Hf w H. unfold bind. specialize (Hm w H).
  destruct (m w) as [[a|e] w']; simpl in *; [apply Hf; exact Hm | exact Hm].
Qed.

Lemma preserves_try_catch (A : Type) (m : M A) (h : JsValue -> M A) :
  preserves I A m -> (forall e, preserves I A (h e)) -> preserves I A (try_catch m h).
Proof.
  intros Hm Hh w H. unfold try_catch. specialize (Hm w H).
  destruct (m w) as [[a|e] w']; simpl in *; [exact Hm | apply Hh; exact Hm].
Qed.

Hypothesis keeps_log : forall f w, I w -> I (on_logger f w).
Hypothesis keeps_suspended : forall q w, I w -> I (set_suspended q w).
Hypothesis keeps_update : forall i n w, I w -> I (observe (heard_update i n) w).
Hypothesis keeps_stderr : forall i t w, I w -> I (observe (heard_stderr i t) w).
Hypothesis keeps_metadata :
  forall v w, I w -> I (on_this (set_sessionMetadata (Some v)) w).
Hypothesis keeps_pending :
  forall v w, I w -> I (on_this (set_pendingCommands (Some v)) w).
Hypothesis keeps_process : forall v w, I w -> I (on_this (set_process v) w).
Hypothesis keeps_connection :
  forall v w, I w -> I (on_this (set_connection v) w).
Hypothesis keeps_spawn : forall w, I w -> I (spawn_one w).
Hypothesis keeps_setState : forall s, preserves I unit (setState s).

Lemma preserves_logging f : preserves I unit (logging f).
Proof. intros w H. apply keeps_log. exact H. Qed.

Lemma preserves_logError msg err : preserves I unit (logError msg err).
Proof.
  intros w H. unfold logError.
  destruct (Logger.error msg err (logger w)); simpl;
    [apply keeps_log; exact H | exact H].
Qed.

Lemma preserves_suspend s : preserves I unit (suspend s).
Proof. intros w H. apply keeps_suspended. exact H. Qed.

Lemma preserves_metadata v :
  preserves I unit (assign (set_sessionMetadata (Some v))).
Proof. intros w H. apply keeps_metadata. exact H. Qed.

Lemma preserves_pending v :
  preserves I unit (assign (set_pendingCommands (Some v))).
Proof. intros w H. apply keeps_pending. exact H. Qed.

Lemma preserves_process v : preserves I unit (assign (set_process v)).
Proof. intros w H. apply keeps_process. exact H. Qed.

Lemma preserves_connection v : preserves I unit (assign (set_connection v)).
Proof. intros w H. apply keeps_connection. exact H. Qed.

Lemma preserves_spawnFn : preserves I _ spawnFn.
Proof. intros w H. apply keeps_spawn. exact H. Qed.

Lemma preserves_forEach_update ls n :
  preserves I unit (forEach ls heard_update n).
Proof.
  induction ls as [|l rest IH]; simpl; [apply preserves_ret|].
  apply preserves_bind; [intros w H; apply keeps_update; exact H|].
  intros _. destruct (react l n); [apply preserves_throw | exact IH].
Qed.

Lemma preserves_forEach_stderr ls t :
  preserves I unit (forEach ls heard_stderr t).
Proof.
  induction ls as [|l rest IH]; simpl; [apply preserves_ret|].
  apply preserves_bind; [intros w H; apply keeps_stderr; exact H|].
  intros _. destruct (react l t); [apply preserves_throw | exact IH].
Qed.

Ltac frame :=
  repeat first
    [ apply preserves_ret
    | apply preserves_throw
    | apply preserves_gets
    | apply preserves_logging
    | apply preserves_logError
    | apply preserves_suspend
    | apply preserves_metadata
    | apply preserves_pending
    | apply preserves_process
    | apply preserves_connection
    | apply preserves_spawnFn
    | apply keeps_setState
    | apply preserves_forEach_update
    | apply preserves_forEach_stderr
    | apply preserves_bind; [|intros ?]
    | apply preserves_try_catch; [|intros ?]
    | match goal with
      | |- preserves I _ (if ?b then _ else _) => destruct b
      | |- preserves I _ (match ?x with _ => _ end) => destruct x
      end ].

(** The methods that move neither the session nor the state. *)
Lemma preserves_on_stderr_data t : preserves I unit (on_stderr_data t).
Proof. unfold on_stderr_data. frame. Qed.

Lemma preserves_requestPermission params :
  preserves I _ (requestPermission params).
Proof. unfold requestPermission. frame. Qed.

Lemma preserves_calls :
  (forall cwd, preserves I unit (newSession_call cwd))
  /\ (forall m, preserves I unit (setMode_call m))
  /\ (forall m, preserves I unit (setModel_call m))
  /\ (forall text, preserves I unit (sendMessage_call text))
  /\ preserves I unit cancel_call
  /\ (forall r, preserves I _ (sendMessage_resume r))
  /\ (forall r, preserves I unit (cancel_resume r))
  /\ (forall e, preserves I _ (newSession_resume (inl e))).
Proof.
  unfold newSession_call, setMode_call, setModel_call, sendMessage_call,
    cancel_call, sendMessage_resume, cancel_resume, newSession_resume.
  repeat split; intros; frame.
Qed.

(** The methods that write the metadata of a session. *)
Lemma preserves_sessionUpdate n : preserves I unit (sessionUpdate n).
Proof. unfold sessionUpdate. frame. Qed.

Lemma preserves_setMode_resume m r : preserves I unit (setMode_resume m r).
Proof. unfold setMode_resume. frame. Qed.

Lemma preserves_setModel_resume m r : preserves I unit (setModel_resume m r).
Proof. unfold setModel_resume. frame. Qed.

(** The methods that move the state machine. *)
Lemma preserves_connect_call available sp :
  preserves I unit (connect_call available sp).
Proof. unfold connect_call. frame. Qed.

Lemma preserves_connect_resume r : preserves I _ (connect_resume r).
Proof. unfold connect_resume. frame. Qed.

Lemma preserves_on_process_error err :
  preserves I unit (on_process_error err).
Proof. unfold on_process_error. frame. Qed.

Lemma preserves_on_process_exit code :
  preserves I unit (on_process_exit code).
Proof. unfold on_process_exit. frame. Qed.

Lemma preserves_process_error p err w :
  I w -> I (process_error p err w).
Proof.
  intros H. unfold process_error.
  pose proof (preserves_on_process_error err w H) as H1.
  destruct (on_process_error err w) as [[u|e] w1]; simpl in H1; [|exact H1].
  destruct (position (awaiting_initialize p) (suspended w1)); [|exact H1].
  apply preserves_connect_resume, keeps_suspended. exact H1.
Qed.

Hypothesis keeps_running : forall r w, I w -> I (set_running r w).
Hypothesis keeps_update_listeners :
  forall v w, I w -> I (on_this (set_sessionUpdateListeners v) w).
Hypothesis keeps_stderr_listeners :
  forall v w, I w -> I (on_this (set_stderrListeners v) w).

Lemma preserves_plain_step e w w' :
  step e w = Some w' -> plain e w = true -> I w -> I w'.
Proof.
  intros Hstep Hplain H.
  destruct preserves_calls as (P1 & P2 & P3 & P4 & P5 & P6 & P7 & P8).
  destruct e; simpl in Hstep, Hplain; try discriminate Hplain.
  - injection Hstep as <-. apply (keeps_update_listeners _ w H).
  - injection Hstep as <-. apply (keeps_update_listeners _ w H).
  - injection Hstep as <-. apply (keeps_stderr_listeners _ w H).
  - injection Hstep as <-. apply (keeps_stderr_listeners _ w H).
  - injection Hstep as <-. apply P1. exact H.
  - injection Hstep as <-. apply P2. exact H.
  - injection Hstep as <-. apply P3. exact H.
  - injection Hstep as <-. apply P4. exact H.
  - injection Hstep as <-. apply P5. exact H.
  - destruct (nth_error (suspended w) i) as [s|]; [|discriminate Hstep].
    pose proof (keeps_suspended (remove_nth i (suspended w)) w H) as H1.
    destruct s, r; cbv beta iota delta [resume] in Hstep; try discriminate Hstep;
      try discriminate Hplain; injection Hstep as <-;
      first [ apply P8 | apply preserves_setMode_resume
            | apply preserves_setModel_resume | apply P6 | apply P7 ];
      exact H1.
  - destruct (is_running p w); [|discriminate Hstep].
    injection Hstep as <-. apply preserves_on_stderr_data. exact H.
  - destruct (Nat.eqb (spawned w) 0); [discriminate Hstep|].
    injection Hstep as <-. apply preserves_requestPermission. exact H.
  - destruct (Nat.eqb (spawned w) 0); [discriminate Hstep|].
    injection Hstep as <-. apply preserves_sessionUpdate. exact H.
Qed.

Lemma preserves_machine_step e w w' :
  step e w = Some w' -> machine e w = true -> I w -> I w'.
Proof.
  intros Hstep Hm H.
  destruct e; simpl in Hstep, Hm; try discriminate Hm.
  - injection Hstep as <-. apply preserves_connect_call. exact H.
  - destruct (nth_error (suspended w) i) as [s|]; [|discriminate Hstep].
    pose proof (keeps_suspended (remove_nth i (suspended w)) w H) as H1.
    destruct s; try discriminate Hm.
    destruct r; cbv beta iota delta [resume] in Hstep; try discriminate Hstep;
      injection Hstep as <-; apply preserves_connect_resume; exact H1.
  - destruct (is_running p w); [|discriminate Hstep].
    injection Hstep as <-. apply preserves_process_error. exact H.
  - destruct (is_running p w); [|discriminate Hstep].
    injection Hstep as <-. apply keeps_running.
    apply preserves_on_process_exit. exact H.
Qed.

Hypothesis keeps_killed : forall p w, I w -> I (observe (killed p) w).
Hypothesis keeps_sessionId :
  forall v w, I w -> I (on_this (set_currentSessionId v) w).
Hypothesis keeps_any_metadata :
  forall v w, I w -> I (on_this (set_sessionMetadata v) w).
Hypothesis keeps_any_pending :
  forall v w, I w -> I (on_this (set_pendingCommands v) w).
Hypothesis keeps_agent : forall v w, I w -> I (on_this (set_agentConfig v) w).

Lemma preserves_dispose : preserves I unit dispose.
Proof.
  unfold dispose.
  frame; intros w H;
    first [ apply keeps_killed | apply keeps_sessionId
          | apply keeps_any_metadata | apply keeps_any_pending ];
    exact H.
Qed.

Lemma preserves_setAgent config : preserves I unit (setAgent config).
Proof.
  unfold setAgent.
  apply preserves_bind; [apply preserves_gets | intros current].
  apply preserves_bind.
  - destruct (state_eqb current disconnected);
      [apply preserves_ret | apply preserves_dispose].
  - intros _ w H. apply keeps_agent. exact H.
Qed.

Lemma preserves_newSession_resume r : preserves I _ (newSession_resume r).
Proof.
  unfold newSession_resume.
  frame; intros w H;
    first [ apply keeps_sessionId | apply keeps_any_metadata
          | apply keeps_any_pending ];
    exact H.
Qed.

(** Every step that changes no set of state-change subscribers. *)
Lemma preserves_step e w w' :
  keeps_subscribers e = true -> step e w = Some w' -> I w -> I w'.
Proof.
  intros Hk Hstep H.
  destruct (plain e w) eqn:Hp;
    [exact (preserves_plain_step e w w' Hstep Hp H)|].
  destruct (machine e w) eqn:Hm;
    [exact (preserves_machine_step e w w' Hstep Hm H)|].
  destruct e; simpl in Hp, Hm, Hk; try discriminate; simpl in Hstep.
  - injection Hstep as <-. apply preserves_setAgent. exact H.
  - injection Hstep as <-. apply preserves_dispose. exact H.
  - destruct (nth_error (suspended w) i) as [[]|]; try discriminate;
      destruct r; try discriminate; cbv beta iota delta [resume] in Hstep;
      injection Hstep as <-.
    apply preserves_newSession_resume, keeps_suspended. exact H.
Qed.

End Preservation.

(** ** What the state machine's methods write *)

Lemma set_state_same c : set_state (state c) c = c.
Proof. destruct c; reflexivity. Qed.

(** Whether it notifies or not, [setState s] leaves the client with
    state [s] and all other fields as they were. *)
Lemma setState_writes s w : this (snd (setState s w)) = set_state s (this w).
Proof.
  rewrite setState_spec. destruct (state_eqb (state (this w)) s) eqn:E; simpl.
  - apply state_eqb_eq in E. subst s. symmetry. apply set_state_same.
  - reflexivity.
Qed.

Lemma setState_quiet s w :
  Forall (@quiet _) (stateChangeListeners (this w)) ->
  setState s w =
    (Returned tt,
     if state_eqb (state (this w)) s then w
     else add_trace (map (fun l => heard_state (lid l) s)
                         (stateChangeListeners (this w)))
                    (on_this (set_state s) w)).
Proof.
  intros Hq. rewrite setState_spec.
  destruct (state_eqb (state (this w)) s); [reflexivity|].
  assert (Hs : Forall (fun l => react l s = None) (stateChangeListeners (this w))).
  { eapply Forall_impl; [|exact Hq]. intros l Hl. apply Hl. }
  rewrite (raised_quiet _ _ _ Hs), (reached_quiet _ _ _ Hs), map_map.
  reflexivity.
Qed.

Lemma setState_rest s w :
  logger (snd (setState s w)) = logger w
  /\ spawned (snd (setState s w)) = spawned w
  /\ running (snd (setState s w)) = running w
  /\ suspended (snd (setState s w)) = suspended w.
Proof.
  rewrite setState_spec. destruct (state_eqb (state (this w)) s);
    repeat split.
Qed.

(** ** The exit of the process *)

(** The exit handler writes the state and then clears the two
    handles; when a state-change subscriber raises, it stops after
    the state.  It writes nothing else of the client. *)
Lemma on_process_exit_this code w :
  (fst (on_process_exit code w) = Returned tt
   /\ this (after (on_process_exit code) w)
      = set_process None (set_connection None (set_state disconnected (this w))))
  \/ ((exists e, fst (on_process_exit code w) = Thrown e)
      /\ this (after (on_process_exit code) w)
         = set_state disconnected (this w)).
Proof.
  unfold on_process_exit, after. js.
  pose proof (setState_writes disconnected
                (on_logger (info ("Process exited with code: " ++ show_code code)) w))
    as E.
  destruct (setState disconnected _) as [[u|e] w1]; simpl in *.
  - left. destruct u. split; [reflexivity|]. rewrite E. reflexivity.
  - right. split; [exists e; reflexivity | exact E].
Qed.

Lemma session_kept_refl w : session_kept w w.
Proof. unfold session_kept. repeat split; intros H; exact H. Qed.

Lemma session_kept_this w x y :
  currentSessionId (this y) = currentSessionId (this x) ->
  (sessionMetadata (this x) <> None -> sessionMetadata (this y) <> None) ->
  (pendingCommands (this x) <> None -> pendingCommands (this y) <> None) ->
  session_kept w x -> session_kept w y.
Proof.
  unfold session_kept. intros E1 E2 E3 (H1 & H2 & H3).
  rewrite E1. repeat split; auto.
Qed.

Lemma session_kept_setState w s : preserves (session_kept w) unit (setState s).
Proof.
  intros x H.
  apply (session_kept_this w x); try rewrite setState_writes; auto.
Qed.

Ltac kept := intros; match goal with
                     | H : session_kept ?w ?x |- session_kept ?w _ =>
                         apply (session_kept_this w x);
                         [reflexivity | intros G; try exact G; discriminate
                         | intros G; try exact G; discriminate | exact H]
                     end.

(** Only a step in which [dispose] runs or a [newSession] completes
    resets the session. *)
Lemma session_reset_only_by e w w' :
  step e w = Some w' -> session_kept w w' \/ resets_session e w.
Proof.
  intros Hstep.
  assert (Hplain : plain e w = true -> session_kept w w').
  { intros Hp. apply (preserves_plain_step (session_kept w)) with (e := e) (w := w);
      try assumption; try apply session_kept_refl; kept. }
  assert (Hmachine : machine e w = true -> session_kept w w').
  { intros Hm. apply (preserves_machine_step (session_kept w)) with (e := e) (w := w);
      try assumption; try apply session_kept_refl;
      try apply session_kept_setState; kept. }
  destruct e; try (left; apply Hplain; reflexivity);
    try (left; apply Hmachine; reflexivity).
  - (* setAgent *)
    simpl in Hstep. injection Hstep as <-.
    destruct (state_eqb (state (this w)) disconnected) eqn:E.
    + left. unfold setAgent, after. js. rewrite E. simpl.
      unfold session_kept. simpl. repeat split; intros G; exact G.
    + right. right. left. exists config. split; [reflexivity|].
      apply state_eqb_neq. exact E.
  - (* setOnStateChange *)
    left. simpl in Hstep. injection Hstep as <-.
    unfold session_kept. repeat split; intros G; exact G.
  - left. simpl in Hstep. injection Hstep as <-.
    unfold session_kept. repeat split; intros G; exact G.
  - (* dispose *) right. left. reflexivity.
  - (* settle *)
    destruct (plain (ev_settle i r) w) eqn:Hp; [left; apply Hplain; reflexivity|].
    destruct (machine (ev_settle i r) w) eqn:Hm; [left; apply Hmachine; reflexivity|].
    right. right. right. simpl in Hp, Hm, Hstep.
    destruct (nth_error (suspended w) i) as [[]|] eqn:En; try discriminate;
      destruct r; try discriminate.
    exists i, r. split; [reflexivity | exact En].
Qed.

(** C10. When the process exits, the handler writes the state (to
    [disconnected]) and the two handles, and nothing else of the
    client: the session identifier, the metadata and the
    pending-commands slot are what they were, so
    [getSessionMetadata()] still answers the metadata of before the
    exit.  After that, as always, only a step that runs [dispose] or
    completes a [newSession] resets them. *)
Theorem exit_keeps_the_session w code :
  let w' := after (on_process_exit code) w in
  (exists p c,
      this w' = set_process p (set_connection c (set_state disconnected (this w)))
      /\ (fst (on_process_exit code w) = Returned tt -> p = None /\ c = None))
  /\ state (this w') = disconnected
  /\ currentSessionId (this w') = currentSessionId (this w)
  /\ sessionMetadata (this w') = sessionMetadata (this w)
  /\ pendingCommands (this w') = pendingCommands (this w)
  /\ getSessionMetadata (this w') = getSessionMetadata (this w)
  /\ (forall e v v', step e v = Some v' ->
        session_kept v v' \/ resets_session e v).
Proof.
  intros w'.
  destruct (on_process_exit_this code w) as [[R E]|[[e R] E]]; fold w' in E.
  - split; [exists None, None; split; [exact E | intros _; split; reflexivity]|].
    rewrite E. repeat split. apply session_reset_only_by.
  - split; [exists (process (this w)), (connection (this w)); split;
            [rewrite E; reflexivity | rewrite R; intros H; discriminate H]|].
    rewrite E. repeat split. apply session_reset_only_by.
Qed.

Lemma dispose_writes w :
  this (after dispose w) = set_state disconnected (cleared (this w)).
Proof.
  unfold dispose, after. js.
  destruct (process (this w)) eqn:E; simpl; rewrite setState_writes; simpl.
  - reflexivity.
  - unfold cleared, set_state, set_pendingCommands, set_sessionMetadata,
      set_currentSessionId, set_connection, set_process. simpl.
    rewrite E. reflexivity.
Qed.

(** [setAgent] disposes of a client that is not disconnected; the
    new configuration is written unless that [dispose] threw. *)
Lemma setAgent_writes config w :
  exists config',
    this (after (setAgent config) w)
    = set_agentConfig config'
        (if state_eqb (state (this w)) disconnected then this w
         else set_state disconnected (cleared (this w))).
Proof.
  unfold setAgent, after. js.
  destruct (state_eqb (state (this w)) disconnected); simpl.
  - exists config. reflexivity.
  - pose proof (dispose_writes w) as D. unfold after in D.
    destruct (dispose w) as [[u|e] w1]; simpl in *; rewrite D.
    + exists config. reflexivity.
    + exists (agentConfig (this w)). reflexivity.
Qed.

Lemma connect_resume_writes r w :
  exists s, (s = connected \/ s = error)
            /\ this (after (connect_resume r) w) = set_state s (this w).
Proof.
  unfold connect_resume, after. js. destruct r as [e|resp].
  - exists error. split; [now right|]. js.
    pose proof (setState_writes error w) as E.
    destruct (setState error w) as [[u|e'] w1]; simpl in *; exact E.
  - pose proof (setState_writes connected w) as E.
    destruct (setState connected w) as [[u|e'] w1]; simpl in *.
    + exists connected. split; [now left | exact E].
    + exists error. split; [now right|].
      pose proof (setState_writes error w1) as E1.
      destruct (setState error w1) as [[u|e''] w2]; simpl in *;
        rewrite E1, E; reflexivity.
Qed.

Lemma on_process_error_writes err w :
  this (snd (on_process_error err w)) = set_state error (this w).
Proof.
  unfold on_process_error. js. rewrite ?logError_of_Error.
  match goal with
  | |- context [setState error ?x] => pose proof (setState_writes error x) as E
  end.
  destruct (setState error _) as [[u|e'] w1]; simpl in *; exact E.
Qed.

Lemma process_error_writes p err w :
  this (process_error p err w) = set_state error (this w).
Proof.
  unfold process_error.
  pose proof (on_process_error_writes err w) as E.
  destruct (on_process_error err w) as [[u|e] w1]; simpl in E; [|exact E].
  destruct (position (awaiting_initialize p) (suspended w1)); [|exact E].
  destruct (connect_resume_writes (inl (spawnError err))
              (set_suspended (remove_nth n (suspended w1)) w1)) as (s & Hs & E1).
  rewrite E1. simpl. rewrite E.
  unfold connect_resume, after in E1. js.
  pose proof (setState_writes error (set_suspended (remove_nth n (suspended w1)) w1)) as E2.
  destruct (setState error _) as [[u'|e'] w2]; simpl in *;
    rewrite E1, E in E2; rewrite E2; reflexivity.
Qed.

(** [connect] either refuses at a guard and writes nothing, or
    leaves the client connecting with new handles, or connecting
    because a subscriber raised, or in error because the spawn
    threw. *)
Lemma connect_call_writes available sp w :
  (connect_call available sp w = (Thrown AlreadyActive, w)
   \/ connect_call available sp w = (Thrown (AgentUnavailable (agentConfig (this w))), w))
  \/ this (after (connect_call available sp) w) = set_state connecting (this w)
  \/ this (after (connect_call available sp) w) = set_state error (this w)
  \/ this (after (connect_call available sp) w)
     = set_connection (Some (spawned w))
         (set_process (Some (spawned w)) (set_state connecting (this w))).
Proof.
  unfold connect_call, after. js.
  destruct (state_eqb (state (this w)) connected
            || state_eqb (state (this w)) connecting); [left; left; reflexivity|].
  destruct (negb (skipAvailabilityCheck (this w)) && negb available);
    [left; right; reflexivity|].
  right.
  pose proof (setState_writes connecting w) as E.
  destruct (setState_rest connecting w) as (_ & Esp & _).
  destruct (setState connecting w) as [[u|e] w1]; simpl in *; [|left; exact E].
  destruct sp as [e|]; js.
  - right. left.
    pose proof (setState_writes error w1) as E1.
    destruct (setState error w1) as [[u'|e'] w2]; simpl in *;
      rewrite E1, E; reflexivity.
  - right. right. rewrite E, Esp. reflexivity.
Qed.

(** ** Steps that do not move the state machine *)

Lemma states_heard_app i t1 t2 :
  states_heard i (t1 ++ t2) = (states_heard i t1 ++ states_heard i t2)%list.
Proof.
  induction t1 as [|o t1 IH]; simpl; [reflexivity|].
  destruct o; try exact IH.
  destruct (Nat.eqb i listener); simpl; rewrite IH; reflexivity.
Qed.

Lemma same_machine_refl w : same_machine w w.
Proof. unfold same_machine. repeat split. Qed.

Lemma same_machine_via w x y :
  state (this y) = state (this x) ->
  process (this y) = process (this x) ->
  connection (this y) = connection (this x) ->
  stateChangeListeners (this y) = stateChangeListeners (this x) ->
  (forall i, states_heard i (trace y) = states_heard i (trace x)) ->
  same_machine w x -> same_machine w y.
Proof.
  unfold same_machine. intros E1 E2 E3 E4 E5 (H1 & H2 & H3 & H4 & H5).
  rewrite E1, E2, E3, E4. repeat split; try assumption.
  intros i. rewrite E5. apply H5.
Qed.

Ltac still :=
  intros;
  match goal with
  | H : same_machine ?w ?x |- same_machine ?w _ =>
      apply (same_machine_via w x);
      [reflexivity | reflexivity | reflexivity | reflexivity
      | intros; simpl; try rewrite states_heard_app; simpl;
        try rewrite app_nil_r; reflexivity
      | exact H]
  end.

Lemma plain_step_same_machine e w w' :
  step e w = Some w' -> plain e w = true -> same_machine w w'.
Proof.
  intros Hstep Hp.
  apply (preserves_plain_step (same_machine w)) with (e := e) (w := w);
    try assumption; try apply same_machine_refl; still.
Qed.

Lemma newSession_resume_writes resp w :
  newSession_resume (inr resp) w
  = (Returned resp,
     on_this (fun c =>
                set_pendingCommands None
                  (set_sessionMetadata
                     (Some (mkMetadata (orNull (responseModes resp))
                                       (orNull (responseModels resp))
                                       (pendingCommands c)))
                     (set_currentSessionId (Some (sessionId resp)) c))) w).
Proof. reflexivity. Qed.

(** ** The handles and the state *)

Lemma connection_has_process_step e w w' :
  step e w = Some w' ->
  connection_has_process (this w) -> connection_has_process (this w').
Proof.
  intros Hstep H.
  assert (Hplain : plain e w = true -> connection_has_process (this w')).
  { intros Hp. destruct (plain_step_same_machine e w w' Hstep Hp)
      as (_ & E2 & E3 & _).
    unfold connection_has_process. rewrite E2, E3. exact H. }
  unfold connection_has_process in *.
  destruct e; try (apply Hplain; reflexivity); simpl in Hstep.
  - (* setAgent *)
    injection Hstep as <-. destruct (setAgent_writes config w) as (c' & E).
    rewrite E. destruct (state_eqb (state (this w)) disconnected); simpl;
      [exact H | intros G; exfalso; apply G; reflexivity].
  - injection Hstep as <-. exact H.
  - injection Hstep as <-. exact H.
  - (* connect *)
    injection Hstep as <-.
    destruct (connect_call_writes available sp w) as [[E|E]|[E|[E|E]]];
      try (unfold after; rewrite E; simpl; exact H);
      rewrite E; simpl; try exact H.
    intros _ G. discriminate G.
  - (* dispose *)
    injection Hstep as <-. rewrite dispose_writes. simpl.
    intros G. exfalso. apply G. reflexivity.
  - (* settle *)
    destruct (plain (ev_settle i r) w) eqn:Hp; [apply Hplain; reflexivity|].
    simpl in Hp.
    destruct (nth_error (suspended w) i) as [[]|]; try discriminate;
      destruct r; try discriminate; cbv beta iota delta [resume] in Hstep;
      injection Hstep as <-.
    + destruct (connect_resume_writes (inl e)
                  (set_suspended (remove_nth i (suspended w)) w)) as (s & _ & E).
      rewrite E. exact H.
    + destruct (connect_resume_writes (inr r)
                  (set_suspended (remove_nth i (suspended w)) w)) as (s & _ & E).
      rewrite E. exact H.
    + unfold after. rewrite newSession_resume_writes. exact H.
  - (* process error *)
    destruct (is_running p w); [|discriminate Hstep].
    injection Hstep as <-. rewrite process_error_writes. exact H.
  - (* exit *)
    destruct (is_running p w); [|discriminate Hstep].
    injection Hstep as <-. simpl.
    destruct (on_process_exit_this code w) as [[_ E]|[_ E]]; rewrite E; simpl.
    + intros G. exfalso. apply G. reflexivity.
    + exact H.
Qed.

(** A property that every allowed step keeps holds at the end of
    every run of allowed steps. *)
Lemma run_preserves (P : World -> Prop) (allowed : Event -> Prop) :
  (forall e w w', allowed e -> step e w = Some w' -> P w -> P w') ->
  forall events w w',
    Forall allowed events -> run events w = Some w' -> P w -> P w'.
Proof.
  intros Hstep events. induction events as [|e rest IH]; intros w w' Hall Hrun H.
  - simpl in Hrun. injection Hrun as <-. exact H.
  - simpl in Hrun. destruct (step e w) as [w1|] eqn:E; [|discriminate Hrun].
    inversion Hall as [|? ? He Hrest]; subst.
    apply (IH w1 w' Hrest Hrun). exact (Hstep e w w1 He E H).
Qed.

Lemma on_process_exit_quiet code w :
  Forall (@quiet _) (stateChangeListeners (this w)) ->
  fst (on_process_exit code w) = Returned tt.
Proof.
  intros Hq. unfold on_process_exit. js.
  rewrite setState_quiet by exact Hq. reflexivity.
Qed.

Lemma add_quiet (A : Type) (l : Listener A) ls :
  quiet l -> Forall (@quiet A) ls -> Forall (@quiet A) (add l ls).
Proof.
  intros Hl Hls. unfold add. destruct (has (lid l) ls); [exact Hls|].
  apply Forall_app. split; [exact Hls | constructor; [exact Hl | constructor]].
Qed.

Lemma delete_quiet (A : Type) i (ls : list (Listener A)) :
  Forall (@quiet A) ls -> Forall (@quiet A) (delete i ls).
Proof.
  intros H. unfold delete. induction H as [|l rest Hl _ IH]; simpl;
    [constructor|].
  destruct (negb (Nat.eqb (lid l) i)); [constructor; assumption | exact IH].
Qed.

Lemma bare_and_quiet_step e w w' :
  registers_quiet e -> step e w = Some w' ->
  bare_and_quiet w -> bare_and_quiet w'.
Proof.
  intros Hreg Hstep [H Hq].
  assert (Hplain : plain e w = true -> bare_and_quiet w').
  { intros Hp. destruct (plain_step_same_machine e w w' Hstep Hp)
      as (E1 & E2 & E3 & E4 & _).
    unfold bare_and_quiet, disconnected_is_bare. rewrite E1, E2, E3, E4.
    split; assumption. }
  unfold bare_and_quiet, disconnected_is_bare in *.
  destruct e; try (apply Hplain; reflexivity); simpl in Hstep.
  - (* setAgent *)
    injection Hstep as <-. destruct (setAgent_writes config w) as (c' & E).
    rewrite E. destruct (state_eqb (state (this w)) disconnected); simpl;
      split; try assumption. intros _. split; reflexivity.
  - injection Hstep as <-. split; [exact H|].
    apply add_quiet; [apply Hreg; reflexivity | exact Hq].
  - injection Hstep as <-. split; [exact H|]. apply delete_quiet. exact Hq.
  - (* connect *)
    injection Hstep as <-.
    destruct (connect_call_writes available sp w) as [[E|E]|[E|[E|E]]];
      try (unfold after; rewrite E; simpl; split; assumption);
      rewrite E; simpl; (split; [intros G; discriminate G | exact Hq]).
  - (* dispose *)
    injection Hstep as <-. rewrite dispose_writes. simpl.
    split; [intros _; split; reflexivity | exact Hq].
  - (* settle *)
    destruct (plain (ev_settle i r) w) eqn:Hp; [apply Hplain; reflexivity|].
    simpl in Hp.
    destruct (nth_error (suspended w) i) as [[]|]; try discriminate;
      destruct r; try discriminate; cbv beta iota delta [resume] in Hstep;
      injection Hstep as <-.
    + destruct (connect_resume_writes (inl e)
                  (set_suspended (remove_nth i (suspended w)) w))
        as (s & [-> | ->] & E);
        rewrite E; simpl; (split; [intros G; discriminate G | exact Hq]).
    + destruct (connect_resume_writes (inr r)
                  (set_suspended (remove_nth i (suspended w)) w))
        as (s & [-> | ->] & E);
        rewrite E; simpl; (split; [intros G; discriminate G | exact Hq]).
    + unfold after. rewrite newSession_resume_writes. split; assumption.
  - (* process error *)
    destruct (is_running p w); [|discriminate Hstep].
    injection Hstep as <-. rewrite process_error_writes. simpl.
    split; [intros G; discriminate G | exact Hq].
  - (* exit *)
    destruct (is_running p w); [|discriminate Hstep].
    injection Hstep as <-. simpl.
    destruct (on_process_exit_this code w) as [[_ E]|[[e R] _]].
    + rewrite E. simpl. split; [intros _; split; reflexivity | exact Hq].
    + rewrite (on_process_exit_quiet code w Hq) in R. discriminate R.
Qed.

Lemma registers_quiet_all events :
  (forall cb, In (ev_setOnStateChange cb) events -> quiet cb) ->
  Forall registers_quiet events.
Proof.
  intros H. apply Forall_forall. intros e He cb ->. apply H. exact He.
Qed.

(** C3, as the code has it. In every reachable state a non-null
    session handle comes with a non-null process handle; and, as
    long as no state-change subscriber raises, a disconnected client
    holds neither handle, so that a non-null session handle implies
    a state other than [disconnected]. *)
Theorem handles_in_reachable_states config skip events w :
  run events (initial config skip) = Some w ->
  connection_has_process (this w)
  /\ ((forall cb, In (ev_setOnStateChange cb) events -> quiet cb) ->
      disconnected_is_bare (this w)
      /\ (connection (this w) <> None -> state (this w) <> disconnected)).
Proof.
  intros Hrun. split.
  - apply (run_preserves (fun x => connection_has_process (this x))
                         (fun _ => True)) with (events := events)
                                               (w := initial config skip).
    + intros e x y _. apply connection_has_process_step.
    + apply Forall_forall. intros; exact Logic.I.
    + exact Hrun.
    + intros G. exfalso. apply G. reflexivity.
  - intros Hq.
    assert (B : bare_and_quiet w).
    { apply (run_preserves bare_and_quiet registers_quiet)
        with (events := events) (w := initial config skip).
      - intros e x y. apply bare_and_quiet_step.
      - apply registers_quiet_all. exact Hq.
      - exact Hrun.
      - split; [intros _; split; reflexivity | constructor]. }
    destruct B as [B _]. split; [exact B|].
    intros Hc Hs. destruct (B Hs) as [_ E]. contradiction.
Qed.

(** C3 fails as stated: while [connect] waits for the handshake the
    session handle is set and the state is [connecting]; and after a
    spawn that threw the process handle is [null] and the state is
    [error]. *)
Lemma handles_do_not_follow_state :
  (reachable Examples.handshaking
   /\ connection (this Examples.handshaking) = Some 0
   /\ state (this Examples.handshaking) = connecting
   /\ ~ handles_follow_state (this Examples.handshaking))
  /\ (reachable (Examples.reach Examples.fresh Examples.failed_spawn_run)
      /\ process (this (Examples.reach Examples.fresh Examples.failed_spawn_run))
         = None
      /\ state (this (Examples.reach Examples.fresh Examples.failed_spawn_run))
         = error
      /\ ~ handles_follow_state
           (this (Examples.reach Examples.fresh Examples.failed_spawn_run))).
Proof.
  split; [split; [|split; [|split]]|split; [|split; [|split]]]; try reflexivity.
  - apply reach_reachable. discriminate.
  - intros [H _]. assert (G : connecting = connected).
    { apply H. discriminate. }
    discriminate G.
  - apply reach_reachable. discriminate.
  - intros [_ [H _]]. assert (G : error = disconnected).
    { apply H. reflexivity. }
    discriminate G.
Qed.

(** ** What the state-change subscribers are told *)

Lemma has_In (A : Type) i (ls : list (Listener A)) :
  has i ls = true <-> In i (map (@lid A) ls).
Proof.
  unfold has. rewrite existsb_exists, in_map_iff. split.
  - intros (l & Hin & E). apply Nat.eqb_eq in E. exists l. split; assumption.
  - intros (l & E & Hin). exists l. split; [exact Hin | apply Nat.eqb_eq; exact E].
Qed.

Lemma has_member (A : Type) (l : Listener A) ls : In l ls -> has (lid l) ls = true.
Proof. intros H. apply has_In. apply in_map. exact H. Qed.

(** A notification of the [Set] tells each member once. *)
Lemma states_heard_notify i s (ls : list StateChangeCallback) :
  NoDup (map (@lid _) ls) ->
  states_heard i (map (fun l => heard_state (lid l) s) ls)
  = if has i ls then [s] else [].
Proof.
  induction ls as [|l rest IH]; intros Hnd; simpl; [reflexivity|].
  inversion Hnd as [|? ? Hnotin Hrest]; subst.
  rewrite (IH Hrest). rewrite (Nat.eqb_sym (lid l) i).
  destruct (Nat.eqb i (lid l)) eqn:E; simpl; [|reflexivity].
  apply Nat.eqb_eq in E. subst i.
  destruct (has (lid l) rest) eqn:Hh; [|reflexivity].
  apply has_In in Hh. contradiction.
Qed.

Lemma setState_told s w i :
  Forall (@quiet _) (stateChangeListeners (this w)) ->
  NoDup (map (@lid _) (stateChangeListeners (this w))) ->
  state (this w) <> s ->
  told i (snd (setState s w))
  = (told i w ++ if has i (stateChangeListeners (this w)) then [s] else [])%list.
Proof.
  intros Hq Hnd Hs. rewrite (setState_quiet s w Hq).
  apply state_eqb_neq in Hs. rewrite Hs. unfold told. simpl.
  rewrite states_heard_app, (states_heard_notify i s _ Hnd). reflexivity.
Qed.

Lemma ends_with_tail a l cur :
  l <> [] -> ends_with (a :: l) cur -> ends_with l cur.
Proof.
  intros Hl [H|(l' & H)]; [discriminate H|]. right.
  destruct l' as [|b l']; simpl in H.
  - injection H as _ H. contradiction.
  - injection H as _ H. exists l'. exact H.
Qed.

Lemma no_repeat_snoc l cur s :
  no_repeat l -> ends_with l cur -> cur <> s -> no_repeat (l ++ [s]).
Proof.
  induction l as [|a l IH]; intros Hn He Hs; simpl; [exact Logic.I|].
  destruct l as [|b l]; simpl.
  - split; [|exact Logic.I]. destruct He as [He|(l' & He)]; [discriminate He|].
    destruct l' as [|c l']; simpl in He.
    + injection He as ->. exact Hs.
    + injection He as _ He. destruct l'; discriminate He.
  - destruct Hn as [Hab Hn]. split; [exact Hab|].
    apply IH; [exact Hn | | exact Hs].
    apply (ends_with_tail a); [discriminate | exact He].
Qed.

Lemma in_step_via ls x y :
  state (this y) = state (this x) ->
  stateChangeListeners (this y) = stateChangeListeners (this x) ->
  (forall i, states_heard i (trace y) = states_heard i (trace x)) ->
  in_step ls x -> in_step ls y.
Proof.
  unfold in_step, told. intros E1 E2 E3 [H1 H2].
  rewrite E1, E2. split; [exact H1|]. intros i. rewrite E3. apply H2.
Qed.

Lemma in_step_setState ls s :
  Forall (@quiet _) ls -> NoDup (map (@lid _) ls) ->
  preserves (in_step ls) unit (setState s).
Proof.
  intros Hq Hnd w [Hls H].
  destruct (state_eqb (state (this w)) s) eqn:E.
  - rewrite setState_spec, E. split; assumption.
  - apply state_eqb_neq in E. subst ls. split.
    + rewrite setState_writes. reflexivity.
    + intros i. rewrite (setState_told s w i Hq Hnd E), setState_writes. simpl.
      destruct (H i) as [Hn He].
      destruct (has i (stateChangeListeners (this w))).
      * split; [|intros _; right; eexists; reflexivity].
        apply (no_repeat_snoc _ (state (this w))); auto.
      * rewrite app_nil_r. split; [exact Hn | intros G; discriminate G].
Qed.

Ltac stepping :=
  intros;
  match goal with
  | H : in_step ?ls ?x |- in_step ?ls _ =>
      apply (in_step_via ls x);
      [reflexivity | reflexivity
      | intros; simpl; try rewrite states_heard_app; simpl;
        try rewrite app_nil_r; reflexivity
      | exact H]
  end.

(** In a run that changes no set of state-change subscribers, nobody
    is told the same state twice in a row. *)
Lemma in_step_run ls events w w' :
  Forall (@quiet _) ls -> NoDup (map (@lid _) ls) ->
  forallb keeps_subscribers events = true ->
  run events w = Some w' -> in_step ls w -> in_step ls w'.
Proof.
  intros Hq Hnd Hk.
  apply (run_preserves (in_step ls) (fun e => keeps_subscribers e = true)).
  - intros e x y He Hstep H.
    apply (preserves_step (in_step ls)) with (e := e) (w := x);
      try assumption; try (intros s; apply in_step_setState; assumption);
      stepping.
  - apply Forall_forall. intros e He.
    rewrite forallb_forall in Hk. apply Hk. exact He.
Qed.

(** A state change is announced to each subscriber once. *)
Lemma setState_announces s w :
  Forall (@quiet _) (stateChangeListeners (this w)) ->
  NoDup (map (@lid _) (stateChangeListeners (this w))) ->
  state (this w) <> s ->
  fst (setState s w) = Returned tt
  /\ announces w (snd (setState s w)) [s]
  /\ state (this (snd (setState s w))) = s
  /\ stateChangeListeners (this (snd (setState s w)))
     = stateChangeListeners (this w).
Proof.
  intros Hq Hnd Hs. split; [rewrite (setState_quiet s w Hq); reflexivity|].
  split; [|rewrite setState_writes; split; reflexivity].
  intros l Hl. rewrite (setState_told s w (lid l) Hq Hnd Hs).
  rewrite (has_member _ l _ Hl). reflexivity.
Qed.

Lemma announces_then w w1 w2 a b :
  stateChangeListeners (this w1) = stateChangeListeners (this w) ->
  announces w w1 a -> announces w1 w2 b -> announces w w2 (a ++ b).
Proof.
  intros E H1 H2 l Hl. rewrite app_assoc, <- (H1 l Hl).
  apply H2. rewrite E. exact Hl.
Qed.

Lemma announces_same_trace w w' :
  stateChangeListeners (this w') = stateChangeListeners (this w) ->
  trace w' = trace w -> forall x ss, announces w' x ss -> announces w x ss.
Proof.
  intros E Et x ss H l Hl. unfold told. rewrite <- Et. apply H.
  rewrite E. exact Hl.
Qed.

Section Connecting.

Variable w : World.
Variable available : bool.

Hypothesis subscribers_quiet : Forall (@quiet _) (stateChangeListeners (this w)).
Hypothesis subscribers_once : NoDup (map (@lid _) (stateChangeListeners (this w))).
Hypothesis idle : state (this w) = disconnected \/ state (this w) = error.
Hypothesis passes : skipAvailabilityCheck (this w) = true \/ available = true.

Lemma guards_pass :
  state_eqb (state (this w)) connected || state_eqb (state (this w)) connecting = false
  /\ negb (skipAvailabilityCheck (this w)) && negb available = false
  /\ state (this w) <> connecting.
Proof.
  repeat split.
  - destruct idle as [-> | ->]; reflexivity.
  - destruct passes as [-> | ->]; [reflexivity | apply andb_false_r].
  - destruct idle as [-> | ->]; discriminate.
Qed.

(** [connect] up to its [await], when the process is spawned. *)
Lemma connect_call_spawned :
  let w1 := after (connect_call available spawn_returns) w in
  fst (connect_call available spawn_returns w) = Returned tt
  /\ announces w w1 [connecting]
  /\ state (this w1) = connecting
  /\ stateChangeListeners (this w1) = stateChangeListeners (this w)
  /\ suspended w1 = (suspended w ++ [awaiting_initialize (spawned w)])%list
  /\ process (this w1) = Some (spawned w)
  /\ connection (this w1) = Some (spawned w).
Proof.
  destruct guards_pass as (G1 & G2 & G3).
  destruct (setState_announces connecting w subscribers_quiet subscribers_once G3)
    as (R & A & S & L).
  destruct (setState_rest connecting w) as (_ & Esp & _ & Esus).
  pose proof (setState_writes connecting w) as W.
  unfold connect_call, after. js. rewrite G1, G2.
  destruct (setState connecting w) as [[u|e] w1]; simpl in *; [|discriminate R].
  rewrite W, Esp, Esus. repeat split. exact A.
Qed.

(** [connect] when the spawn throws. *)
Lemma connect_call_spawn_failed e :
  let w1 := after (connect_call available (spawn_throws e)) w in
  fst (connect_call available (spawn_throws e) w) = Thrown e
  /\ announces w w1 [connecting; error]
  /\ state (this w1) = error.
Proof.
  destruct guards_pass as (G1 & G2 & G3).
  destruct (setState_announces connecting w subscribers_quiet subscribers_once G3)
    as (R & A & S & L).
  unfold connect_call, after. js. rewrite G1, G2.
  destruct (setState connecting w) as [[u|e0] w1]; simpl in *; [|discriminate R].
  assert (Hq1 : Forall (@quiet _) (stateChangeListeners (this w1)))
    by (rewrite L; exact subscribers_quiet).
  assert (Hn1 : NoDup (map (@lid _) (stateChangeListeners (this w1))))
    by (rewrite L; exact subscribers_once).
  assert (Hs1 : state (this w1) <> error) by (rewrite S; discriminate).
  destruct (setState_announces error w1 Hq1 Hn1 Hs1) as (R1 & A1 & S1 & L1).
  destruct (setState error w1) as [[u1|e1] w2]; simpl in *; [|discriminate R1].
  repeat split; [|exact S1].
  apply (announces_then w w1 w2 [connecting] [error] L A A1).
Qed.

End Connecting.

(** [connect] from its [await] on. *)
Lemma connect_resume_announces w r :
  Forall (@quiet _) (stateChangeListeners (this w)) ->
  NoDup (map (@lid _) (stateChangeListeners (this w))) ->
  state (this w) = connecting ->
  let w' := after (connect_resume r) w in
  match r with
  | inr resp =>
      fst (connect_resume r w) = Returned resp
      /\ announces w w' [connected] /\ state (this w') = connected
  | inl e =>
      fst (connect_resume r w) = Thrown e
      /\ announces w w' [error] /\ state (this w') = error
  end.
Proof.
  intros Hq Hnd Hs. unfold connect_resume, after. js. destruct r as [e|resp]; js.
  - assert (G : state (this w) <> error) by (rewrite Hs; discriminate).
    destruct (setState_announces error w Hq Hnd G) as (R & A & S & _).
    destruct (setState error w) as [[u|e0] w1]; simpl in *; [|discriminate R].
    repeat split; assumption.
  - assert (G : state (this w) <> connected) by (rewrite Hs; discriminate).
    destruct (setState_announces connected w Hq Hnd G) as (R & A & S & _).
    destruct (setState connected w) as [[u|e0] w1]; simpl in *; [|discriminate R].
    repeat split; assumption.
Qed.

Lemma connect_resume_in_error e w :
  state (this w) = error -> connect_resume (inl e) w = (Thrown e, w).
Proof.
  intros Hs. unfold connect_resume. js. rewrite setState_spec, Hs. reflexivity.
Qed.

(** The [error] event of the process whose handshake is awaited. *)
Lemma process_error_announces w p err :
  Forall (@quiet _) (stateChangeListeners (this w)) ->
  NoDup (map (@lid _) (stateChangeListeners (this w))) ->
  state (this w) = connecting ->
  announces w (process_error p err w) [error]
  /\ state (this (process_error p err w)) = error.
Proof.
  intros Hq Hnd Hs. split; [|rewrite process_error_writes; reflexivity].
  unfold process_error, on_process_error. js. rewrite ?logError_of_Error.
  set (w0 := on_logger (log Error ("Process error" ++ newline ++ stackOrMessage err)) w).
  assert (G : state (this w0) <> error) by (simpl; rewrite Hs; discriminate).
  destruct (setState_announces error w0 Hq Hnd G) as (R & A & S & L).
  change (on_logger (fun _ => log Error ("Process error" ++ newline ++ stackOrMessage err)
                                 (logger w)) w) with w0.
  destruct (setState error w0) as [[u|e0] w1]; simpl in *; [|discriminate R].
  assert (A' : announces w w1 [error]).
  { apply (announces_same_trace w w0); [reflexivity | reflexivity | exact A]. }
  destruct (position (awaiting_initialize p) (suspended w1)) as [i|]; [|exact A'].
  unfold after. rewrite connect_resume_in_error by exact S. exact A'.
Qed.

(** ** The subscriber set holds a callback once *)

Lemma add_distinct (A : Type) (l : Listener A) ls :
  NoDup (map (@lid A) ls) -> NoDup (map (@lid A) (add l ls)).
Proof.
  intros H. unfold add. destruct (has (lid l) ls) eqn:E; [exact H|].
  rewrite map_app. simpl. apply NoDup_app; [exact H | repeat constructor; intros [] |].
  intros x Hx [<-|[]]. apply has_In in Hx. congruence.
Qed.

Lemma delete_distinct (A : Type) i (ls : list (Listener A)) :
  NoDup (map (@lid A) ls) -> NoDup (map (@lid A) (delete i ls)).
Proof.
  unfold delete. induction ls as [|l ls IH]; simpl; intros H; [exact H|].
  inversion H as [|? ? Hnotin Hrest]; subst.
  destruct (negb (Nat.eqb (lid l) i)); simpl; [|apply IH; exact Hrest].
  constructor; [|apply IH; exact Hrest].
  intros Hin. apply Hnotin. apply in_map_iff in Hin.
  destruct Hin as (x & Hx & Hf). apply filter_In in Hf.
  apply in_map_iff. exists x. split; [exact Hx | apply Hf].
Qed.

(** In every reachable state the state-change subscribers are
    distinct, as the members of a [Set] are. *)
Lemma subscribers_are_distinct w :
  reachable w -> NoDup (map (@lid _) (stateChangeListeners (this w))).
Proof.
  intros (config & skip & events & Hrun).
  apply (run_preserves
           (fun x => NoDup (map (@lid _) (stateChangeListeners (this x))))
           (fun _ => True)) with (events := events) (w := initial config skip);
    try assumption.
  - intros e x y _ Hstep H.
    destruct (keeps_subscribers e) eqn:Hk.
    + apply (preserves_step
               (fun x => NoDup (map (@lid _) (stateChangeListeners (this x)))))
        with (e := e) (w := x); try assumption; try (intros; assumption).
      intros s v Hv. rewrite setState_writes. exact Hv.
    + destruct e; try discriminate Hk; simpl in Hstep; injection Hstep as <-.
      * apply add_distinct. exact H.
      * apply delete_distinct. exact H.
  - apply Forall_forall. intros; exact Logic.I.
  - constructor.
Qed.

Lemma run_app a b w :
  run (a ++ b) w = match run a w with
                   | Some w1 => run b w1
                   | None => None
                   end.
Proof.
  revert w. induction a as [|e a IH]; intros w; simpl; [reflexivity|].
  destruct (step e w); [apply IH | reflexivity].
Qed.

Lemma set_listeners_same w :
  on_this (set_stateChangeListeners (stateChangeListeners (this w))) w = w.
Proof. destruct w as [c g t n r q]. destruct c. reflexivity. Qed.

(** Registering distinct callbacks one after the other leaves them in
    the set, in this order. *)
Lemma subscribe_run ls : forall w,
  NoDup (map (@lid _) (stateChangeListeners (this w) ++ ls)) ->
  run (subscribe ls) w
  = Some (on_this (set_stateChangeListeners (stateChangeListeners (this w) ++ ls)) w).
Proof.
  induction ls as [|l ls IH]; intros w Hnd; simpl.
  - rewrite app_nil_r, set_listeners_same. reflexivity.
  - assert (Hfresh : has (lid l) (stateChangeListeners (this w)) = false).
    { destruct (has (lid l) (stateChangeListeners (this w))) eqn:E; [|reflexivity].
      apply has_In in E. rewrite map_app in Hnd. simpl in Hnd.
      apply NoDup_remove_2 in Hnd. exfalso. apply Hnd.
      apply in_or_app. left. exact E. }
    unfold after, setOnStateChange. js. unfold subscribe in IH. rewrite IH.
    + simpl. unfold add. rewrite Hfresh. rewrite <- app_assoc. reflexivity.
    + simpl. unfold add. rewrite Hfresh. rewrite <- app_assoc. exact Hnd.
Qed.

Lemma connect_call_unavailable w sp :
  state (this w) = disconnected \/ state (this w) = error ->
  skipAvailabilityCheck (this w) = false ->
  connect_call false sp w = (Thrown (AgentUnavailable (agentConfig (this w))), w).
Proof.
  intros Hidle Hskip. unfold connect_call. js.
  destruct Hidle as [-> | ->]; simpl; rewrite Hskip; reflexivity.
Qed.

(** ** While [connect] waits *)

Lemma same_machine_trans a b c :
  same_machine a b -> same_machine b c -> same_machine a c.
Proof.
  unfold same_machine. intros (A1 & A2 & A3 & A4 & A5) (B1 & B2 & B3 & B4 & B5).
  rewrite B1, B2, B3, B4. repeat split; try assumption.
  intros i. rewrite B5. apply A5.
Qed.

Lemma In_remove_nth (A : Type) (l : list A) i s a :
  nth_error l i = Some s -> a <> s -> In a l -> In a (remove_nth i l).
Proof.
  unfold remove_nth. revert i. induction l as [|x l IH]; intros i Hi Hne Hin.
  - contradiction.
  - destruct i as [|i]; simpl in *.
    + injection Hi as ->. destruct Hin as [->|Hin]; [contradiction | exact Hin].
    + destruct Hin as [->|Hin]; [left; reflexivity|].
      right. exact (IH i Hi Hne Hin).
Qed.

(** The calls that wait for the agent keep what waits already, and
    stop no process. *)
Lemma calls_keep_waiting w :
  forall m : M unit,
    (exists cwd, m = newSession_call cwd) \/ (exists x, m = setMode_call x)
    \/ (exists x, m = setModel_call x) \/ (exists x, m = sendMessage_call x)
    \/ m = cancel_call ->
    running (after m w) = running w
    /\ forall s, In s (suspended w) -> In s (suspended (after m w)).
Proof.
  intros m [[x ->]|[[x ->]|[[x ->]|[[x ->]| ->]]]];
    unfold newSession_call, setMode_call, setModel_call, sendMessage_call,
      cancel_call; js;
    try destruct (connection (this w)); try destruct (no_active_session (this w));
    simpl; (split; [reflexivity|]); intros s Hs;
    try exact Hs; apply in_or_app; left; exact Hs.
Qed.

(** What an answer other than the handshake's resumes neither stops
    a process nor touches the calls that wait. *)
Lemma resume_keeps_waiting s r rest w :
  resume s r = Some rest -> (forall p, s <> awaiting_initialize p) ->
  running (rest w) = running w /\ suspended (rest w) = suspended w.
Proof.
  intros E N.
  destruct s, r; cbv beta iota delta [resume] in E; try discriminate E;
    injection E as <-; try (exfalso; eapply N; reflexivity);
    unfold newSession_resume, setMode_resume, setModel_resume,
      sendMessage_resume, cancel_resume, logError; js;
    try destruct (sessionMetadata (this w));
    try destruct (Logger.error _ _ _);
    split; reflexivity.
Qed.

Lemma callbacks_keep_waiting w :
  (forall n, running (after (sessionUpdate n) w) = running w
             /\ suspended (after (sessionUpdate n) w) = suspended w)
  /\ (forall t, running (after (on_stderr_data t) w) = running w
                /\ suspended (after (on_stderr_data t) w) = suspended w)
  /\ (forall params, running (after (requestPermission params) w) = running w
                     /\ suspended (after (requestPermission params) w) = suspended w).
Proof.
  repeat split.
  - apply (preserves_sessionUpdate (fun x => running x = running w));
      try (intros; assumption). reflexivity.
  - apply (preserves_sessionUpdate (fun x => suspended x = suspended w));
      try (intros; assumption). reflexivity.
  - apply (preserves_on_stderr_data (fun x => running x = running w));
      try (intros; assumption). reflexivity.
  - apply (preserves_on_stderr_data (fun x => suspended x = suspended w));
      try (intros; assumption). reflexivity.
  - apply (preserves_requestPermission (fun x => running x = running w));
      try (intros; assumption). reflexivity.
  - apply (preserves_requestPermission (fun x => suspended x = suspended w));
      try (intros; assumption). reflexivity.
Qed.

(** An event that leaves the state moves nothing of the state
    machine, stops no process, and leaves every handshake waiting. *)
Lemma leaves_state_step e x y :
  leaves_state e x = true -> step e x = Some y ->
  same_machine x y
  /\ running y = running x
  /\ forall p, In (awaiting_initialize p) (suspended x) ->
               In (awaiting_initialize p) (suspended y).
Proof.
  intros Hl Hstep.
  assert (M : same_machine x y).
  { destruct (plain e x) eqn:Hp;
      [exact (plain_step_same_machine e x y Hstep Hp)|].
    destruct e as [config|cb|i|cb|i|cb|i|available sp|cwd|m|m|text| | |i r
                  |p text|p err|p code|params|params];
      simpl in Hl, Hp, Hstep; try discriminate Hl; try discriminate Hp.
    - injection Hstep as <-. unfold after.
      rewrite connect_call_active; [apply same_machine_refl|].
      apply orb_true_iff in Hl. destruct Hl as [Hl|Hl];
        apply state_eqb_eq in Hl; [right | left]; exact Hl.
    - destruct (nth_error (suspended x) i) as [[]|]; try discriminate Hl;
        try discriminate Hstep;
        destruct r; try discriminate Hp; cbv beta iota delta [resume] in Hstep;
        injection Hstep as <-.
      unfold after. rewrite newSession_resume_writes.
      unfold same_machine. repeat split. }
  split; [exact M|].
  destruct (callbacks_keep_waiting x) as (C1 & C2 & C3).
  destruct e as [config|cb|i|cb|i|cb|i|available sp|cwd|m|m|text| | |i r
                |p text|p err|p code|params|params];
    simpl in Hl, Hstep; try discriminate Hl.
  - injection Hstep as <-. split; [reflexivity | intros p Hp; exact Hp].
  - injection Hstep as <-. split; [reflexivity | intros p Hp; exact Hp].
  - injection Hstep as <-. split; [reflexivity | intros p Hp; exact Hp].
  - injection Hstep as <-. split; [reflexivity | intros p Hp; exact Hp].
  - injection Hstep as <-. unfold after.
    rewrite connect_call_active;
      [split; [reflexivity | intros p Hp; exact Hp]|].
    apply orb_true_iff in Hl. destruct Hl as [Hl|Hl];
      apply state_eqb_eq in Hl; [right | left]; exact Hl.
  - injection Hstep as <-.
    destruct (calls_keep_waiting x (newSession_call cwd)) as [R Q];
      [left; eexists; reflexivity|].
    split; [exact R | intros p Hp; apply Q; exact Hp].
  - injection Hstep as <-.
    destruct (calls_keep_waiting x (setMode_call m)) as [R Q];
      [right; left; eexists; reflexivity|].
    split; [exact R | intros p Hp; apply Q; exact Hp].
  - injection Hstep as <-.
    destruct (calls_keep_waiting x (setModel_call m)) as [R Q];
      [right; right; left; eexists; reflexivity|].
    split; [exact R | intros p Hp; apply Q; exact Hp].
  - injection Hstep as <-.
    destruct (calls_keep_waiting x (sendMessage_call text)) as [R Q];
      [right; right; right; left; eexists; reflexivity|].
    split; [exact R | intros p Hp; apply Q; exact Hp].
  - injection Hstep as <-.
    destruct (calls_keep_waiting x cancel_call) as [R Q];
      [right; right; right; right; reflexivity|].
    split; [exact R | intros p Hp; apply Q; exact Hp].
  - destruct (nth_error (suspended x) i) as [s|] eqn:Hi; [|discriminate Hstep].
    destruct (resume s r) as [rest|] eqn:Hr; [|discriminate Hstep].
    injection Hstep as <-.
    assert (N : forall p, s <> awaiting_initialize p)
      by (intros p ->; discriminate Hl).
    destruct (resume_keeps_waiting s r rest
                (set_suspended (remove_nth i (suspended x)) x) Hr N) as [R Q].
    split; [exact R|]. intros p Hp. rewrite Q. simpl.
    apply (In_remove_nth _ (suspended x) i s); [exact Hi | | exact Hp].
    intros E. exact (N p (eq_sym E)).
  - destruct (is_running p x); [|discriminate Hstep]. injection Hstep as <-.
    destruct (C2 text) as [R Q]. split; [exact R|].
    intros q Hq. rewrite Q. exact Hq.
  - destruct (Nat.eqb (spawned x) 0); [discriminate Hstep|].
    injection Hstep as <-. destruct (C3 params) as [R Q]. split; [exact R|].
    intros q Hq. rewrite Q. exact Hq.
  - destruct (Nat.eqb (spawned x) 0); [discriminate Hstep|].
    injection Hstep as <-. destruct (C1 params) as [R Q]. split; [exact R|].
    intros q Hq. rewrite Q. exact Hq.
Qed.

Lemma calm_run events : forall x y,
  calm events x = true -> run events x = Some y ->
  same_machine x y
  /\ running y = running x
  /\ forall p, In (awaiting_initialize p) (suspended x) ->
               In (awaiting_initialize p) (suspended y).
Proof.
  induction events as [|e rest IH]; intros x y Hc Hrun; simpl in Hc, Hrun.
  - injection Hrun as <-.
    split; [apply same_machine_refl|]. split; [reflexivity | intros p H; exact H].
  - apply andb_true_iff in Hc. destruct Hc as [Hl Hc].
    destruct (step e x) as [x1|] eqn:E; [|discriminate Hrun].
    destruct (leaves_state_step e x x1 Hl E) as (M1 & R1 & Q1).
    destruct (IH x1 y Hc Hrun) as (M2 & R2 & Q2).
    split; [exact (same_machine_trans x x1 y M1 M2)|].
    split; [rewrite R2; exact R1 | intros p Hp; apply Q2, Q1; exact Hp].
Qed.

(** C2, as the code has it. With state-change subscribers that do
    not raise: a [setState] to the current value notifies nobody and
    changes nothing, and a [setState] to another value tells each
    subscriber the new state exactly once.  A [connect()] that passes
    its guards (the state is [disconnected] or [error], the agent is
    available or the check is skipped) tells each subscriber
    [connecting] at once.  As long as every event that follows leaves
    the state (all events but [dispose], [setAgent], the exit and the
    error of a process, the answer to another handshake and a change
    of the state-change subscribers), the handshake goes on waiting
    and nobody is told anything more; when it is then answered, each
    subscriber has been told exactly [connecting] and [connected] and
    [connect] returns the answer; when it is rejected, or the process
    reports an error, each subscriber has been told exactly
    [connecting] and [error]; and so when the spawn throws.  A
    [connect()] that is refused because the agent is not installed
    changes nothing and tells nobody.  In a run that registers the
    subscribers first and then leaves the set alone, nobody is told
    the same state twice in a row. *)
Theorem state_changes_are_announced_in_order w available :
  Forall (@quiet _) (stateChangeListeners (this w)) ->
  NoDup (map (@lid _) (stateChangeListeners (this w))) ->
  (forall s, state (this w) = s -> setState s w = (Returned tt, w))
  /\ (forall s, state (this w) <> s ->
        fst (setState s w) = Returned tt
        /\ announces w (snd (setState s w)) [s])
  /\ (state (this w) = disconnected \/ state (this w) = error ->
      skipAvailabilityCheck (this w) = true \/ available = true ->
      let w0 := after (connect_call available spawn_returns) w in
      fst (connect_call available spawn_returns w) = Returned tt
      /\ (forall middle w1,
            calm middle w0 = true -> run middle w0 = Some w1 ->
            announces w w1 [connecting]
            /\ state (this w1) = connecting
            /\ (exists i,
                  nth_error (suspended w1) i
                  = Some (awaiting_initialize (spawned w)))
            /\ (forall i,
                  nth_error (suspended w1) i
                  = Some (awaiting_initialize (spawned w)) ->
                  let w2 := set_suspended (remove_nth i (suspended w1)) w1 in
                  (forall resp,
                      step (ev_settle i (initialized resp)) w1
                      = Some (after (connect_resume (inr resp)) w2)
                      /\ fst (connect_resume (inr resp) w2) = Returned resp
                      /\ announces w (after (connect_resume (inr resp)) w2)
                           [connecting; connected])
                  /\ (forall e,
                        step (ev_settle i (rejected e)) w1
                        = Some (after (connect_resume (inl e)) w2)
                        /\ fst (connect_resume (inl e) w2) = Thrown e
                        /\ announces w (after (connect_resume (inl e)) w2)
                             [connecting; error]))
            /\ (forall err,
                  step (ev_process_error (spawned w) err) w1
                  = Some (process_error (spawned w) err w1)
                  /\ announces w (process_error (spawned w) err w1)
                       [connecting; error]))
      /\ (forall e,
            fst (connect_call available (spawn_throws e) w) = Thrown e
            /\ announces w (after (connect_call available (spawn_throws e)) w)
                 [connecting; error]))
  /\ (state (this w) = disconnected \/ state (this w) = error ->
      skipAvailabilityCheck (this w) = false ->
      forall sp,
        connect_call false sp w
        = (Thrown (AgentUnavailable (agentConfig (this w))), w))
  /\ (forall config skip events w' i,
        forallb keeps_subscribers events = true ->
        run (subscribe (stateChangeListeners (this w)) ++ events)
            (initial config skip) = Some w' ->
        no_repeat (told i w')).
Proof.
  intros Hq Hnd. split; [|split; [|split; [|split]]].
  - intros s Hs. rewrite setState_spec, Hs, state_eqb_refl. reflexivity.
  - intros s Hs. destruct (setState_announces s w Hq Hnd Hs) as (R & A & _).
    split; assumption.
  - intros Hidle Hpass w0.
    destruct (connect_call_spawned w available Hq Hnd Hidle Hpass)
      as (R & A & S & L & Q & _). fold w0 in A, S, L, Q.
    assert (Rn : In (spawned w) (running w0)).
    { unfold w0, connect_call, after. js.
      destruct (guards_pass w available Hidle Hpass) as (G1 & G2 & _).
      rewrite G1, G2. rewrite (setState_quiet connecting w Hq). simpl.
      destruct (state_eqb (state (this w)) connecting); simpl;
        apply in_or_app; right; left; reflexivity. }
    split; [exact R|]. split.
    + intros middle w1 Hcalm Hrun.
      destruct (calm_run middle w0 w1 Hcalm Hrun) as (Hm & Hr & Hw).
      destruct Hm as (M1 & _ & _ & M4 & M5).
      assert (A1 : announces w w1 [connecting]).
      { intros l Hl. unfold told. rewrite M5. apply A. exact Hl. }
      assert (S1 : state (this w1) = connecting) by (rewrite M1; exact S).
      assert (L1 : stateChangeListeners (this w1) = stateChangeListeners (this w))
        by (rewrite M4; exact L).
      assert (Hq1 : Forall (@quiet _) (stateChangeListeners (this w1)))
        by (rewrite L1; exact Hq).
      assert (Hn1 : NoDup (map (@lid _) (stateChangeListeners (this w1))))
        by (rewrite L1; exact Hnd).
      split; [exact A1|]. split; [exact S1|]. split; [|split].
      * apply In_nth_error. apply Hw. rewrite Q.
        apply in_or_app. right. left. reflexivity.
      * intros i Hi w2.
        assert (A2 : announces w w2 [connecting]) by exact A1.
        split.
        -- intros resp.
           destruct (connect_resume_announces w2 (inr resp) Hq1 Hn1 S1)
             as (R2 & A3 & _).
           split; [simpl; rewrite Hi; reflexivity|]. split; [exact R2|].
           apply (announces_then w w2 _ [connecting] [connected] L1 A2 A3).
        -- intros e.
           destruct (connect_resume_announces w2 (inl e) Hq1 Hn1 S1)
             as (R2 & A3 & _).
           split; [simpl; rewrite Hi; reflexivity|]. split; [exact R2|].
           apply (announces_then w w2 _ [connecting] [error] L1 A2 A3).
      * intros err.
        destruct (process_error_announces w1 (spawned w) err Hq1 Hn1 S1)
          as (A3 & _).
        split.
        -- simpl. unfold is_running. rewrite Hr.
           assert (E : existsb (Nat.eqb (spawned w)) (running w0) = true).
           { apply existsb_exists. exists (spawned w).
             split; [exact Rn | apply Nat.eqb_refl]. }
           rewrite E. reflexivity.
        -- apply (announces_then w w1 _ [connecting] [error] L1 A1 A3).
    + intros e.
      destruct (connect_call_spawn_failed w available Hq Hnd Hidle Hpass e)
        as (R2 & A2 & _).
      split; assumption.
  - intros Hidle Hskip sp. apply connect_call_unavailable; assumption.
  - intros config skip events w' i Hk Hrun.
    rewrite run_app, subscribe_run in Hrun by exact Hnd.
    assert (H : in_step (stateChangeListeners (this w)) w').
    { apply (in_step_run _ events _ w' Hq Hnd Hk Hrun).
      split; [reflexivity|]. intros j. split; [exact Logic.I | intros _; now left]. }
    destruct H as [_ H]. apply H.
Qed.

(** C2 fails as stated: a [connect()] that fails because the agent
    is not installed tells the subscriber nothing and leaves the state
    [disconnected]. *)
Lemma unavailable_agent_fails_without_transition :
  reachable Examples.watched
  /\ fst (connect_call false spawn_returns Examples.watched)
     = Thrown (AgentUnavailable Examples.agent)
  /\ In Examples.watcher (stateChangeListeners (this Examples.watched))
  /\ told (lid Examples.watcher)
       (after (connect_call false spawn_returns) Examples.watched) = []
  /\ state (this (after (connect_call false spawn_returns) Examples.watched))
     = disconnected
  /\ ~ announces Examples.watched
         (after (connect_call false spawn_returns) Examples.watched)
         [connecting; error].
Proof.
  split.
  { apply reach_reachable. discriminate. }
  split; [reflexivity|]. split; [left; reflexivity|].
  split; [reflexivity|]. split; [reflexivity|].
  intros H. specialize (H Examples.watcher (or_introl eq_refl)).
  vm_compute in H. discriminate H.
Qed.

(** ** Commands that arrive before the session *)

Lemma holds_pending_setState cmds s :
  preserves (holds_pending cmds) unit (setState s).
Proof. intros w H. unfold holds_pending. rewrite setState_writes. exact H. Qed.

Lemma resume_without_metadata w :
  sessionMetadata (this w) = None ->
  (forall m r, this (after (setMode_resume m r) w) = this w)
  /\ (forall m r, this (after (setModel_resume m r) w) = this w).
Proof.
  intros H. unfold setMode_resume, setModel_resume. js.
  split; intros m [e|[]]; simpl; try reflexivity; rewrite H; reflexivity.
Qed.

(** The pending commands stay where they are until a session is
    created, whatever else happens to the client. *)
Lemma holds_pending_step cmds e x y :
  keeps_pending_commands e = true -> step e x = Some y ->
  holds_pending cmds x -> holds_pending cmds y.
Proof.
  intros Hk Hstep H.
  assert (L : forall f w, holds_pending cmds w -> holds_pending cmds (on_logger f w))
    by (intros; assumption).
  assert (Q : forall q w, holds_pending cmds w -> holds_pending cmds (set_suspended q w))
    by (intros; assumption).
  assert (S : forall s, preserves (holds_pending cmds) unit (setState s))
    by (apply holds_pending_setState).
  destruct (preserves_calls (holds_pending cmds) L Q)
    as (P1 & P2 & P3 & P4 & P5 & P6 & P7 & P8).
  destruct e as [config|cb|i|cb|i|cb|i|available sp|cwd|m|m|text| | |i r
                |p text|p err|p code|params|params];
    simpl in Hk, Hstep; try discriminate Hk.
  - injection Hstep as <-. exact H.
  - injection Hstep as <-. exact H.
  - injection Hstep as <-. exact H.
  - injection Hstep as <-. exact H.
  - injection Hstep as <-. exact H.
  - injection Hstep as <-. exact H.
  - injection Hstep as <-.
    apply (preserves_connect_call (holds_pending cmds)); try assumption;
      intros; assumption.
  - injection Hstep as <-. apply P1. exact H.
  - injection Hstep as <-. apply P2. exact H.
  - injection Hstep as <-. apply P3. exact H.
  - injection Hstep as <-. apply P4. exact H.
  - injection Hstep as <-. apply P5. exact H.
  - destruct (nth_error (suspended x) i) as [s|]; [|discriminate Hstep].
    pose proof (Q (remove_nth i (suspended x)) x H) as H1.
    destruct (resume_without_metadata (set_suspended (remove_nth i (suspended x)) x)
                (proj1 H)) as [Rm Rl].
    destruct s, r; cbv beta iota delta [resume] in Hstep; try discriminate Hstep;
      try discriminate Hk; injection Hstep as <-;
      first [ apply (preserves_connect_resume (holds_pending cmds) S); exact H1
            | apply P8; exact H1 | apply P6; exact H1 | apply P7; exact H1
            | unfold holds_pending; rewrite Rm; exact H
            | unfold holds_pending; rewrite Rl; exact H ].
  - destruct (is_running p x); [|discriminate Hstep].
    injection Hstep as <-.
    apply (preserves_on_stderr_data (holds_pending cmds) L); [|exact H].
    intros; assumption.
  - destruct (is_running p x); [|discriminate Hstep].
    injection Hstep as <-.
    apply (preserves_process_error (holds_pending cmds) L Q S). exact H.
  - destruct (is_running p x); [|discriminate Hstep].
    injection Hstep as <-.
    apply (preserves_on_process_exit (holds_pending cmds) L); try assumption;
      intros; assumption.
  - destruct (Nat.eqb (spawned x) 0); [discriminate Hstep|].
    injection Hstep as <-.
    apply (preserves_requestPermission (holds_pending cmds) L). exact H.
  - destruct (Nat.eqb (spawned x) 0); [discriminate Hstep|].
    injection Hstep as <-.
    destruct (sessionUpdate_spec params x) as (T & _).
    unfold holds_pending. rewrite T. unfold reconcile.
    destruct (update params) as [[]|]; try exact H. discriminate Hk.
Qed.

Lemma holds_pending_run cmds events x y :
  forallb keeps_pending_commands events = true -> run events x = Some y ->
  holds_pending cmds x -> holds_pending cmds y.
Proof.
  intros Hk.
  apply (run_preserves (holds_pending cmds)
           (fun e => keeps_pending_commands e = true)).
  - intros e a b He Hstep H. exact (holds_pending_step cmds e a b He Hstep H).
  - apply Forall_forall. intros e He.
    rewrite forallb_forall in Hk. apply Hk. exact He.
Qed.

(** C5. An available-commands notification that arrives while no
    session exists is stored in the pending-commands slot, where it
    stays, without a session, whatever happens to the client until a
    session is created ([dispose], [setAgent] and a further such
    notification apart).  When a [newSession] then completes, the
    metadata holds those commands; its modes are the modes of the
    response when the response has modes, and [null] when that field
    is missing or [null], and likewise its models; the slot is [null]
    again, and the session identifier is that of the response. *)
Theorem pending_commands_are_merged w n cmds :
  sessionMetadata (this w) = None ->
  update n = Some (available_commands_update cmds) ->
  let w1 := after (sessionUpdate n) w in
  pendingCommands (this w1) = Some cmds
  /\ sessionMetadata (this w1) = None
  /\ forall events w2 i response,
       forallb keeps_pending_commands events = true ->
       run events w1 = Some w2 ->
       nth_error (suspended w2) i = Some awaiting_newSession ->
       pendingCommands (this w2) = Some cmds
       /\ sessionMetadata (this w2) = None
       /\ exists w3 md,
            step (ev_settle i (session_created response)) w2 = Some w3
            /\ fst (newSession_resume (inr response)
                      (set_suspended (remove_nth i (suspended w2)) w2))
               = Returned response
            /\ getSessionMetadata (this w3) = Some md
            /\ commands md = Some cmds
            /\ (forall ms, responseModes response = defined ms -> modes md = Some ms)
            /\ (responseModes response = undefined
                \/ responseModes response = null -> modes md = None)
            /\ (forall ms, responseModels response = defined ms ->
                           models md = Some ms)
            /\ (responseModels response = undefined
                \/ responseModels response = null -> models md = None)
            /\ pendingCommands (this w3) = None
            /\ currentSessionId (this w3) = Some (sessionId response).
Proof.
  intros Hnone Hupd w1.
  destruct (sessionUpdate_spec n w) as (Hthis & _).
  assert (H1 : holds_pending cmds w1).
  { unfold holds_pending, w1. rewrite Hthis. unfold reconcile.
    rewrite Hupd, Hnone. split; [exact Hnone | reflexivity]. }
  split; [apply H1|]. split; [apply H1|].
  intros events w2 i response Hk Hrun Hi.
  destruct (holds_pending_run cmds events w1 w2 Hk Hrun H1) as [Hm Hp].
  split; [exact Hp|]. split; [exact Hm|].
  eexists. eexists.
  split; [simpl; rewrite Hi; reflexivity|].
  unfold newSession_resume, after. js. rewrite Hp.
  split; [reflexivity|]. split; [reflexivity|]. simpl.
  split; [reflexivity|].
  split; [intros ms E; rewrite E; reflexivity|].
  split; [intros [E|E]; rewrite E; reflexivity|].
  split; [intros ms E; rewrite E; reflexivity|].
  split; [intros [E|E]; rewrite E; reflexivity|].
  split; reflexivity.
Qed.

(** The provisos of C2 are needed.  A [dispose()] while [connect]
    waits is no event that leaves the state: the subscriber is told
    [connecting], [disconnected] and then, when the handshake is
    answered, [connected], and the client is connected without a
    process. *)
Lemma dispose_during_the_handshake :
  calm [ev_dispose] (after (connect_call true spawn_returns) Examples.watched)
  = false
  /\ run Examples.disposed_meanwhile Examples.watched
     = Some (Examples.reach Examples.watched Examples.disposed_meanwhile)
  /\ told (lid Examples.watcher)
          (Examples.reach Examples.watched Examples.disposed_meanwhile)
     = [connecting; disconnected; connected]
  /\ state (this (Examples.reach Examples.watched Examples.disposed_meanwhile))
     = connected
  /\ process (this (Examples.reach Examples.watched Examples.disposed_meanwhile))
     = None.
Proof.
  split; [reflexivity|]. split; [apply reach_run; reflexivity|].
  split; [reflexivity|]. split; reflexivity.
Qed.

(** A subscriber that raises ends the announcement: [connect] throws
    what the subscriber threw before it spawns a process, the
    subscribers after it are not told, and the client stays
    [connecting], so that the next [connect] is refused. *)
Lemma raising_subscriber_stops_the_announcement :
  stateChangeListeners (this Examples.ill_watched)
  = [Examples.grumpy; Examples.watcher]
  /\ fst (connect_call true spawn_returns Examples.ill_watched)
     = Thrown Examples.boom
  /\ told (lid Examples.grumpy)
          (after (connect_call true spawn_returns) Examples.ill_watched)
     = [connecting]
  /\ told (lid Examples.watcher)
          (after (connect_call true spawn_returns) Examples.ill_watched)
     = []
  /\ state (this (after (connect_call true spawn_returns) Examples.ill_watched))
     = connecting
  /\ process (this (after (connect_call true spawn_returns) Examples.ill_watched))
     = None
  /\ fst (connect_call true spawn_returns
            (after (connect_call true spawn_returns) Examples.ill_watched))
     = Thrown AlreadyActive.
Proof.
  split; [reflexivity|]. split; [reflexivity|]. split; [reflexivity|].
  split; [reflexivity|]. split; [reflexivity|]. split; reflexivity.
Qed.

(** ** The properties at concrete clients *)

Lemma connect_while_active_is_rejected_witness :
  state (this Examples.handshaking) = connecting
  /\ connect_call true spawn_returns Examples.handshaking
     = (Thrown AlreadyActive, Examples.handshaking).
Proof.
  split; [reflexivity|].
  exact (proj1 (connect_while_active_is_rejected
                  Examples.handshaking true spawn_returns
                  (or_introl eq_refl))).
Defined.

Lemma permission_auto_resolver_witness :
  fst (requestPermission
         (mkPermissionRequest "s1" [Examples.reject; Examples.allow])
         Examples.online)
  = Returned (mkPermissionResponse (selected "opt-allow"))
  /\ fst (requestPermission (mkPermissionRequest "s1" [Examples.reject])
            Examples.online)
     = Returned (mkPermissionResponse cancelled).
Proof.
  split.
  - apply (proj1 (permission_auto_resolver
                    (mkPermissionRequest "s1" [Examples.reject; Examples.allow])
                    Examples.online)
             [Examples.reject] Examples.allow [] eq_refl).
    + constructor; [|constructor]. intros [H|H]; discriminate H.
    + left. reflexivity.
  - apply (proj1 (proj2 (permission_auto_resolver
                           (mkPermissionRequest "s1" [Examples.reject])
                           Examples.online))).
    intros o [<-|[]] [H|H]; discriminate H.
Defined.

Lemma raising_subscriber_is_contained_witness :
  updates_heard (lid Examples.early)
    (trace (after (sessionUpdate Examples.chunk) Examples.three_subscribers))
  = [Examples.chunk]
  /\ updates_heard (lid Examples.sound)
       (trace (after (sessionUpdate Examples.chunk) Examples.three_subscribers))
     = []
  /\ fst (sessionUpdate Examples.chunk Examples.three_subscribers) = Returned tt
  /\ errors (logger (after (sessionUpdate Examples.chunk)
                           Examples.three_subscribers))
     = [mkLine "ERROR"
          ("Error in session update listener" ++ newline ++ "Error: boom"
             ++ newline ++ "    at callback (observer.js:3:9)")]
  /\ fst (sessionUpdate Examples.chunk Examples.careless_subscriber)
     = Thrown (an_Error
                 (mkError "Converting circular structure to JSON"
                    (Some "TypeError: Converting circular structure to JSON")))
  /\ errors (logger (after (sessionUpdate Examples.chunk)
                           Examples.careless_subscriber))
     = [].
Proof.
  assert (Hb : Forall (fun l => react l Examples.chunk = None) [Examples.early])
    by (constructor; [reflexivity | constructor]).
  destruct (raising_subscriber_is_contained
              Examples.three_subscribers Examples.chunk
              [Examples.early] Examples.broken [Examples.sound] Examples.boom
              eq_refl Hb eq_refl)
    as (_ & H & _ & Hp & _).
  destruct H as [H1 H2].
  { repeat constructor; simpl; intros G; repeat destruct G as [G|G];
      try discriminate G; exact G. }
  destruct (Hp _ (@printed_stack "Error in session update listener"
                    Examples.boom_error _ eq_refl
                    ltac:(discriminate))) as [R L].
  destruct (raising_subscriber_is_contained
              Examples.careless_subscriber Examples.chunk
              [Examples.early] Examples.careless [] Examples.circular
              eq_refl Hb eq_refl)
    as (_ & _ & _ & _ & Hu & _).
  destruct (Hu _ eq_refl) as [R' L'].
  split; [exact (H1 Examples.early (or_introl eq_refl))|].
  split; [exact (H2 Examples.sound (or_introl eq_refl))|].
  split; [exact R|]. split; [exact L|]. split; [exact R' | exact L'].
Defined.

Lemma pending_commands_are_merged_witness :
  exists w3 md,
    step (ev_settle 0 (session_created
                         (mkNewSession "s2" (defined Examples.plan_and_build) null)))
         (Examples.reach
            (after (sessionUpdate Examples.commands_update) Examples.online)
            [ev_stderr 0 "ready"; ev_newSession "/work"])
    = Some w3
    /\ getSessionMetadata (this w3) = Some md
    /\ commands md = Some [Examples.help]
    /\ modes md = Some Examples.plan_and_build
    /\ models md = None
    /\ pendingCommands (this w3) = None.
Proof.
  destruct (pending_commands_are_merged
              Examples.online Examples.commands_update [Examples.help]
              eq_refl eq_refl) as (_ & _ & H).
  destruct (H [ev_stderr 0%nat "ready"; ev_newSession "/work"]
              (Examples.reach
                 (after (sessionUpdate Examples.commands_update) Examples.online)
                 [ev_stderr 0%nat "ready"; ev_newSession "/work"])
              0%nat
              (mkNewSession "s2" (defined Examples.plan_and_build) null)
              eq_refl)
    as (_ & _ & w3 & md & S & _ & G & C & M1 & _ & _ & M2 & P & _);
    [apply reach_run; reflexivity | reflexivity |].
  exists w3, md.
  split; [exact S|]. split; [exact G|]. split; [exact C|].
  split; [exact (M1 _ eq_refl)|]. split; [exact (M2 (or_intror eq_refl)) | exact P].
Defined.


Lemma handles_in_reachable_states_witness :
  exists w,
    run Examples.connect_then_exit (initial Examples.agent true) = Some w
    /\ state (this w) = disconnected
    /\ process (this w) = None /\ connection (this w) = None.
Proof.
  eexists. split; [reflexivity|]. split; [reflexivity|].
  refine (proj1 (proj2 (handles_in_reachable_states
                          Examples.agent true Examples.connect_then_exit _ eq_refl)
                  _) eq_refl).
  intros cb [H|[H|[H|[]]]]; discriminate H.
Defined.

Lemma state_changes_are_announced_in_order_witness :
  announces Examples.watched
    (after (connect_resume (inr Examples.handshake))
       (set_suspended
          [awaiting_newSession]
          (Examples.reach
             (after (connect_call true spawn_returns) Examples.watched)
             Examples.meanwhile)))
    [connecting; connected]
  /\ announces Examples.watched
       (after (connect_call true (spawn_throws Examples.boom)) Examples.watched)
       [connecting; error].
Proof.
  assert (Hq : Forall (@quiet _) (stateChangeListeners (this Examples.watched))).
  { constructor; [intros a; reflexivity | constructor]. }
  assert (Hnd : NoDup (map (@lid _) (stateChangeListeners (this Examples.watched)))).
  { constructor; [intros [] | constructor]. }
  destruct (state_changes_are_announced_in_order Examples.watched true Hq Hnd)
    as (_ & _ & H & _).
  destruct (H (or_introl eq_refl) (or_intror eq_refl)) as (_ & H1 & H2).
  destruct (H1 Examples.meanwhile
              (Examples.reach
                 (after (connect_call true spawn_returns) Examples.watched)
                 Examples.meanwhile)
              eq_refl)
    as (_ & _ & _ & H3 & _); [apply reach_run; reflexivity|].
  destruct (H3 0%nat eq_refl) as [H4 _].
  split; [exact (proj2 (proj2 (H4 Examples.handshake)))
         | exact (proj2 (H2 Examples.boom))].
Defined.

Lemma exit_keeps_the_session_witness :
  getSessionMetadata
    (this (after (on_process_exit (Some 0%Z)) Examples.in_session))
  = Some (mkMetadata (Some Examples.plan_and_build) None None)
  /\ state (this (after (on_process_exit (Some 0%Z)) Examples.in_session))
     = disconnected.
Proof.
  destruct (exit_keeps_the_session Examples.in_session (Some 0%Z))
    as (_ & S & _ & _ & _ & G & _).
  split; [rewrite G; reflexivity | exact S].
Defined.

End ClientFacts.

(* ================================================================== *)
(** * Properties of the regular expressions *)
(* ================================================================== *)

Module RegexFacts.
Import Js Regex.

Lemma consumed_app (s1 s2 : jsstring) : consumed (s1 ++ s2) s2 = s1.
Proof.
  unfold consumed. rewrite length_app, Nat.add_sub.
  rewrite firstn_app, Nat.sub_diag, firstn_all. simpl. apply app_nil_r.
Qed.

(** ** The matcher finds only what the pattern derives *)

Lemma star_sound (R : Type) p s cs (k : cont R) res :
  star p s cs k = Some res ->
  exists s1 s2, s = s1 ++ s2 /\ Forall (fun c => p c = true) s1
                /\ k s2 cs = Some res.
Proof.
  induction s as [|c t IH]; simpl; intros H.
  - exists [], []. repeat split; [constructor | exact H].
  - destruct (p c) eqn:Hp.
    + destruct (star p t cs k) as [r|] eqn:E.
      * injection H as <-. destruct (IH eq_refl) as (s1 & s2 & -> & Hall & Hk).
        exists (c :: s1), s2. repeat split; [constructor; assumption | exact Hk].
      * exists [], (c :: t). repeat split; [constructor | exact H].
    + exists [], (c :: t). repeat split; [constructor | exact H].
Qed.

Lemma exec_sound (R : Type) r : forall s cs (k : cont R) res,
  exec r s cs k = Some res ->
  exists s1 s2 cs', s = s1 ++ s2 /\ derives r s1 cs cs' /\ k s2 cs' = Some res.
Proof.
  induction r as [|c|p|r1 IH1 r2 IH2|r1 IH1|p|i r1 IH1]; intros s cs k res H;
    simpl in H.
  - exists [], s, cs. repeat split; [constructor | exact H].
  - destruct s as [|x t]; [discriminate H|].
    destruct (N.eqb_spec x c) as [->|]; [|discriminate H].
    exists [c], t, cs. repeat split; [constructor | exact H].
  - destruct s as [|x t]; [discriminate H|].
    destruct (p x) eqn:Hp; [|discriminate H].
    exists [x], t, cs. repeat split; [constructor; exact Hp | exact H].
  - destruct (IH1 _ _ _ _ H) as (s1 & s2 & cs1 & -> & D1 & H2).
    destruct (IH2 _ _ _ _ H2) as (s3 & s4 & cs2 & -> & D2 & H3).
    exists (s1 ++ s3), s4, cs2. rewrite app_assoc.
    repeat split; [econstructor; eassumption | exact H3].
  - destruct (exec r1 s cs k) as [x|] eqn:E.
    + injection H as <-. destruct (IH1 _ _ _ _ E) as (s1 & s2 & cs' & -> & D & Hk).
      exists s1, s2, cs'. repeat split; [apply d_take; exact D | exact Hk].
    + exists [], s, cs. repeat split; [apply d_skip | exact H].
  - destruct (star_sound _ _ _ _ _ _ H) as (s1 & s2 & -> & Hall & Hk).
    exists s1, s2, cs. repeat split; [apply d_star; exact Hall | exact Hk].
  - destruct (IH1 _ _ _ _ H) as (s1 & s2 & cs' & -> & D & Hk).
    rewrite consumed_app in Hk.
    exists s1, s2, ((i, s1) :: cs'). repeat split; [apply d_group; exact D | exact Hk].
Qed.

(** ** The matcher finds a match whenever the pattern derives one *)

Lemma star_total (R : Type) p s cs (k : cont R) :
  k s cs <> None -> star p s cs k <> None.
Proof.
  intros Hk. destruct s as [|c t]; simpl; [exact Hk|].
  destruct (p c); [|exact Hk].
  destruct (star p t cs k); [discriminate | exact Hk].
Qed.

Lemma star_complete (R : Type) p s1 s2 cs (k : cont R) :
  Forall (fun c => p c = true) s1 -> k s2 cs <> None ->
  star p (s1 ++ s2) cs k <> None.
Proof.
  intros Hall Hk. induction Hall as [|c t Hc _ IH]; simpl.
  - apply star_total. exact Hk.
  - rewrite Hc. destruct (star p (t ++ s2) cs k); [discriminate | contradiction].
Qed.

Lemma exec_complete (R : Type) r s1 cs cs' :
  derives r s1 cs cs' ->
  forall s2 (k : cont R) c0,
    (forall c, k s2 c <> None) -> exec r (s1 ++ s2) c0 k <> None.
Proof.
  induction 1 as [cs|c cs|p c cs Hp|r1 r2 s1 s2' cs cs1 cs2 _ IH1 _ IH2
                 |r cs|r s cs cs' _ IH|p s cs Hall|i r s cs cs' _ IH];
    intros s2 k c0 Hk; simpl.
  - apply Hk.
  - rewrite N.eqb_refl. apply Hk.
  - rewrite Hp. apply Hk.
  - rewrite <- app_assoc. apply IH1. intros c. apply IH2. exact Hk.
  - destruct (exec r s2 c0 k); [discriminate | apply Hk].
  - specialize (IH s2 k c0 Hk).
    destruct (exec r (s ++ s2) c0 k); [discriminate | contradiction].
  - apply star_complete; [exact Hall | apply Hk].
  - apply IH. intros c. apply Hk.
Qed.

(** ** The search *)

Lemma search_sound r : forall s i m,
  search r s i = Some m ->
  exists pre post,
    s = pre ++ matched m ++ post
    /\ derives r (matched m) [] (groups m)
    /\ index m = i + List.length pre.
Proof.
  induction s as [|a t IH]; intros i m H; simpl in H.
  - destruct (exec_here r []) as [[x cs]|] eqn:E; [|discriminate H].
    injection H as <-. unfold exec_here in E.
    destruct (exec_sound _ _ _ _ _ _ E) as (s1 & s2 & cs' & Hs & D & Hk).
    injection Hk as <- <-. rewrite Hs, consumed_app.
    exists [], s2. simpl. rewrite Nat.add_0_r. repeat split. exact D.
  - destruct (exec_here r (a :: t)) as [[x cs]|] eqn:E.
    + injection H as <-. unfold exec_here in E.
      destruct (exec_sound _ _ _ _ _ _ E) as (s1 & s2 & cs' & Hs & D & Hk).
      injection Hk as <- <-. rewrite Hs, consumed_app.
      exists [], s2. simpl. rewrite Nat.add_0_r. repeat split. exact D.
    + destruct (IH _ _ H) as (pre & post & -> & D & Hi).
      exists (a :: pre), post. simpl. repeat split; [exact D|].
      rewrite Hi. simpl. lia.
Qed.

Lemma search_complete r pre mid post i :
  matches r mid -> search r (pre ++ mid ++ post) i <> None.
Proof.
  intros [cs' D]. revert i. induction pre as [|a pre IH]; intros i.
  - assert (E : exec_here r (mid ++ post) <> None).
    { unfold exec_here. apply (exec_complete _ _ _ _ _ D). discriminate. }
    simpl. destruct (mid ++ post); simpl;
      destruct (exec_here r _) as [[x cs]|]; try discriminate; contradiction.
  - simpl. destruct (exec_here r _) as [[x cs]|]; [discriminate | apply IH].
Qed.

(** The search stops at the first position at which the pattern
    matches. *)
Lemma search_first r : forall s i m,
  search r s i = Some m ->
  forall k, (i + k < index m)%nat -> exec_here r (skipn k s) = None.
Proof.
  induction s as [|a t IH]; intros i m H k Hk; simpl in H.
  - destruct (exec_here r []) as [[x cs]|] eqn:E; [|discriminate H].
    injection H as <-. simpl in Hk. lia.
  - destruct (exec_here r (a :: t)) as [[x cs]|] eqn:E.
    + injection H as <-. simpl in Hk. lia.
    + destruct k as [|k]; [exact E|]. simpl.
      apply (IH (S i) m H). lia.
Qed.

(** [s.match(r)] answers a match exactly when some part of [s] is in
    the language of [r]. *)
Lemma match_iff_occurs s r : match_ s r <> None <-> occurs r s.
Proof.
  unfold match_, occurs. split.
  - intros H. destruct (search r s 0) as [m|] eqn:E; [|contradiction].
    destruct (search_sound _ _ _ _ E) as (pre & post & Hs & D & _).
    exists pre, (matched m), post. split; [exact Hs | exists (groups m); exact D].
  - intros (pre & mid & post & -> & Hm). apply search_complete. exact Hm.
Qed.

Lemma match_none_iff s r : match_ s r = None <-> ~ occurs r s.
Proof.
  rewrite <- match_iff_occurs. destruct (match_ s r); split; intros H;
    try reflexivity; try discriminate; try (intros G; contradiction).
  exfalso. apply H. discriminate.
Qed.

(** ** What a derivation of each form says *)

Lemma derives_empty s cs cs' : derives Empty s cs cs' -> s = [] /\ cs' = cs.
Proof. intros H. inversion H; subst. split; reflexivity. Qed.

Lemma derives_char c s cs cs' : derives (Char c) s cs cs' -> s = [c] /\ cs' = cs.
Proof. intros H. inversion H; subst. split; reflexivity. Qed.

Lemma derives_seq r1 r2 s cs cs' :
  derives (Seq r1 r2) s cs cs' ->
  exists s1 s2 cs1, s = s1 ++ s2 /\ derives r1 s1 cs cs1 /\ derives r2 s2 cs1 cs'.
Proof.
  intros H. inversion H; subst. exists s1, s2, cs1. repeat split; assumption.
Qed.

Lemma derives_star p s cs cs' :
  derives (Star p) s cs cs' -> Forall (fun c => p c = true) s /\ cs' = cs.
Proof. intros H. inversion H; subst. split; [assumption | reflexivity]. Qed.

Lemma derives_optional r s cs cs' :
  derives (Optional r) s cs cs' -> (s = [] /\ cs' = cs) \/ derives r s cs cs'.
Proof.
  intros H. inversion H; subst; [left; split; reflexivity | right; assumption].
Qed.

Lemma derives_group i r s cs cs' :
  derives (Group i r) s cs cs' ->
  exists cs1, derives r s cs cs1 /\ cs' = (i, s) :: cs1.
Proof. intros H. inversion H; subst. eexists. split; [eassumption | reflexivity]. Qed.

Lemma derives_plus p s cs cs' :
  derives (Plus p) s cs cs' ->
  s <> [] /\ Forall (fun c => p c = true) s /\ cs' = cs.
Proof.
  intros H. unfold Plus in H. apply derives_seq in H.
  destruct H as (s1 & s2 & cs1 & -> & H1 & H2).
  inversion H1; subst. apply derives_star in H2. destruct H2 as [Hall ->].
  repeat split; [discriminate | constructor; assumption].
Qed.

Lemma derives_lit l s cs cs' : derives (Lit l) s cs cs' -> s = l /\ cs' = cs.
Proof.
  revert s cs cs'. induction l as [|c l IH]; intros s cs cs' H; simpl in H.
  - apply derives_empty. exact H.
  - apply derives_seq in H. destruct H as (s1 & s2 & cs1 & -> & H1 & H2).
    apply derives_char in H1. destruct H1 as [-> ->].
    apply IH in H2. destruct H2 as [-> ->]. split; reflexivity.
Qed.

Lemma lit_derives l cs : derives (Lit l) l cs cs.
Proof.
  induction l as [|c l IH]; simpl; [constructor|].
  change (c :: l) with ([c] ++ l). eapply d_seq; [constructor | exact IH].
Qed.

Lemma plus_derives p s cs :
  s <> [] -> Forall (fun c => p c = true) s -> derives (Plus p) s cs cs.
Proof.
  intros Hs Hall. destruct s as [|c t]; [contradiction|].
  inversion Hall; subst.
  change (c :: t) with ([c] ++ t).
  eapply d_seq; [constructor; assumption | constructor; assumption].
Qed.

End RegexFacts.

(* ================================================================== *)
(** * Properties of the diagnostic stream classifier *)
(* ================================================================== *)

Module ChatFacts.
Import Js Regex Chat Shapes RegexFacts.

Ltac split_seq H :=
  apply derives_seq in H;
  let s1 := fresh "s" in
  let s2 := fresh "s" in
  let c1 := fresh "cs" in
  let D := fresh "D" in
  destruct H as (s1 & s2 & c1 & -> & D & H).

(** ** What the patterns derive *)

Lemma derives_fieldPattern key s cs cs' :
  derives (fieldPattern key) s cs cs' ->
  exists ws v,
    s = lit key ++ [58%N] ++ ws ++ [dquote] ++ v ++ [dquote]
    /\ all space ws /\ v <> [] /\ all (other_than dquote) v
    /\ cs' = (1, v) :: cs.
Proof.
  intros H. unfold fieldPattern, Cat in H. cbn [fold_right] in H.
  split_seq H. split_seq H. split_seq H. split_seq H. split_seq H. split_seq H.
  apply derives_lit in D. destruct D as [-> ->].
  apply derives_char in D0. destruct D0 as [-> ->].
  apply derives_star in D1. destruct D1 as [Hws ->].
  apply derives_char in D2. destruct D2 as [-> ->].
  apply derives_group in D3. destruct D3 as (c & D3 & ->).
  apply derives_plus in D3. destruct D3 as (Hne & Hv & ->).
  apply derives_char in D4. destruct D4 as [-> ->].
  apply derives_empty in H. destruct H as [-> ->].
  rewrite app_nil_r. eexists. eexists.
  split; [reflexivity | repeat split; assumption].
Qed.

Lemma fieldPattern_derives key ws v cs :
  all space ws -> v <> [] -> all (other_than dquote) v ->
  derives (fieldPattern key)
          (lit key ++ [58%N] ++ ws ++ [dquote] ++ v ++ [dquote]) cs ((1, v) :: cs).
Proof.
  intros Hws Hne Hv. unfold fieldPattern, Cat. cbn [fold_right].
  eapply d_seq; [apply lit_derives|].
  eapply d_seq; [apply d_char|].
  eapply d_seq; [apply d_star; exact Hws|].
  eapply d_seq; [apply d_char|].
  eapply d_seq; [apply d_group, plus_derives; assumption|].
  rewrite <- (app_nil_r [dquote]).
  eapply d_seq; [apply d_char | apply d_empty].
Qed.

(** A field is there exactly when its pattern is found. *)
Lemma has_field_iff key data : has_field key data <-> occurs (fieldPattern key) data.
Proof.
  unfold has_field, field_value, occurs, matches. split.
  - intros (v & pre & ws & post & -> & Hws & Hne & Hv).
    exists pre, (lit key ++ [58%N] ++ ws ++ [dquote] ++ v ++ [dquote]), post.
    split.
    + repeat rewrite <- app_assoc. reflexivity.
    + eexists. apply fieldPattern_derives; assumption.
  - intros (pre & mid & post & -> & cs' & D).
    apply derives_fieldPattern in D.
    destruct D as (ws & v & -> & Hws & Hne & Hv & _).
    exists v, pre, ws, post. repeat split; try assumption.
    repeat rewrite <- app_assoc. reflexivity.
Qed.

Lemma all_app p s1 s2 : all p s1 -> all p s2 -> all p (s1 ++ s2).
Proof. intros H1 H2. apply Forall_app. split; assumption. Qed.

Lemma all_nil p : all p [].
Proof. constructor. Qed.

Lemma derives_optional_word s cs cs' :
  derives (Optional (Group 2 (Plus word))) s cs cs' ->
  all word s /\ capture 1 cs' = capture 1 cs.
Proof.
  intros D. apply derives_optional in D. destruct D as [[-> ->]|D].
  - split; [apply all_nil | reflexivity].
  - apply derives_group in D. destruct D as (c0 & D & ->).
    apply derives_plus in D. destruct D as (_ & Hw & ->).
    split; [exact Hw | reflexivity].
Qed.

Lemma derives_optional_newline s cs cs' :
  derives (Optional (Char 10)) s cs cs' -> all space s /\ cs' = cs.
Proof.
  intros D. apply derives_optional in D. destruct D as [[-> ->]|D].
  - split; [apply all_nil | reflexivity].
  - apply derives_char in D. destruct D as [-> ->].
    split; [repeat constructor | reflexivity].
Qed.

(** A derivation of the error pattern splits the text into the parts
    of an error shape, and its groups 1 and 3 are the type and the
    data. *)
Lemma derives_errorPattern s cs cs' :
  derives errorPattern s cs cs' ->
  exists name g ws data,
    s = (name ++ lit "Error") ++ [58%N] ++ g ++ lit "data:" ++ ws ++ [123%N]
          ++ data ++ [125%N]
    /\ name <> [] /\ all word name
    /\ gap g /\ all space ws
    /\ data <> [] /\ all (other_than 125) data
    /\ capture 1 cs' = Some (name ++ lit "Error")
    /\ capture 3 cs' = Some data.
Proof.
  intros H. unfold errorPattern, Cat in H. cbn [fold_right] in H.
  apply derives_seq in H. destruct H as (t1 & ? & c1 & -> & D1 & H).
  apply derives_seq in H. destruct H as (t2 & ? & c2 & -> & D2 & H).
  apply derives_seq in H. destruct H as (t3 & ? & c3 & -> & D3 & H).
  apply derives_seq in H. destruct H as (t4 & ? & c4 & -> & D4 & H).
  apply derives_seq in H. destruct H as (t5 & ? & c5 & -> & D5 & H).
  apply derives_seq in H. destruct H as (t6 & ? & c6 & -> & D6 & H).
  apply derives_seq in H. destruct H as (t7 & ? & c7 & -> & D7 & H).
  apply derives_seq in H. destruct H as (t8 & ? & c8 & -> & D8 & H).
  apply derives_seq in H. destruct H as (t9 & ? & c9 & -> & D9 & H).
  apply derives_seq in H. destruct H as (t10 & ? & c10 & -> & D10 & H).
  apply derives_seq in H. destruct H as (t11 & ? & c11 & -> & D11 & H).
  apply derives_seq in H. destruct H as (t12 & ? & c12 & -> & D12 & H).
  apply derives_empty in H. destruct H as [-> E13].
  apply derives_group in D1. destruct D1 as (c0 & D1 & E1).
  apply derives_seq in D1. destruct D1 as (name & tl & c0' & -> & Dn & Dl).
  apply derives_plus in Dn. destruct Dn as (Hname & Hword & En).
  apply derives_lit in Dl. destruct Dl as [-> El].
  apply derives_char in D2. destruct D2 as [-> E2].
  apply derives_star in D3. destruct D3 as [H3 E3].
  apply derives_optional_word in D4. destruct D4 as [H4 E4].
  apply derives_star in D5. destruct D5 as [H5 E5].
  apply derives_optional_newline in D6. destruct D6 as [H6 E6].
  apply derives_star in D7. destruct D7 as [H7 E7].
  apply derives_lit in D8. destruct D8 as [-> E8].
  apply derives_star in D9. destruct D9 as [H9 E9].
  apply derives_char in D10. destruct D10 as [-> E10].
  apply derives_group in D11. destruct D11 as (c0'' & D11 & E11).
  apply derives_plus in D11. destruct D11 as (Hdata & Hother & E11').
  apply derives_char in D12. destruct D12 as [-> E12].
  subst. exists name, (t3 ++ t4 ++ (t5 ++ t6 ++ t7)), t9, t11.
  split; [|repeat split; try assumption].
  - rewrite app_nil_r. repeat rewrite <- app_assoc. reflexivity.
  - exists t3, t4, (t5 ++ t6 ++ t7).
    repeat split; try assumption. repeat apply all_app; assumption.
Qed.

Lemma errorPattern_derives name ws1 w ws2 ws data :
  name <> [] -> all word name ->
  all space ws1 -> all word w -> all space ws2 -> all space ws ->
  data <> [] -> all (other_than 125) data ->
  matches errorPattern
    ((name ++ lit "Error") ++ [58%N] ++ ws1 ++ w ++ ws2 ++ [] ++ []
       ++ lit "data:" ++ ws ++ [123%N] ++ data ++ [125%N] ++ []).
Proof.
  intros Hname Hword H1 Hw H2 Hws Hdata Hother.
  unfold matches, errorPattern, Cat. cbn [fold_right].
  assert (O : exists c, derives (Optional (Group 2 (Plus word))) w
                          [(1, name ++ lit "Error")] c).
  { destruct w as [|x w'].
    - eexists. apply d_skip.
    - eexists. apply d_take, d_group, plus_derives; [discriminate | exact Hw]. }
  destruct O as [c O].
  eexists.
  eapply d_seq.
  { apply d_group. eapply d_seq; [apply plus_derives; assumption | apply lit_derives]. }
  eapply d_seq; [apply d_char|].
  eapply d_seq; [apply d_star; exact H1|].
  eapply d_seq; [exact O|].
  eapply d_seq; [apply d_star; exact H2|].
  eapply d_seq; [apply d_skip|].
  eapply d_seq; [apply d_star; apply all_nil|].
  eapply d_seq; [apply lit_derives|].
  eapply d_seq; [apply d_star; exact Hws|].
  eapply d_seq; [apply d_char|].
  eapply d_seq; [apply d_group, plus_derives; assumption|].
  eapply d_seq; [apply d_char | apply d_empty].
Qed.

(** The error pattern is found exactly in the texts that show an
    error. *)
Lemma error_shape_iff s :
  (exists errorType errorData, error_shape s errorType errorData)
  <-> occurs errorPattern s.
Proof.
  unfold occurs. split.
  - intros (ty & data & pre & name & g & ws & post & -> & -> & Hname & Hword
            & (ws1 & w & ws2 & -> & H1 & Hw & H2) & Hws & Hdata & Hother).
    exists pre,
      ((name ++ lit "Error") ++ [58%N] ++ ws1 ++ w ++ ws2 ++ [] ++ []
         ++ lit "data:" ++ ws ++ [123%N] ++ data ++ [125%N] ++ []),
      post.
    split; [|apply errorPattern_derives; assumption].
    repeat first [rewrite <- app_assoc | progress simpl]. reflexivity.
  - intros (pre & mid & post & -> & cs' & D).
    apply derives_errorPattern in D.
    destruct D as (name & g & ws & data & -> & Hname & Hword & Hg & Hws
                   & Hdata & Hother & _).
    exists (name ++ lit "Error"), data, pre, name, g, ws, post.
    repeat split; try assumption.
    repeat rewrite <- app_assoc. reflexivity.
Qed.

(** ** Which error, and which field *)

Lemma span_unique (p : char -> bool) : forall a a' b b' c c',
  all p a -> all p a' -> p b = false -> p b' = false ->
  a ++ b :: c = a' ++ b' :: c' -> a = a' /\ b = b' /\ c = c'.
Proof.
  induction a as [|x a IH]; intros a' b b' c c' Ha Ha' Hb Hb' E.
  - destruct a' as [|y a']; simpl in E.
    + injection E as -> ->. repeat split.
    + injection E as -> _. inversion Ha' as [|? ? Hy _]; subst. congruence.
  - destruct a' as [|y a']; simpl in E.
    + injection E as <- _. inversion Ha as [|? ? Hx _]; subst. congruence.
    + injection E as -> E. inversion Ha as [|? ? _ Ha1]; subst.
      inversion Ha' as [|? ? _ Ha1']; subst.
      destruct (IH a' b b' c c' Ha1 Ha1' Hb Hb' E) as (-> & -> & ->).
      repeat split.
Qed.

Lemma prefix_unique (A : Type) : forall (a a' b b' : list A),
  List.length a = List.length a' -> a ++ b = a' ++ b' -> a = a' /\ b = b'.
Proof.
  induction a as [|x a IH]; intros [|y a'] b b' L E; simpl in *;
    try discriminate L.
  - split; [reflexivity | exact E].
  - injection L as L. injection E as -> E.
    destruct (IH a' b b' L E) as [-> ->]. split; reflexivity.
Qed.

Lemma space_is_no_colon c : space c = true -> other_than 58 c = true.
Proof.
  intros H. unfold other_than. destruct (N.eqb_spec c 58) as [->|]; [|reflexivity].
  discriminate H.
Qed.

Lemma word_is_no_colon c : word c = true -> other_than 58 c = true.
Proof.
  intros H. unfold other_than. destruct (N.eqb_spec c 58) as [->|]; [|reflexivity].
  discriminate H.
Qed.

Lemma all_impl (p q : char -> bool) s :
  (forall c, p c = true -> q c = true) -> all p s -> all q s.
Proof. intros H. apply Forall_impl. exact H. Qed.

Lemma gap_has_no_colon g : gap g -> all (other_than 58) g.
Proof.
  intros (ws1 & w & ws2 & -> & H1 & Hw & H2).
  apply Forall_app. split; [|apply Forall_app; split].
  - exact (all_impl _ _ _ space_is_no_colon H1).
  - exact (all_impl _ _ _ word_is_no_colon Hw).
  - exact (all_impl _ _ _ space_is_no_colon H2).
Qed.

(** At one place a text shows one error: its type and its data are
    determined. *)
Lemma error_at_functional n s t d t' d' :
  error_at n s t d -> error_at n s t' d' -> t = t' /\ d = d'.
Proof.
  intros (pre & name & g & ws & post & L & E & -> & _ & Hn & Hg & Hws & _ & Hd)
         (pre' & name' & g' & ws' & post' & L' & E' & -> & _ & Hn' & Hg' & Hws'
          & _ & Hd').
  rewrite E in E'. clear E.
  destruct (prefix_unique _ pre pre' _ _ (eq_trans L (eq_sym L')) E') as [_ E1].
  assert (W : forall x, all word x -> all word (x ++ lit "Error")).
  { intros x Hx. apply Forall_app. split; [exact Hx | repeat constructor]. }
  destruct (span_unique word (name ++ lit "Error") (name' ++ lit "Error")
              58%N 58%N _ _ (W _ Hn) (W _ Hn') eq_refl eq_refl E1)
    as (Et & _ & E2).
  split; [exact Et|].
  assert (G : forall x, gap x -> all (other_than 58) (x ++ lit "data")).
  { intros x Hx. apply Forall_app.
    split; [apply gap_has_no_colon; exact Hx | repeat constructor]. }
  assert (R : forall x y : jsstring,
             x ++ lit "data:" ++ y = (x ++ lit "data") ++ 58%N :: y).
  { intros x y. rewrite <- app_assoc. reflexivity. }
  rewrite (R g), (R g') in E2.
  destruct (span_unique (other_than 58) (g ++ lit "data") (g' ++ lit "data")
              58%N 58%N _ _ (G _ Hg) (G _ Hg') eq_refl eq_refl E2)
    as (_ & _ & E3).
  destruct (span_unique space ws ws' 123%N 123%N _ _ Hws Hws' eq_refl eq_refl E3)
    as (_ & _ & E4).
  destruct (span_unique (other_than 125) d d' 125%N 125%N _ _ Hd Hd'
              eq_refl eq_refl E4) as (Ed & _).
  exact Ed.
Qed.

Lemma first_error_functional s t d t' d' :
  first_error s t d -> first_error s t' d' -> t = t' /\ d = d'.
Proof.
  intros (n & H & Hmin) (n' & H' & Hmin').
  assert (E : n = n').
  { pose proof (Hmin _ _ _ H'). pose proof (Hmin' _ _ _ H). lia. }
  subst n'. exact (error_at_functional n s t d t' d' H H').
Qed.

Lemma field_at_functional n key data v v' :
  field_at n key data v -> field_at n key data v' -> v = v'.
Proof.
  intros (pre & ws & post & L & E & Hws & _ & Hv)
         (pre' & ws' & post' & L' & E' & Hws' & _ & Hv').
  rewrite E in E'. clear E.
  destruct (prefix_unique _ pre pre' _ _ (eq_trans L (eq_sym L')) E') as [_ E1].
  apply app_inv_head in E1. injection E1 as E1.
  destruct (span_unique space ws ws' dquote dquote _ _ Hws Hws' eq_refl eq_refl E1)
    as (_ & _ & E2).
  destruct (span_unique (other_than dquote) v v' dquote dquote _ _ Hv Hv'
              eq_refl eq_refl E2) as (Ev & _).
  exact Ev.
Qed.

Lemma first_field_functional key data v v' :
  first_field key data v -> first_field key data v' -> v = v'.
Proof.
  intros (n & H & Hmin) (n' & H' & Hmin').
  assert (E : n = n').
  { pose proof (Hmin _ _ H'). pose proof (Hmin' _ _ H). lia. }
  subst n'. exact (field_at_functional n key data v v' H H').
Qed.

Lemma skipn_prefix (A : Type) (pre rest : list A) :
  skipn (List.length pre) (pre ++ rest) = rest.
Proof. induction pre as [|x pre IH]; simpl; [reflexivity | exact IH]. Qed.

(** Where a text shows an error, the pattern matches. *)
Lemma error_at_matches n s t d :
  error_at n s t d -> exec_here errorPattern (skipn n s) <> None.
Proof.
  intros (pre & name & g & ws & post & <- & -> & -> & Hname & Hword
          & (ws1 & w & ws2 & -> & H1 & Hw & H2) & Hws & Hdata & Hother).
  rewrite skipn_prefix.
  destruct (errorPattern_derives name ws1 w ws2 ws d Hname Hword H1 Hw H2 Hws
              Hdata Hother) as [cs' D].
  unfold exec_here.
  replace ((name ++ lit "Error") ++ [58%N] ++ (ws1 ++ w ++ ws2) ++ lit "data:"
             ++ ws ++ [123%N] ++ d ++ [125%N] ++ post)
    with (((name ++ lit "Error") ++ [58%N] ++ ws1 ++ w ++ ws2 ++ [] ++ []
             ++ lit "data:" ++ ws ++ [123%N] ++ d ++ [125%N] ++ []) ++ post)
    by (repeat first [rewrite <- app_assoc | progress simpl]; reflexivity).
  apply (exec_complete _ _ _ _ _ D). discriminate.
Qed.

Lemma field_at_matches n key data v :
  field_at n key data v -> exec_here (fieldPattern key) (skipn n data) <> None.
Proof.
  intros (pre & ws & post & <- & -> & Hws & Hne & Hv).
  rewrite skipn_prefix. unfold exec_here.
  replace (lit key ++ [58%N] ++ ws ++ [dquote] ++ v ++ [dquote] ++ post)
    with ((lit key ++ [58%N] ++ ws ++ [dquote] ++ v ++ [dquote]) ++ post)
    by (repeat rewrite <- app_assoc; reflexivity).
  apply (exec_complete _ _ _ _ _ (fieldPattern_derives key ws v [] Hws Hne Hv)).
  discriminate.
Qed.

(** The match of the error pattern is the first error of the text,
    and its groups 1 and 3 are the type and the data of that error. *)
Lemma match_first_error s m :
  match_ s errorPattern = Some m ->
  exists t d,
    capture 1 (groups m) = Some t /\ capture 3 (groups m) = Some d
    /\ first_error s t d.
Proof.
  intros E. unfold match_ in E.
  destruct (search_sound _ _ _ _ E) as (pre & post & Hs & D & Hi).
  apply derives_errorPattern in D.
  destruct D as (name & g & ws & data & Hm & Hname & Hword & Hg & Hws
                 & Hdata & Hother & Hc1 & Hc3).
  exists (name ++ lit "Error"), data. split; [exact Hc1|]. split; [exact Hc3|].
  exists (List.length pre). split.
  - exists pre, name, g, ws, post. rewrite Hs, Hm.
    repeat split; try assumption. repeat rewrite <- app_assoc. reflexivity.
  - intros k t d Hk. destruct (Nat.le_gt_cases (List.length pre) k) as [L|L];
      [exact L|].
    exfalso. apply (error_at_matches k s t d Hk).
    apply (search_first _ _ _ _ E). simpl in Hi. lia.
Qed.

(** The match of a field pattern is the first field of that key, and
    its group 1 is the value of that field. *)
Lemma match_first_field key data pm :
  match_ data (fieldPattern key) = Some pm ->
  exists v, group pm 1 = Some v /\ first_field key data v.
Proof.
  intros E. unfold match_ in E.
  destruct (search_sound _ _ _ _ E) as (pre & post & Hs & D & Hi).
  apply derives_fieldPattern in D.
  destruct D as (ws & v & Hm & Hws & Hne & Hv & Hg).
  exists v. split; [unfold group; rewrite Hg; reflexivity|].
  exists (List.length pre). split.
  - exists pre, ws, post. rewrite Hs, Hm.
    repeat split; try assumption. repeat rewrite <- app_assoc. reflexivity.
  - intros k v' Hk. destruct (Nat.le_gt_cases (List.length pre) k) as [L|L];
      [exact L|].
    exfalso. apply (field_at_matches k key data v' Hk).
    apply (search_first _ _ _ _ E). simpl in Hi. lia.
Qed.

(** ** What [handleStderr] does *)

Lemma handleStderr_match text v m :
  match_ (stderrBuffer v ++ text) errorPattern = Some m ->
  handleStderr text v = (set_stderrBuffer [] v, [agentError (classify m)]).
Proof.
  intros H. unfold handleStderr. simpl. rewrite H. reflexivity.
Qed.

Lemma handleStderr_no_match text v :
  match_ (stderrBuffer v ++ text) errorPattern = None ->
  handleStderr text v
  = (if (length (stderrBuffer v ++ text) >? 10000)%Z
     then set_stderrBuffer (slice (stderrBuffer v ++ text) (-5000)) v
     else set_stderrBuffer (stderrBuffer v ++ text) v,
     []).
Proof.
  intros H. unfold handleStderr. simpl. rewrite H. simpl.
  destruct (length (stderrBuffer v ++ text) >? 10000)%Z; reflexivity.
Qed.

(** A match of a field pattern captures a value of the field. *)
Lemma field_match key data pm :
  match_ data (fieldPattern key) = Some pm ->
  exists value, group pm 1 = Some value /\ field_value key data value.
Proof.
  intros H. destruct (search_sound _ _ _ _ H) as (pre & post & Hs & D & _).
  apply derives_fieldPattern in D.
  destruct D as (ws & v & Hm & Hws & Hne & Hv & Hg).
  exists v. split.
  - unfold group. rewrite Hg. reflexivity.
  - exists pre, ws, post. rewrite Hs, Hm.
    repeat split; try assumption. repeat rewrite <- app_assoc. reflexivity.
Qed.

Lemma field_no_match key data :
  match_ data (fieldPattern key) = None -> ~ has_field key data.
Proof.
  intros H G. apply has_field_iff in G. apply match_none_iff in H. contradiction.
Qed.

Lemma slice_trailing s :
  (length s >= 5000)%Z ->
  slice s (-5000) = trailing 5000 s /\ length (trailing 5000 s) = 5000%Z.
Proof.
  intros H. unfold slice, trailing. simpl.
  rewrite Z.max_l by lia. split; [reflexivity|].
  unfold length in *. rewrite length_skipn. lia.
Qed.

(** C7. Whenever the buffer with the new chunk appended shows an
    error (a word ending in Error, a colon, and further on [data:]
    with an object in braces, read up to the first closing brace),
    the classifier posts one agent error and empties the buffer.  The
    error it reports is the first one that the text shows, the one
    that starts leftmost; the type and the data of that error are
    determined by the text.  The text posted is
    [Model not found: provider/model] when the data has both a
    [providerID] and a [modelID] field, with the values of the first
    such fields, which the data determines, and [Agent error: ]
    followed by the type of the error otherwise.  In particular the
    text of the specification's example, fed to a new classifier,
    gives [Model not found: acme/x1]; an error without fields gives
    its type; and of two errors in one text the first is reported. *)
Theorem classifier_signal :
  (forall v text,
      shows_error (stderrBuffer v ++ text) ->
      exists errorType errorData message,
        first_error (stderrBuffer v ++ text) errorType errorData
        /\ handleStderr text v = (set_stderrBuffer [] v, [agentError message])
        /\ stderrBuffer (fst (handleStderr text v)) = []
        /\ (has_field "providerID" errorData /\ has_field "modelID" errorData ->
            exists provider model,
              first_field "providerID" errorData provider
              /\ first_field "modelID" errorData model
              /\ message = lit "Model not found: " ++ provider ++ lit "/" ++ model)
        /\ (~ (has_field "providerID" errorData /\ has_field "modelID" errorData) ->
            message = lit "Agent error: " ++ errorType))
  /\ (forall s t d t' d',
        first_error s t d -> first_error s t' d' -> t = t' /\ d = d')
  /\ (forall key data v v',
        first_field key data v -> first_field key data v' -> v = v')
  /\ handleStderr example_text initial
     = (initial, [agentError (lit "Model not found: acme/x1")])
  /\ handleStderr plain_error_text initial
     = (initial, [agentError (lit "Agent error: FooError")])
  /\ handleStderr two_errors_text initial
     = (initial, [agentError (lit "Agent error: BarError")]).
Proof.
  split; [|split; [exact first_error_functional
                  |split; [exact first_field_functional
                          |repeat split; vm_compute; reflexivity]]].
  intros v text Hshape.
  apply error_shape_iff, match_iff_occurs in Hshape.
  destruct (match_ (stderrBuffer v ++ text) errorPattern) as [m|] eqn:E;
    [clear Hshape | contradiction].
  destruct (match_first_error _ m E) as (ty & data & Hc1 & Hc3 & Hfirst).
  exists ty, data, (classify m).
  split; [exact Hfirst|]. split; [|split].
  - apply handleStderr_match. exact E.
  - rewrite (handleStderr_match text v m E). reflexivity.
  - unfold classify, group. rewrite Hc1, Hc3. cbn [interpolate].
    fold providerPattern modelPattern.
    destruct (match_ data providerPattern) as [pm|] eqn:Ep.
    + destruct (match_ data modelPattern) as [mm|] eqn:Em.
      * destruct (match_first_field "providerID" data pm Ep) as (p & Hp & Fp).
        destruct (match_first_field "modelID" data mm Em) as (q & Hq & Fq).
        unfold group in Hp, Hq. rewrite Hp, Hq. cbn [interpolate]. split.
        -- intros _. exists p, q. repeat split; assumption.
        -- intros H. exfalso. apply H. split.
           ++ destruct (field_match "providerID" data pm Ep) as (x & _ & Fx).
              exists x. exact Fx.
           ++ destruct (field_match "modelID" data mm Em) as (x & _ & Fx).
              exists x. exact Fx.
      * split; [|intros _; reflexivity].
        intros [_ H]. exfalso. exact (field_no_match "modelID" data Em H).
    + split; [|intros _; reflexivity].
      intros [H _]. exfalso. exact (field_no_match "providerID" data Ep H).
Qed.

Lemma shows_error_iff s : shows_error s <-> match_ s errorPattern <> None.
Proof.
  unfold shows_error. rewrite error_shape_iff, match_iff_occurs. tauto.
Qed.

(** C8, as the code has it. After every observation the buffer
    holds at most 10,000 code units.  When the buffer with the chunk
    appended shows an error, the buffer is emptied, whatever its
    length; when it shows none and is longer than 10,000 code units,
    exactly its last 5,000 code units are kept; otherwise it is kept
    whole. *)
Theorem diagnostic_buffer_is_bounded v text :
  (length (stderrBuffer (fst (handleStderr text v))) <= 10000)%Z
  /\ (shows_error (stderrBuffer v ++ text) ->
      stderrBuffer (fst (handleStderr text v)) = [])
  /\ (~ shows_error (stderrBuffer v ++ text) ->
      (length (stderrBuffer v ++ text) > 10000)%Z ->
      stderrBuffer (fst (handleStderr text v))
      = trailing 5000 (stderrBuffer v ++ text)
      /\ length (stderrBuffer (fst (handleStderr text v))) = 5000%Z)
  /\ (~ shows_error (stderrBuffer v ++ text) ->
      (length (stderrBuffer v ++ text) <= 10000)%Z ->
      stderrBuffer (fst (handleStderr text v)) = stderrBuffer v ++ text).
Proof.
  destruct (match_ (stderrBuffer v ++ text) errorPattern) as [m|] eqn:E.
  - rewrite (handleStderr_match text v m E). simpl.
    assert (S : shows_error (stderrBuffer v ++ text)).
    { apply shows_error_iff. rewrite E. discriminate. }
    split; [unfold length; simpl; lia|].
    split; [intros _; reflexivity|].
    split; intros H; contradiction.
  - rewrite (handleStderr_no_match text v E).
    assert (S : ~ shows_error (stderrBuffer v ++ text)).
    { intros H. apply shows_error_iff in H. contradiction. }
    destruct (Z.gtb_spec (length (stderrBuffer v ++ text)) 10000) as [G|G]; simpl.
    + destruct (slice_trailing (stderrBuffer v ++ text)) as [E1 E2]; [lia|].
      rewrite E1. split; [lia|]. split; [intros H; contradiction|].
      split; [intros _ _; split; [reflexivity | exact E2] | intros _ H; lia].
    + split; [exact G|]. split; [intros H; contradiction|].
      split; [intros _ H; lia | intros _ _; reflexivity].
Qed.

Lemma length_repeat c n : length (repeat c (N.to_nat n)) = Z.of_N n.
Proof. unfold length. rewrite repeat_length. apply N_nat_Z. Qed.

Lemma length_app_Z s t : length (s ++ t) = (length s + length t)%Z.
Proof. unfold length. rewrite length_app. lia. Qed.

Lemma long_error_text_shows_error :
  shows_error (stderrBuffer initial ++ long_error_text).
Proof.
  exists (lit "FooError"), (lit "x"), [], (lit "Foo"), [32%N], [32%N],
    (repeat 97%N (N.to_nat 10000)).
  split; [reflexivity|]. split; [reflexivity|]. split; [discriminate|].
  split; [repeat constructor|]. split.
  - exists [32%N], [], []. repeat split; repeat constructor.
  - split; [repeat constructor|]. split; [discriminate | repeat constructor].
Qed.

(** C8 fails as stated: a chunk of more than 10,000 code units that
    shows an error leaves the buffer empty, not with its last 5,000
    code units. *)
Lemma long_error_empties_the_buffer :
  (length (stderrBuffer initial ++ long_error_text) > 10000)%Z
  /\ stderrBuffer (fst (handleStderr long_error_text initial)) = []
  /\ length (trailing 5000 (stderrBuffer initial ++ long_error_text)) = 5000%Z
  /\ stderrBuffer (fst (handleStderr long_error_text initial))
     <> trailing 5000 (stderrBuffer initial ++ long_error_text).
Proof.
  assert (G : length (stderrBuffer initial ++ long_error_text) = 10019%Z).
  { unfold long_error_text. simpl stderrBuffer. rewrite app_nil_l.
    rewrite length_app_Z, length_repeat. reflexivity. }
  assert (E : stderrBuffer (fst (handleStderr long_error_text initial)) = []).
  { pose proof long_error_text_shows_error as S. apply shows_error_iff in S.
    destruct (match_ (stderrBuffer initial ++ long_error_text) errorPattern)
      as [m|] eqn:M; [|contradiction].
    rewrite (handleStderr_match long_error_text initial m M). reflexivity. }
  destruct (slice_trailing (stderrBuffer initial ++ long_error_text)) as [_ L];
    [lia|].
  split; [lia|]. split; [exact E|]. split; [exact L|].
  rewrite E. intros H. rewrite <- H in L. discriminate L.
Qed.

(** A text of blanks shows no error. *)
Lemma blanks_show_no_error n : ~ shows_error (repeat 32%N n).
Proof.
  intros (ty & data & pre & name & g & ws & post & E & -> & Hname & Hword & _).
  destruct name as [|c name]; [contradiction|].
  inversion Hword as [|? ? Hc _]; subst.
  assert (Hin : In c (repeat 32%N n)).
  { rewrite E. apply in_or_app. right. left. reflexivity. }
  apply repeat_spec in Hin. subst c. discriminate Hc.
Qed.

(** ** The properties at concrete texts *)

Lemma classifier_signal_witness :
  shows_error (stderrBuffer initial ++ two_errors_text)
  /\ exists errorType errorData,
       first_error (stderrBuffer initial ++ two_errors_text) errorType errorData
       /\ handleStderr two_errors_text initial
          = (initial, [agentError (lit "Agent error: BarError")])
       /\ stderrBuffer (fst (handleStderr two_errors_text initial)) = [].
Proof.
  assert (S : shows_error (stderrBuffer initial ++ two_errors_text)).
  { apply shows_error_iff. vm_compute. discriminate. }
  split; [exact S|].
  destruct classifier_signal as (H & _ & _ & _ & _ & E).
  destruct (H initial two_errors_text S) as (ty & data & msg & F & _ & B & _).
  exists ty, data. split; [exact F|]. split; [exact E | exact B].
Defined.

Lemma diagnostic_buffer_is_bounded_witness :
  (length (stderrBuffer initial ++ long_blank_text) > 10000)%Z
  /\ length (stderrBuffer (fst (handleStderr long_blank_text initial))) = 5000%Z.
Proof.
  assert (G : (length (stderrBuffer initial ++ long_blank_text) > 10000)%Z).
  { simpl stderrBuffer. rewrite app_nil_l. unfold long_blank_text.
    rewrite length_repeat. reflexivity. }
  split; [exact G|].
  exact (proj2 (proj1 (proj2 (proj2
           (diagnostic_buffer_is_bounded initial long_blank_text)))
           (blanks_show_no_error (N.to_nat 10001)) G)).
Defined.

End ChatFacts.
